(** * Element search and interaction: [clickWithRetry] and [fillWithRetry]

    A shallow embedding of [src/simplified_search.ts].  The two functions
    drive a browser page through a remote-control handle: each sends up to
    three kinds of in-page scripts (main document, level-1 iframes, popup
    windows) and reports a boolean.

    The embedding has four layers:
    - [JsString]: the two string primitives the scripts use
      ([toLowerCase], [includes]);
    - [Dom]: elements, attributes, documents and the selectors the scripts
      pass to [querySelectorAll];
    - [Browser]: pages, the global state ([state.page], [allPages]), the
      observable events and a monad for code that mutates the world, emits
      events and may throw;
    - [Search]: the in-page scripts and the two exported functions.

    [Shape] factors the control flow the two functions share, [Observe]
    holds the vocabulary of the statements and [Samples] a few pages; the
    lemmas follow, and the properties of the specification come last. *)

From Stdlib Require Import String Ascii List NArith ZArith Bool Arith Lia.
Import ListNotations.
Local Open Scope string_scope.

(* ================================================================== *)
(** ** Strings *)
(* ================================================================== *)

Module JsString.

(** A string holds its text in UTF-8, one [ascii] per byte.  For text
    that is well formed, one string occurs in another as a sequence of
    bytes exactly when it does as a sequence of UTF-16 code units, which is
    what [String.prototype.includes] compares. *)

(** *** The ASCII letters *)

Definition is_upper (c : ascii) : bool :=
  (65 <=? nat_of_ascii c)%nat && (nat_of_ascii c <=? 90)%nat.

Definition lower_char (c : ascii) : ascii :=
  if is_upper c then ascii_of_nat (nat_of_ascii c + 32) else c.

(** ASCII lower-casing, which HTML uses where it compares a keyword
    without regard to case: the letters A-Z, every other byte as it is. *)
Fixpoint ascii_lower (s : string) : string :=
  match s with
  | EmptyString => EmptyString
  | String c rest => String (lower_char c) (ascii_lower rest)
  end.

Definition is_ascii_char (c : ascii) : bool := (nat_of_ascii c <? 128)%nat.


(** *** Characters *)

(** What case conversion works on: a character below U+0800 (one or two
    bytes of UTF-8), by its code point, or a byte of a longer sequence,
    which is carried through as it is. *)
Inductive Unit : Type :=
| Point (c : N)
| Byte (b : ascii).

Definition is_lead2 (a : ascii) : bool :=
  (194 <=? N_of_ascii a)%N && (N_of_ascii a <=? 223)%N.

Definition is_trail (b : ascii) : bool :=
  (128 <=? N_of_ascii b)%N && (N_of_ascii b <=? 191)%N.

Definition point2 (a b : ascii) : N :=
  ((N_of_ascii a - 192) * 64 + (N_of_ascii b - 128))%N.

Fixpoint decode (s : string) : list Unit :=
  match s with
  | EmptyString => []
  | String a rest =>
      if is_ascii_char a then Point (N_of_ascii a) :: decode rest
      else
        match rest with
        | String b rest' =>
            if is_lead2 a && is_trail b then Point (point2 a b) :: decode rest'
            else Byte a :: decode rest
        | EmptyString => [Byte a]
        end
  end.

Definition encode_unit (u : Unit) : string :=
  match u with
  | Point c =>
      if (c <? 128)%N then String (ascii_of_N c) EmptyString
      else String (ascii_of_N (192 + c / 64))
                  (String (ascii_of_N (128 + c mod 64)) EmptyString)
  | Byte b => String b EmptyString
  end.

Fixpoint encode (l : list Unit) : string :=
  match l with
  | [] => EmptyString
  | u :: rest => encode_unit u ++ encode rest
  end.

(** *** Case conversion *)

(** [String.prototype.toLowerCase] converts by the Unicode default case
    conversion, whatever the locale.  The tables below are those of the
    Unicode Character Database for Basic Latin, the Latin-1 Supplement and
    the Greek and Coptic block (U+0000-U+00FF, U+0370-U+03FF); on text of
    these characters [toLowerCase] below is the function of the language.
    Characters outside these blocks are left as they are and count as
    neither cased nor case-ignorable.

    A row [(first, last, step, to)] maps the characters [first],
    [first + step], ... up to [last] to [to], [to + step], ... *)
Definition lower_table : list (N * N * N * N) :=
  [ (65, 90, 1, 97);        (* A-Z *)
    (192, 214, 1, 224);     (* U+00C0-U+00D6 *)
    (216, 222, 1, 248);     (* U+00D8-U+00DE *)
    (880, 882, 2, 881);     (* U+0370, U+0372 *)
    (886, 886, 1, 887);     (* U+0376 *)
    (895, 895, 1, 1011);    (* U+037F *)
    (902, 902, 1, 940);     (* U+0386 *)
    (904, 906, 1, 941);     (* U+0388-U+038A *)
    (908, 908, 1, 972);     (* U+038C *)
    (910, 911, 1, 973);     (* U+038E, U+038F *)
    (913, 929, 1, 945);     (* U+0391-U+03A1, alpha to rho *)
    (931, 939, 1, 963);     (* U+03A3-U+03AB, sigma to upsilon with dialytika *)
    (975, 975, 1, 983);     (* U+03CF *)
    (984, 1006, 2, 985);    (* U+03D8-U+03EE, the even ones *)
    (1012, 1012, 1, 952);   (* U+03F4 *)
    (1015, 1015, 1, 1016);  (* U+03F7 *)
    (1017, 1017, 1, 1010);  (* U+03F9 *)
    (1018, 1018, 1, 1019);  (* U+03FA *)
    (1021, 1023, 1, 891) ]%N. (* U+03FD-U+03FF *)

Definition in_row (c : N) (row : N * N * N * N) : bool :=
  let '(first, last, step, _) := row in
  ((first <=? c) && (c <=? last) && ((c - first) mod step =? 0))%N.

(** The lower-case form of one character, out of context. *)
Definition lower_point (c : N) : N :=
  match find (in_row c) lower_table with
  | Some (first, _, _, to) => (to + (c - first))%N
  | None => c
  end.

Definition in_ranges (c : N) (ranges : list (N * N)) : bool :=
  existsb (fun r => (fst r <=? c) && (c <=? snd r))%N ranges.

(** The characters with the property Cased. *)
Definition cased_ranges : list (N * N) :=
  [ (65, 90); (97, 122); (170, 170); (181, 181); (186, 186); (192, 214);
    (216, 246); (248, 255); (880, 883); (886, 887); (890, 893); (895, 895);
    (902, 902); (904, 906); (908, 908); (910, 929); (931, 1013);
    (1015, 1023) ]%N.

(** The characters with the property Case_Ignorable. *)
Definition ignorable_ranges : list (N * N) :=
  [ (39, 39); (46, 46); (58, 58); (94, 94); (96, 96); (168, 168); (173, 173);
    (175, 175); (180, 180); (183, 184); (884, 885); (890, 890); (900, 901);
    (903, 903) ]%N.

Definition cased (u : Unit) : bool :=
  match u with
  | Point c => in_ranges c cased_ranges
  | Byte _ => false
  end.

Definition case_ignorable (u : Unit) : bool :=
  match u with
  | Point c => in_ranges c ignorable_ranges
  | Byte _ => false
  end.

(** Past any case-ignorable characters, the next character is cased. *)
Fixpoint followed_by_cased (l : list Unit) : bool :=
  match l with
  | [] => false
  | u :: rest =>
      if case_ignorable u then followed_by_cased rest else cased u
  end.

Definition capital_sigma : N := 931.  (* U+03A3 *)
Definition small_sigma : N := 963.    (* U+03C3 *)
Definition final_sigma : N := 962.    (* U+03C2 *)

(** One character in its context.  The capital sigma is the one
    character whose lower-case form depends on it (the condition
    Final_Sigma): the final form when a cased letter comes before it, past
    any case-ignorable characters, and none comes after it. *)
Definition lower_unit (preceded : bool) (rest : list Unit) (u : Unit) : Unit :=
  match u with
  | Point c =>
      if (c =? capital_sigma)%N then
        if preceded && negb (followed_by_cased rest) then Point final_sigma
        else Point small_sigma
      else Point (lower_point c)
  | Byte b => Byte b
  end.

(** [preceded]: past any case-ignorable characters, the character before
    is cased. *)
Fixpoint lower_units (preceded : bool) (l : list Unit) : list Unit :=
  match l with
  | [] => []
  | u :: rest =>
      lower_unit preceded rest u
      :: lower_units (if case_ignorable u then preceded else cased u) rest
  end.

Definition toLowerCase (s : string) : string :=
  encode (lower_units false (decode s)).

(** [s.includes(sub)]: [sub] occurs in [s] at some position. *)
Fixpoint includes (s sub : string) : bool :=
  String.prefix sub s
  || match s with
     | EmptyString => false
     | String _ rest => includes rest sub
     end.

(** [x?.toLowerCase() || ''] for a value that may be [null]. *)
Definition lower_or_empty (x : option string) : string :=
  match x with
  | Some s => toLowerCase s
  | None => EmptyString
  end.

(** The double quote, for interpolated log lines. *)
Definition dquote : string := String (ascii_of_nat 34) EmptyString.

Definition quoted (s : string) : string := dquote ++ s ++ dquote.

End JsString.
Import JsString.

(* ================================================================== *)
(** ** Documents *)
(* ================================================================== *)

Module Dom.

(** An element as the scripts observe it.  A document is the list of its
    elements in document order, which is the order [querySelectorAll]
    reports them in; [textContent] is the text of the element with its
    descendants.  The bounding box is in whole layout units: the scripts
    only compare it with zero.  [content] is what an [<iframe>] element
    gives access to; it is not consulted on any other element. *)
Inductive Element : Type :=
  mkElement
    (tagName : string)
    (attributes : list (string * string))
    (textContent : string)
    (rect_width rect_height : Z)
    (style_display style_visibility : string)
    (disabled : bool)
    (value : string)
    (options : list string)
    (content : Frame)
with Frame : Type :=
| NoDocument                          (* contentDocument and contentWindow are null *)
| CrossOrigin                         (* contentDocument is null, contentWindow.document throws *)
| SameOrigin (doc : list Element).    (* contentDocument is the framed document *)

Definition Document := list Element.

Definition tagName (el : Element) : string :=
  let 'mkElement t _ _ _ _ _ _ _ _ _ _ := el in t.
Definition attributes (el : Element) : list (string * string) :=
  let 'mkElement _ a _ _ _ _ _ _ _ _ _ := el in a.
Definition textContent (el : Element) : string :=
  let 'mkElement _ _ t _ _ _ _ _ _ _ _ := el in t.
Definition rect_width (el : Element) : Z :=
  let 'mkElement _ _ _ w _ _ _ _ _ _ _ := el in w.
Definition rect_height (el : Element) : Z :=
  let 'mkElement _ _ _ _ h _ _ _ _ _ _ := el in h.
Definition style_display (el : Element) : string :=
  let 'mkElement _ _ _ _ _ d _ _ _ _ _ := el in d.
Definition style_visibility (el : Element) : string :=
  let 'mkElement _ _ _ _ _ _ v _ _ _ _ := el in v.
Definition disabled (el : Element) : bool :=
  let 'mkElement _ _ _ _ _ _ _ d _ _ _ := el in d.
Definition value (el : Element) : string :=
  let 'mkElement _ _ _ _ _ _ _ _ v _ _ := el in v.
Definition options (el : Element) : list string :=
  let 'mkElement _ _ _ _ _ _ _ _ _ o _ := el in o.
Definition content (el : Element) : Frame :=
  let 'mkElement _ _ _ _ _ _ _ _ _ _ c := el in c.

(** [el.value = v], when the assignment completes: [value] is the
    string assigned.  Where the control would store a sanitised form of it
    (see [stores_as_given] below) [value] is still the string assigned; no
    scan reads it. *)
Definition set_value (v : string) (el : Element) : Element :=
  let 'mkElement t a x w h d vis dis _ o c := el in
  mkElement t a x w h d vis dis v o c.

(** The framed document of an iframe is replaced (its elements are
    mutated in place by a script of the embedding page). *)
Definition set_content (c : Frame) (el : Element) : Element :=
  let 'mkElement t a x w h d vis dis v o _ := el in
  mkElement t a x w h d vis dis v o c.

Fixpoint assoc (k : string) (l : list (string * string)) : option string :=
  match l with
  | [] => None
  | (k', v) :: rest => if String.eqb k' k then Some v else assoc k rest
  end.

(** [el.getAttribute(name)]: [None] is [null]. *)
Definition getAttribute (el : Element) (name : string) : option string :=
  assoc name (attributes el).

(** The attribute list with [k] set to [v]. *)
Fixpoint put (k v : string) (l : list (string * string))
  : list (string * string) :=
  match l with
  | [] => [(k, v)]
  | (k', v') :: rest =>
      if String.eqb k' k then (k, v) :: rest else (k', v') :: put k v rest
  end.

(** [el.setAttribute(name, v)] and [el.textContent = x], by which the
    statements say what a scan does not depend on. *)
Definition setAttribute (name v : string) (el : Element) : Element :=
  let 'mkElement t a x w h d vis dis val o c := el in
  mkElement t (put name v a) x w h d vis dis val o c.

Definition set_textContent (x : string) (el : Element) : Element :=
  let 'mkElement t a _ w h d vis dis val o c := el in
  mkElement t a x w h d vis dis val o c.

(** [input.placeholder]: the property reflects the attribute and is the
    empty string when the attribute is absent. *)
Definition placeholder (el : Element) : string :=
  match getAttribute el "placeholder" with
  | Some s => s
  | None => EmptyString
  end.

Definition has_tag (t : string) (el : Element) : bool :=
  String.eqb (tagName el) t.

(** [[name="v"]] *)
Definition attr_is (name v : string) (el : Element) : bool :=
  match getAttribute el name with
  | Some x => String.eqb x v
  | None => false
  end.

(** [[type="v"]]: HTML matches the value of [type] without regard to
    ASCII case. *)
Definition type_is (v : string) (el : Element) : bool :=
  match getAttribute el "type" with
  | Some x => String.eqb (ascii_lower x) v
  | None => false
  end.

(** ['button, a, [role="button"], [role="tab"], input[type="button"]'] *)
Definition sel_clickable (el : Element) : bool :=
  has_tag "button" el
  || has_tag "a" el
  || attr_is "role" "button" el
  || attr_is "role" "tab" el
  || (has_tag "input" el && type_is "button" el).

(** ['input, textarea'] *)
Definition sel_fillable (el : Element) : bool :=
  has_tag "input" el || has_tag "textarea" el.

(** ['iframe'] *)
Definition sel_iframe (el : Element) : bool := has_tag "iframe" el.

(** A file-upload control. *)
Definition is_file_input (el : Element) : bool :=
  has_tag "input" el && type_is "file" el.

(** Whether [el.value = v] completes.  On a file-upload control the
    assignment of anything but the empty string throws an
    [InvalidStateError]; on every other [input] and on a [textarea] it
    completes. *)
Definition takes_value (v : string) (el : Element) : bool :=
  negb (is_file_input el) || String.eqb v EmptyString.

(** A line break. *)
Definition is_line_break (c : ascii) : bool :=
  Ascii.eqb c (ascii_of_nat 10) || Ascii.eqb c (ascii_of_nat 13).

Fixpoint has_line_break (s : string) : bool :=
  match s with
  | EmptyString => false
  | String c rest => is_line_break c || has_line_break rest
  end.

(** The state of an [input] is a plain text state: [type] is absent, or
    is text, search, tel or password. *)
Definition is_text_input (el : Element) : bool :=
  has_tag "input" el
  && match getAttribute el "type" with
     | None => true
     | Some _ =>
         type_is "text" el || type_is "search" el || type_is "tel" el
         || type_is "password" el
     end.

(** Whether [el.value] reads [v] after [el.value = v].  A control
    stores what its value sanitization makes of the string assigned: a
    plain text input and a textarea keep a string without line breaks as it
    is (the one strips them, the other normalizes them); a number, date,
    colour or range input replaces what it cannot parse, an email or url
    input trims.  Only the first case is described here. *)
Definition stores_as_given (v : string) (el : Element) : bool :=
  (is_text_input el || has_tag "textarea" el) && negb (has_line_break v).

(** A node handle: the position of the element in its document, with the
    element as it was when the handle was taken. *)
Definition NodeRef : Type := nat * Element.

Fixpoint indexed_from (i : nat) (doc : Document) : list NodeRef :=
  match doc with
  | [] => []
  | el :: rest => (i, el) :: indexed_from (S i) rest
  end.

(** [doc.querySelectorAll(sel)], in document order. *)
Definition querySelectorAll (sel : Element -> bool) (doc : Document)
  : list NodeRef :=
  filter (fun r => sel (snd r)) (indexed_from 0 doc).

(** In-place mutation of the element at position [i]. *)
Fixpoint update_at {A : Type} (i : nat) (f : A -> A) (l : list A) : list A :=
  match l, i with
  | [], _ => []
  | x :: rest, O => f x :: rest
  | x :: rest, S i' => x :: update_at i' f rest
  end.

(** The documents reachable below an element through same-origin
    iframes, at every nesting depth. *)
Fixpoint framed_documents (el : Element) : list Document :=
  match content el with
  | SameOrigin doc => doc :: flat_map framed_documents doc
  | NoDocument => []
  | CrossOrigin => []
  end.

(** A document with every document framed in it, recursively. *)
Definition documents_of (doc : Document) : list Document :=
  doc :: flat_map framed_documents doc.

End Dom.
Import Dom.

(* ================================================================== *)
(** ** Pages, events and effects *)
(* ================================================================== *)

Module Browser.

(** A page of the browser: the main page or a popup window. *)
Record Page : Type := mkPage {
  isClosed : bool;
  document : Document
}.

(** Which page object a call goes to: [state.page] or [allPages[k]]. *)
Inductive PageId : Type :=
| MainPage
| Popup (k : nat).

(** The closures handed to [page.evaluate], by search pass, with the
    arguments they are called on. *)
Inductive Script : Type :=
| ClickMain (searchText : string)
| ClickIframes (searchText : string)
| ClickPopup (searchText : string)
| FillMain (searchText fillValue : string)
| FillIframes (searchText fillValue : string)
| FillPopup (searchText fillValue : string).

(** What a script does to an element. *)
Inductive DomAction : Type :=
| ScrollIntoView
| Click
| SetValue (v : string)
| DispatchEvent (name : string).

(** One action of a script: on the element [ev_elem] at position
    [ev_node] of the page's own document ([ev_frame = None]) or of the
    document framed by the iframe at position [j] ([ev_frame = Some j]). *)
Record DomEvent : Type := mkDomEvent {
  ev_frame : option nat;
  ev_node : nat;
  ev_elem : Element;
  ev_action : DomAction
}.

(** What a call lets the outside observe, in order. *)
Inductive Event : Type :=
| Log (msg : string)
| Evaluated (p : PageId) (s : Script)
| Dom (p : PageId) (ev : DomEvent)
| Waited (p : PageId) (ms : Z).

(** The globals the functions read: [state.page] ([None] when unset),
    the list [allPages] (an entry may be null), and the failures the
    environment will inject: one entry is consumed by each awaited call
    to the browser, [true] makes that call reject.

    Pages are held by value.  A page object that occurs twice (the main
    page listed again in [allPages], say) is two equal entries; the only
    mutation of a page is the assignment of [value], which no scan reads,
    so the results and the actions are those of the shared object.  After
    an assignment the two entries differ in that value, where the shared
    object has it once: a statement on the pages a call leaves says which
    entries it speaks of. *)
Record World : Type := mkWorld {
  state_page : option Page;
  allPages : list (option Page);
  faults : list bool
}.

Record JsError : Type := mkError { message : string }.

Inductive Outcome (A : Type) : Type :=
| Returned (a : A)
| Thrown (e : JsError).
Arguments Returned {A} a.
Arguments Thrown {A} e.

(** A run of a piece of code: how it ended, the world it left and the
    events it emitted. *)
Record Run (A : Type) : Type := mkRun {
  outcome : Outcome A;
  final : World;
  emitted : list Event
}.
Arguments mkRun {A} outcome final emitted.
Arguments outcome {A} r.
Arguments final {A} r.
Arguments emitted {A} r.

Definition M (A : Type) : Type := World -> Run A.

Definition ret {A : Type} (a : A) : M A :=
  fun w => mkRun (Returned a) w [].

Definition throw {A : Type} (e : JsError) : M A :=
  fun w => mkRun (Thrown e) w [].

Definition bind {A B : Type} (m : M A) (k : A -> M B) : M B :=
  fun w =>
    let r := m w in
    match outcome r with
    | Returned a =>
        let r' := k a (final r) in
        mkRun (outcome r') (final r') (emitted r ++ emitted r')
    | Thrown e => mkRun (Thrown e) (final r) (emitted r)
    end.

(** [try { m } catch (e) { handler e }] *)
Definition try_catch {A : Type} (m : M A) (handler : JsError -> M A) : M A :=
  fun w =>
    let r := m w in
    match outcome r with
    | Returned a => r
    | Thrown e =>
        let r' := handler e (final r) in
        mkRun (outcome r') (final r') (emitted r ++ emitted r')
    end.

Definition gets {A : Type} (f : World -> A) : M A :=
  fun w => mkRun (Returned (f w)) w [].

Definition emit (ev : Event) : M unit :=
  fun w => mkRun (Returned tt) w [ev].

Definition emit_all (evs : list Event) : M unit :=
  fun w => mkRun (Returned tt) w evs.

(** [log(msg)]: the logging collaborator records the line. *)
Definition log (msg : string) : M unit := emit (Log msg).

(** The page object behind a handle; [None] for [null]. *)
Definition page_of (p : PageId) (w : World) : option Page :=
  match p with
  | MainPage => state_page w
  | Popup k =>
      match nth_error (allPages w) k with
      | Some popup => popup
      | None => None
      end
  end.

Definition set_page_document (doc : Document) (pg : Page) : Page :=
  mkPage (isClosed pg) doc.

(** The world in which the document of page [p] is [doc]. *)
Definition put_document (p : PageId) (doc : Document) (w : World) : World :=
  match p with
  | MainPage =>
      mkWorld (option_map (set_page_document doc) (state_page w))
              (allPages w) (faults w)
  | Popup k =>
      mkWorld (state_page w)
              (update_at k (option_map (set_page_document doc)) (allPages w))
              (faults w)
  end.

(** The document of page [p] after a script has run in it. *)
Definition set_document (p : PageId) (doc : Document) : M unit :=
  fun w => mkRun (Returned tt) (put_document p doc w) [].

(** An awaited browser call settles: it rejects when the environment
    says so. *)
Definition settle (what : string) : M unit :=
  fun w =>
    match faults w with
    | [] => mkRun (Returned tt) w []
    | false :: fs => mkRun (Returned tt) (mkWorld (state_page w) (allPages w) fs) []
    | true :: fs => mkRun (Thrown (mkError what)) (mkWorld (state_page w) (allPages w) fs) []
    end.

(** [await page.waitForTimeout(ms)] *)
Definition waitForTimeout (p : PageId) (ms : Z) : M unit :=
  bind (emit (Waited p ms)) (fun _ => settle "waitForTimeout: target closed").

End Browser.
Import Browser.

Declare Scope js_scope.
Delimit Scope js_scope with js.
Notation "x <- m ;; k" := (bind m (fun x => k))
  (at level 61, m at next level, right associativity) : js_scope.
Notation "m ;; k" := (bind m (fun _ => k))
  (at level 61, right associativity) : js_scope.

(* ================================================================== *)
(** ** The search functions *)
(* ================================================================== *)

Module Search.

Local Open Scope js_scope.

(** *** Conditions of the scans *)

(** Click scan, main document and iframes: [textContent], [aria-label]
    or [title] includes the lower-cased search text. *)
Definition click_matches (searchLower : string) (el : Element) : bool :=
  let text := toLowerCase (textContent el) in
  let ariaLabel := lower_or_empty (getAttribute el "aria-label") in
  let title := lower_or_empty (getAttribute el "title") in
  includes text searchLower || includes ariaLabel searchLower
  || includes title searchLower.

(** Click scan, popup windows: [textContent] or [aria-label]. *)
Definition click_matches_popup (searchLower : string) (el : Element) : bool :=
  let text := toLowerCase (textContent el) in
  let ariaLabel := lower_or_empty (getAttribute el "aria-label") in
  includes text searchLower || includes ariaLabel searchLower.

(** Fill scan, main document and iframes: [placeholder], [aria-label],
    [id] or [name]. *)
Definition fill_matches (searchLower : string) (el : Element) : bool :=
  let placeholder := toLowerCase (placeholder el) in
  let label := lower_or_empty (getAttribute el "aria-label") in
  let id := lower_or_empty (getAttribute el "id") in
  let name := lower_or_empty (getAttribute el "name") in
  includes placeholder searchLower || includes label searchLower
  || includes id searchLower || includes name searchLower.

(** Fill scan, popup windows: [placeholder] or [aria-label]. *)
Definition fill_matches_popup (searchLower : string) (el : Element) : bool :=
  let placeholder := toLowerCase (placeholder el) in
  let label := lower_or_empty (getAttribute el "aria-label") in
  includes placeholder searchLower || includes label searchLower.

(** [rect.width > 0 && rect.height > 0] *)
Definition has_box (el : Element) : bool :=
  (0 <? rect_width el)%Z && (0 <? rect_height el)%Z.

(** [style.display !== 'none' && style.visibility !== 'hidden'] *)
Definition style_shown (el : Element) : bool :=
  negb (String.eqb (style_display el) "none")
  && negb (String.eqb (style_visibility el) "hidden").

(** The condition under which each pass acts on an element of its list. *)
Definition click_main_cond (searchLower : string) (el : Element) : bool :=
  click_matches searchLower el && (has_box el && style_shown el).

Definition click_iframe_cond (searchLower : string) (el : Element) : bool :=
  click_matches searchLower el && has_box el.

Definition click_popup_cond (searchLower : string) (el : Element) : bool :=
  click_matches_popup searchLower el.

Definition fill_main_cond (searchLower : string) (el : Element) : bool :=
  fill_matches searchLower el
  && (has_box el && style_shown el && negb (disabled el)).

Definition fill_iframe_cond (searchLower : string) (el : Element) : bool :=
  fill_matches searchLower el.

Definition fill_popup_cond (searchLower : string) (el : Element) : bool :=
  fill_matches_popup searchLower el.

(** *** In-page scripts *)

(** [for (const el of Array.from(doc.querySelectorAll(sel))) if (cond el)
    { ...; return true }]: the element the loop stops at. *)
Definition first_candidate (sel cond : Element -> bool) (doc : Document)
  : option NodeRef :=
  find (fun r => cond (snd r)) (querySelectorAll sel doc).

(** The loop over the iframes of a document.  Each turn is a [try]
    block of its own: a framed document that cannot be reached (null, or an
    access that throws) is skipped, and so is one in which the statements
    on the candidate throw ([settles] is [false] of it): the [catch] takes
    over and the loop goes on with the next iframe.  The first framed
    document whose first candidate is acted on ends the loop.  The result
    is the position of the iframe and the candidate. *)
Fixpoint scan_iframes (sel cond settles : Element -> bool)
  (iframes : list NodeRef) : option (nat * NodeRef) :=
  match iframes with
  | [] => None
  | (j, iframe) :: rest =>
      match content iframe with
      | SameOrigin iframeDoc =>
          match first_candidate sel cond iframeDoc with
          | Some r =>
              if settles (snd r) then Some (j, r)
              else scan_iframes sel cond settles rest
          | None => scan_iframes sel cond settles rest
          end
      | NoDocument => scan_iframes sel cond settles rest
      | CrossOrigin => scan_iframes sel cond settles rest
      end
  end.

(** A script returns its boolean, leaves the document as it mutated it
    and has acted on elements. *)
Definition ScriptResult : Type := bool * Document * list DomEvent.

Definition act (frame : option nat) (r : NodeRef) (a : DomAction) : DomEvent :=
  mkDomEvent frame (fst r) (snd r) a.

(** [el.scrollIntoView(...); el.click()] *)
Definition click_actions (frame : option nat) (r : NodeRef) : list DomEvent :=
  [act frame r ScrollIntoView; act frame r Click].

(** [input.value = fillValue; input.dispatchEvent(input);
    input.dispatchEvent(change)] *)
Definition fill_actions (frame : option nat) (r : NodeRef) (fillValue : string)
  : list DomEvent :=
  [act frame r (SetValue fillValue);
   act frame r (DispatchEvent "input");
   act frame r (DispatchEvent "change")].

(** The document after [value] was assigned on the node [r]. *)
Definition assign (r : NodeRef) (fillValue : string) (doc : Document) : Document :=
  update_at (fst r) (set_value fillValue) doc.

(** The same, for a node of the document framed by iframe [j]. *)
Definition assign_in_frame (j : nat) (r : NodeRef) (fillValue : string)
  (doc : Document) : Document :=
  update_at j
    (fun iframe =>
       match content iframe with
       | SameOrigin iframeDoc =>
           set_content (SameOrigin (assign r fillValue iframeDoc)) iframe
       | NoDocument => iframe
       | CrossOrigin => iframe
       end)
    doc.

(** The six scripts.  [scrollIntoView], [click] and [dispatchEvent] do
    not throw.  The assignment of [value] can (see [takes_value]): in the
    script over the iframes the exception is caught in the loop; in the
    other two fill scripts it would leave the script and reject the
    [evaluate] call, which is one of the rejections that the failures of
    the environment stand for (see [evaluate]), so these two are given for
    an assignment that completes. *)
Definition run_script (s : Script) (doc : Document) : ScriptResult :=
  match s with
  | ClickMain searchText =>
      let searchLower := toLowerCase searchText in
      match first_candidate sel_clickable (click_main_cond searchLower) doc with
      | Some el => (true, doc, click_actions None el)
      | None => (false, doc, [])
      end
  | ClickIframes searchText =>
      let searchLower := toLowerCase searchText in
      let iframes := querySelectorAll sel_iframe doc in
      match scan_iframes sel_clickable (click_iframe_cond searchLower)
              (fun _ => true) iframes with
      | Some (j, el) => (true, doc, click_actions (Some j) el)
      | None => (false, doc, [])
      end
  | ClickPopup searchText =>
      let searchLower := toLowerCase searchText in
      match first_candidate sel_clickable (click_popup_cond searchLower) doc with
      | Some el => (true, doc, click_actions None el)
      | None => (false, doc, [])
      end
  | FillMain searchText fillValue =>
      let searchLower := toLowerCase searchText in
      match first_candidate sel_fillable (fill_main_cond searchLower) doc with
      | Some input =>
          (true, assign input fillValue doc,
           act None input ScrollIntoView :: fill_actions None input fillValue)
      | None => (false, doc, [])
      end
  | FillIframes searchText fillValue =>
      let searchLower := toLowerCase searchText in
      let iframes := querySelectorAll sel_iframe doc in
      match scan_iframes sel_fillable (fill_iframe_cond searchLower)
              (takes_value fillValue) iframes with
      | Some (j, input) =>
          (true, assign_in_frame j input fillValue doc,
           fill_actions (Some j) input fillValue)
      | None => (false, doc, [])
      end
  | FillPopup searchText fillValue =>
      let searchLower := toLowerCase searchText in
      match first_candidate sel_fillable (fill_popup_cond searchLower) doc with
      | Some input =>
          (true, assign input fillValue doc, fill_actions None input fillValue)
      | None => (false, doc, [])
      end
  end.

(** [await page.evaluate(script, args)]: the call is sent, settles, and
    when it does not reject the script has run in the page's document.
    A call rejects when the environment says so, whatever the cause: the
    page went away, or an exception left the script.  A call on a null page
    object is a TypeError. *)
Definition evaluate (p : PageId) (s : Script) : M bool :=
  emit (Evaluated p s) ;;
  settle "page.evaluate: execution context was destroyed" ;;
  page <- gets (page_of p) ;;
  match page with
  | None => throw (mkError "Cannot read properties of null")
  | Some pg =>
      let '(result, doc', actions) := run_script s (document pg) in
      set_document p doc' ;;
      emit_all (map (Dom p) actions) ;;
      ret result
  end.

(** *** clickWithRetry *)

(** One turn of [for (const popup of allPages)], for the entry at [k]:
    whether the function returns [true] from inside the loop. *)
Definition click_popup (target : string) (k : nat) : M bool :=
  popup <- gets (page_of (Popup k)) ;;
  match popup with
  | Some pg =>
      if negb (isClosed pg) then
        try_catch
          (popupClicked <- evaluate (Popup k) (ClickPopup target) ;;
           if popupClicked then
             log "✓ Found and clicked in popup window" ;;
             waitForTimeout (Popup k) 500 ;;
             ret true
           else ret false)
          (fun _ => ret false)
      else ret false
  | None => ret false
  end.

(** The loop over [allPages], from entry [k], [remaining] entries left;
    the result is [true] when the function returned from inside it. *)
Fixpoint click_popups (target : string) (k remaining : nat) : M bool :=
  match remaining with
  | O => ret false
  | S remaining' =>
      returned <- click_popup target k ;;
      if returned then ret true
      else click_popups target (S k) remaining'
  end.

(** The [try] block. *)
Definition click_body (target : string) : M bool :=
  mainPageClicked <- evaluate MainPage (ClickMain target) ;;
  if mainPageClicked then
    log "✓ Found and clicked on main page" ;;
    waitForTimeout MainPage 500 ;;
    ret true
  else
    iframeClicked <- evaluate MainPage (ClickIframes target) ;;
    if iframeClicked then
      log "✓ Found and clicked in iframe" ;;
      waitForTimeout MainPage 500 ;;
      ret true
    else
      n <- gets (fun w => length (allPages w)) ;;
      returned <- click_popups target 0 n ;;
      if returned then ret true
      else
        log ("✗ Element not found anywhere: " ++ quoted target) ;;
        ret false.

(** The [catch] block. *)
Definition click_handler (error : JsError) : M bool :=
  log ("[CLICK ERROR] " ++ message error) ;;
  ret false.

(** [!state.page || state.page.isClosed()] *)
Definition page_unavailable (w : World) : bool :=
  match state_page w with
  | None => true
  | Some pg => isClosed pg
  end.

Definition clickWithRetry (target : string) (maxRetries : Z) : M bool :=
  unavailable <- gets page_unavailable ;;
  if unavailable then ret false
  else
    log ("[CLICK SEARCH] Looking for: " ++ quoted target) ;;
    try_catch (click_body target) click_handler.

(** *** fillWithRetry *)

Definition fill_popup (target value : string) (k : nat) : M bool :=
  popup <- gets (page_of (Popup k)) ;;
  match popup with
  | Some pg =>
      if negb (isClosed pg) then
        try_catch
          (popupFilled <- evaluate (Popup k) (FillPopup target value) ;;
           if popupFilled then
             log "✓ Found and filled input in popup" ;;
             waitForTimeout (Popup k) 300 ;;
             ret true
           else ret false)
          (fun _ => ret false)
      else ret false
  | None => ret false
  end.

Fixpoint fill_popups (target value : string) (k remaining : nat) : M bool :=
  match remaining with
  | O => ret false
  | S remaining' =>
      returned <- fill_popup target value k ;;
      if returned then ret true
      else fill_popups target value (S k) remaining'
  end.

Definition fill_body (target value : string) : M bool :=
  mainPageFilled <- evaluate MainPage (FillMain target value) ;;
  if mainPageFilled then
    log "✓ Found and filled input on main page" ;;
    waitForTimeout MainPage 300 ;;
    ret true
  else
    iframeFilled <- evaluate MainPage (FillIframes target value) ;;
    if iframeFilled then
      log "✓ Found and filled input in iframe" ;;
      waitForTimeout MainPage 300 ;;
      ret true
    else
      n <- gets (fun w => length (allPages w)) ;;
      returned <- fill_popups target value 0 n ;;
      if returned then ret true
      else
        log ("✗ Input field not found anywhere: " ++ quoted target) ;;
        ret false.

Definition fill_handler (error : JsError) : M bool :=
  log ("[FILL ERROR] " ++ message error) ;;
  ret false.

Definition fillWithRetry (target value : string) (maxRetries : Z) : M bool :=
  unavailable <- gets page_unavailable ;;
  if unavailable then ret false
  else
    log ("[FILL SEARCH] Looking for input: " ++ quoted target) ;;
    try_catch (fill_body target value) fill_handler.

End Search.
Import Search.

(* ================================================================== *)
(** ** The shape the two functions share *)
(* ================================================================== *)

(** [clickWithRetry] and [fillWithRetry] are the same control flow over
    different scripts, messages and pauses.  [Shape.search] is that control
    flow with the differences as a parameter; the two functions are shown
    below to be instances of it, and what holds of every instance is proved
    once. *)
Module Shape.

Local Open Scope js_scope.

Record Pass : Type := mkPass {
  main_script : Script;
  iframe_script : Script;
  popup_script : Script;
  found_main : string;
  found_iframe : string;
  found_popup : string;
  not_found : string;
  looking_for : string;
  error_tag : string;
  pause : Z
}.

Definition sweep_popup (c : Pass) (k : nat) : M bool :=
  popup <- gets (page_of (Popup k)) ;;
  match popup with
  | Some pg =>
      if negb (isClosed pg) then
        try_catch
          (hit <- evaluate (Popup k) (popup_script c) ;;
           if hit then
             log (found_popup c) ;;
             waitForTimeout (Popup k) (pause c) ;;
             ret true
           else ret false)
          (fun _ => ret false)
      else ret false
  | None => ret false
  end.

Fixpoint sweep_popups (c : Pass) (k remaining : nat) : M bool :=
  match remaining with
  | O => ret false
  | S remaining' =>
      returned <- sweep_popup c k ;;
      if returned then ret true
      else sweep_popups c (S k) remaining'
  end.

(** What follows the pass over the main document. *)
Definition after_main (c : Pass) (hit : bool) : M bool :=
  if hit then
    log (found_main c) ;;
    waitForTimeout MainPage (pause c) ;;
    ret true
  else
    hit' <- evaluate MainPage (iframe_script c) ;;
    if hit' then
      log (found_iframe c) ;;
      waitForTimeout MainPage (pause c) ;;
      ret true
    else
      n <- gets (fun w => length (allPages w)) ;;
      returned <- sweep_popups c 0 n ;;
      if returned then ret true
      else
        log (not_found c) ;;
        ret false.

Definition sweep (c : Pass) : M bool :=
  hit <- evaluate MainPage (main_script c) ;;
  after_main c hit.

Definition on_error (c : Pass) (error : JsError) : M bool :=
  log (error_tag c ++ message error) ;;
  ret false.

Definition search (c : Pass) : M bool :=
  unavailable <- gets page_unavailable ;;
  if unavailable then ret false
  else
    log (looking_for c) ;;
    try_catch (sweep c) (on_error c).

Definition click_pass (target : string) : Pass :=
  mkPass (ClickMain target) (ClickIframes target) (ClickPopup target)
         "✓ Found and clicked on main page"
         "✓ Found and clicked in iframe"
         "✓ Found and clicked in popup window"
         ("✗ Element not found anywhere: " ++ quoted target)
         ("[CLICK SEARCH] Looking for: " ++ quoted target)
         "[CLICK ERROR] "
         500.

Definition fill_pass (target value : string) : Pass :=
  mkPass (FillMain target value) (FillIframes target value)
         (FillPopup target value)
         "✓ Found and filled input on main page"
         "✓ Found and filled input in iframe"
         "✓ Found and filled input in popup"
         ("✗ Input field not found anywhere: " ++ quoted target)
         ("[FILL SEARCH] Looking for input: " ++ quoted target)
         "[FILL ERROR] "
         300.

(** The element list a script runs over, the condition of its loop and
    the actions it may take. *)
Definition script_selects (s : Script) : Element -> bool :=
  match s with
  | ClickMain _ | ClickIframes _ | ClickPopup _ => sel_clickable
  | FillMain _ _ | FillIframes _ _ | FillPopup _ _ => sel_fillable
  end.

Definition script_cond (s : Script) : Element -> bool :=
  match s with
  | ClickMain t => click_main_cond (toLowerCase t)
  | ClickIframes t => click_iframe_cond (toLowerCase t)
  | ClickPopup t => click_popup_cond (toLowerCase t)
  | FillMain t _ => fill_main_cond (toLowerCase t)
  | FillIframes t _ => fill_iframe_cond (toLowerCase t)
  | FillPopup t _ => fill_popup_cond (toLowerCase t)
  end.

(** Whether the statements of the script on a candidate complete. *)
Definition script_settles (s : Script) : Element -> bool :=
  match s with
  | ClickMain _ | ClickIframes _ | ClickPopup _ => fun _ => true
  | FillMain _ v | FillIframes _ v | FillPopup _ v => takes_value v
  end.

Definition script_allows (s : Script) (a : DomAction) : bool :=
  match s with
  | ClickMain _ | ClickIframes _ | ClickPopup _ =>
      match a with
      | ScrollIntoView | Click => true
      | SetValue _ | DispatchEvent _ => false
      end
  | FillMain _ v | FillIframes _ v | FillPopup _ v =>
      match a with
      | ScrollIntoView => true
      | SetValue x => String.eqb x v
      | DispatchEvent name => String.eqb name "input" || String.eqb name "change"
      | Click => false
      end
  end.

Definition script_action_ok (s : Script) (a : DomEvent) : Prop :=
  script_selects s (ev_elem a) = true
  /\ script_cond s (ev_elem a) = true
  /\ script_allows s (ev_action a) = true.

(** Whether a script looks into the framed documents of the document it
    runs in, or into that document itself. *)
Definition script_in_frames (s : Script) : bool :=
  match s with
  | ClickIframes _ | FillIframes _ _ => true
  | _ => false
  end.

End Shape.
Import Shape.

(* ================================================================== *)
(** ** Observations on a run, and the classifiers of the specification *)
(* ================================================================== *)

Module Observe.

Definition is_scan (ev : Event) : bool :=
  match ev with
  | Evaluated _ _ => true
  | _ => false
  end.

(** The first script of the chain: a pass over the main document. *)
Definition is_chain_start (ev : Event) : bool :=
  match ev with
  | Evaluated MainPage (ClickMain _) => true
  | Evaluated MainPage (FillMain _ _) => true
  | _ => false
  end.

Definition count (f : Event -> bool) (evs : list Event) : nat :=
  length (filter f evs).

(** How many in-page scans a run sent. *)
Definition scans {A : Type} (r : Run A) : nat := count is_scan (emitted r).

(** How many times a run started the chain of passes. *)
Definition chain_attempts {A : Type} (r : Run A) : nat :=
  count is_chain_start (emitted r).

(** The elements a run acted on, with the action. *)
Fixpoint actions (evs : list Event) : list (PageId * DomEvent) :=
  match evs with
  | [] => []
  | Dom p ev :: rest => (p, ev) :: actions rest
  | _ :: rest => actions rest
  end.

Definition acted_on {A : Type} (r : Run A) : list Element :=
  map (fun a => ev_elem (snd a)) (actions (emitted r)).


(** What a click search may do to an element, and what a fill search
    may. *)
Definition click_action (a : DomAction) : Prop :=
  a = ScrollIntoView \/ a = Click.

Definition plain_fill_action (fillValue : string) (a : DomAction) : Prop :=
  a = ScrollIntoView \/ a = SetValue fillValue
  \/ a = DispatchEvent "input" \/ a = DispatchEvent "change".

(** An event of a click search for [target] is, when it is an action,
    a click action on an element of the clickable list that the
    three-attribute scan accepts. *)
Definition click_event_ok (target : string) (ev : Event) : Prop :=
  match ev with
  | Dom _ a =>
      sel_clickable (ev_elem a) = true
      /\ click_matches (toLowerCase target) (ev_elem a) = true
      /\ click_action (ev_action a)
  | _ => True
  end.

(** The same for a fill search: a plain assignment on an element of the
    fillable list that the four-attribute scan accepts. *)
Definition fill_event_ok (target fillValue : string) (ev : Event) : Prop :=
  match ev with
  | Dom _ a =>
      sel_fillable (ev_elem a) = true
      /\ fill_matches (toLowerCase target) (ev_elem a) = true
      /\ plain_fill_action fillValue (ev_action a)
  | _ => True
  end.

(** The target occurs, case-folded, in an attribute the click scan
    (resp. the fill scan) of the main document and of the iframes reads. *)
Definition click_label_match (target : string) (el : Element) : Prop :=
  includes (toLowerCase (textContent el)) (toLowerCase target) = true
  \/ includes (lower_or_empty (getAttribute el "aria-label")) (toLowerCase target) = true
  \/ includes (lower_or_empty (getAttribute el "title")) (toLowerCase target) = true.

Definition fill_label_match (target : string) (el : Element) : Prop :=
  includes (toLowerCase (placeholder el)) (toLowerCase target) = true
  \/ includes (lower_or_empty (getAttribute el "aria-label")) (toLowerCase target) = true
  \/ includes (lower_or_empty (getAttribute el "id")) (toLowerCase target) = true
  \/ includes (lower_or_empty (getAttribute el "name")) (toLowerCase target) = true.

(** [el] is in a document framed, with same-origin access, by an iframe
    of the document of [pg]. *)
Definition in_framed_document (pg : Page) (el : Element) : Prop :=
  exists iframe iframeDoc,
    In iframe (document pg) /\ sel_iframe iframe = true
    /\ content iframe = SameOrigin iframeDoc /\ In el iframeDoc.

(** Every document a search could look into: the main document and the
    open popups, each with the documents framed in it at any depth. *)
Definition open_documents (popup : option Page) : list Document :=
  match popup with
  | Some pg => if isClosed pg then [] else documents_of (document pg)
  | None => []
  end.

Definition all_contexts (w : World) : list Document :=
  open_documents (state_page w) ++ flat_map open_documents (allPages w).

(** No element of any context matches the target for the click scan
    (resp. the fill scan). *)
Definition no_click_match (target : string) (w : World) : Prop :=
  forall doc el, In doc (all_contexts w) -> In el doc ->
                 click_matches (toLowerCase target) el = false.

Definition no_fill_match (target : string) (w : World) : Prop :=
  forall doc el, In doc (all_contexts w) -> In el doc ->
                 fill_matches (toLowerCase target) el = false.

(** The pages of two worlds are the same (their pending failures may
    differ). *)
Definition same_pages (w w' : World) : Prop :=
  state_page w' = state_page w /\ allPages w' = allPages w.

(** The environment injects no failure. *)
Definition no_faults (w : World) : Prop :=
  forall b, In b (faults w) -> b = false.

(** Every event a computation emits, from any world, satisfies [P]. *)
Definition emits_only {A : Type} (P : Event -> Prop) (m : M A) : Prop :=
  forall w, Forall P (emitted (m w)).

(** A script finds nothing, resp. something, in a document. *)
Definition misses (s : Script) (doc : Document) : Prop :=
  fst (fst (run_script s doc)) = false.

Definition hits (s : Script) (doc : Document) : Prop :=
  fst (fst (run_script s doc)) = true.


(** Modelled from the spec: the selector-like targets of section 4.1 that
    the spec spells out, those beginning with [#], [.] or [[]; the
    normalizer itself is not in [simplified_search.ts]. *)
Definition begins_like_selector (target : string) : bool :=
  match target with
  | String c _ =>
      Ascii.eqb c "#"%char || Ascii.eqb c "."%char || Ascii.eqb c "["%char
  | EmptyString => false
  end.





(** The assignment of [v] completes on every element of the main
    document of [pg] and of the documents it frames with same-origin
    access: none is a file-upload control, or [v] is empty. *)
Definition assignments_complete (v : string) (pg : Page) : Prop :=
  forall e, In e (document pg) \/ in_framed_document pg e ->
            takes_value v e = true.




End Observe.
Import Observe.

(* ================================================================== *)
(** ** Sample pages *)
(* ================================================================== *)

Module Samples.

(** A rendered, enabled element that frames nothing. *)
Definition element (tag : string) (attrs : list (string * string)) (text : string)
  : Element :=
  mkElement tag attrs text 120 24 "block" "visible" false EmptyString [] NoDocument.

(** An iframe giving access to [doc]. *)
Definition iframe (doc : Document) : Element :=
  mkElement "iframe" [] EmptyString 300 200 "block" "visible" false EmptyString []
            (SameOrigin doc).

(** An element that is not rendered, hidden and disabled. *)
Definition hidden_element (tag : string) (attrs : list (string * string))
  (text : string) : Element :=
  mkElement tag attrs text 0 0 "none" "hidden" true EmptyString [] NoDocument.

Definition open_page (doc : Document) : Page := mkPage false doc.

(** A world with an open main page, no popups and no failures. *)
Definition world_of (doc : Document) : World :=
  mkWorld (Some (open_page doc)) [] [].

Definition submit_button : Element := element "button" [] "Submit".

(** A button two iframes deep. *)
Definition nested_world : World :=
  world_of [element "div" [] "Page"; iframe [iframe [submit_button]]].

(** The same button one iframe deep. *)
Definition framed_world : World :=
  world_of [element "div" [] "Page"; iframe [submit_button]].



(** An input whose id is email. *)
Definition email_input : Element := element "input" [("id", "email")] EmptyString.

Definition email_world : World := world_of [email_input].

(** A button whose id, and nothing else, names it. *)
Definition save_button : Element := element "button" [("id", "save-btn")] "OK".

Definition save_world : World := world_of [save_button].

(** An input inside an iframe that is not rendered, hidden and disabled. *)
Definition hidden_input : Element :=
  hidden_element "input" [("placeholder", "Email")] EmptyString.

Definition hidden_frame_world : World := world_of [iframe [hidden_input]].

(** A popup whose only button is not rendered and hidden. *)
Definition hidden_button : Element := hidden_element "button" [] "Delete".

Definition hidden_popup_world : World :=
  mkWorld (Some (open_page [])) [Some (open_page [hidden_button])] [].



(** A page where nothing is called Nonexistent Field: a framed form and
    an open popup. *)
Definition quiet_world : World :=
  mkWorld
    (Some (open_page [element "a" [("title", "Home")] "Start";
                      iframe [element "button" [] "Cancel";
                              element "input" [("name", "q")] EmptyString]]))
    [Some (open_page [element "button" [("aria-label", "Close")] "x"])]
    [].

(** A main page that has been closed. *)
Definition closed_world : World :=
  mkWorld (Some (mkPage true [submit_button])) [] [].

(** An input labelled in title case, and a world whose first evaluation
    will reject. *)
Definition function_id_input : Element :=
  element "input" [("placeholder", "Function Id")] EmptyString.

Definition failing_world : World :=
  mkWorld (Some (open_page [submit_button])) [] [true].

End Samples.
Import Samples.


(* ================================================================== *)
(** ** What a search without failures does, as a function of the pages *)
(* ================================================================== *)

Module Resolve.

(** The three components of the run of a script in a document. *)
Definition script_hits (s : Script) (doc : Document) : bool :=
  fst (fst (run_script s doc)).

Definition script_document (s : Script) (doc : Document) : Document :=
  snd (fst (run_script s doc)).

Definition script_actions (s : Script) (doc : Document) : list DomEvent :=
  snd (run_script s doc).

(** The first entry of [allPages], among the [remaining] entries from
    [k] on, that is an open page in which the script finds a candidate. *)
Fixpoint first_popup (s : Script) (w : World) (k remaining : nat) : option nat :=
  match remaining with
  | O => None
  | S remaining' =>
      match page_of (Popup k) w with
      | Some pg =>
          if negb (isClosed pg) && script_hits s (document pg) then Some k
          else first_popup s w (S k) remaining'
      | None => first_popup s w (S k) remaining'
      end
  end.

(** The page and the script a search settles on: the main document
    first, then its iframes, then the popups in the order of the list. *)
Definition resolve (c : Pass) (w : World) : option (PageId * Script) :=
  match state_page w with
  | None => None
  | Some pg =>
      if isClosed pg then None
      else if script_hits (main_script c) (document pg)
           then Some (MainPage, main_script c)
      else if script_hits (iframe_script c) (document pg)
           then Some (MainPage, iframe_script c)
      else match first_popup (popup_script c) w 0 (length (allPages w)) with
           | Some k => Some (Popup k, popup_script c)
           | None => None
           end
  end.

(** The world after script [s] has run in page [p]. *)
Definition applied (p : PageId) (s : Script) (w : World) : World :=
  match page_of p w with
  | Some pg => put_document p (script_document s (document pg)) w
  | None => w
  end.

Definition resolved_world (c : Pass) (w : World) : World :=
  match resolve c w with
  | Some (p, s) => applied p s w
  | None => w
  end.

(** The actions of script [s] run in page [p]. *)
Definition applied_actions (p : PageId) (s : Script) (w : World)
  : list (PageId * DomEvent) :=
  match page_of p w with
  | Some pg => map (pair p) (script_actions s (document pg))
  | None => []
  end.

Definition resolved_actions (c : Pass) (w : World) : list (PageId * DomEvent) :=
  match resolve c w with
  | Some (p, s) => applied_actions p s w
  | None => []
  end.

(** A run ended normally with [a], in a world with the pages of [w'] and
    no failure pending, after the actions [acts]. *)
Definition runs_to {A : Type} (r : Run A) (a : A) (w' : World)
  (acts : list (PageId * DomEvent)) : Prop :=
  outcome r = Returned a /\ same_pages w' (final r) /\ no_faults (final r)
  /\ actions (emitted r) = acts.

Definition is_some {A : Type} (x : option A) : bool :=
  match x with
  | Some _ => true
  | None => false
  end.

(** An element with [value] erased, in it and in every document it
    frames; a page and the pages of a world likewise.  Two worlds with the
    same erasure differ at most in the values of their elements. *)
Fixpoint erase_values (el : Element) : Element :=
  let 'mkElement t a x w h d vis dis _ o c := el in
  mkElement t a x w h d vis dis EmptyString o
    match c with
    | SameOrigin doc => SameOrigin (map erase_values doc)
    | NoDocument => NoDocument
    | CrossOrigin => CrossOrigin
    end.

Definition erase_page (pg : Page) : Page :=
  mkPage (isClosed pg) (map erase_values (document pg)).

Definition erased (w : World) : option Page * list (option Page) :=
  (option_map erase_page (state_page w),
   map (option_map erase_page) (allPages w)).




(** Whether [p] is a page object that is not closed. *)
Definition open_at (p : PageId) (w : World) : bool :=
  match page_of p w with
  | Some pg => negb (isClosed pg)
  | None => false
  end.

(** From the world [w], the computation [m] ends in a world related to
    [w] by [R] and emits only events that [P] admits for [w]. *)
Definition keeps {A : Type} (R : World -> World -> Prop)
  (P : World -> Event -> Prop) (m : M A) (w : World) : Prop :=
  R w (final (m w)) /\ Forall (P w) (emitted (m w)).

(** Every page object is as open or closed in [w'] as it is in [w]. *)
Definition same_openness (w w' : World) : Prop :=
  forall p, open_at p w' = open_at p w.

Definition is_click_script (s : Script) : bool :=
  match s with
  | ClickMain _ | ClickIframes _ | ClickPopup _ => true
  | _ => false
  end.

(** A scan or an action that goes to a popup goes to one that is open
    in [w]. *)
Definition on_open_popup (w : World) (ev : Event) : Prop :=
  match ev with
  | Evaluated (Popup k) _ => open_at (Popup k) w = true
  | Dom (Popup k) _ => open_at (Popup k) w = true
  | _ => True
  end.

(** An action of a click search in the main page is on an element with
    a box, which is also shown when it is in the main document itself. *)
Definition main_click_filtered (ev : Event) : Prop :=
  match ev with
  | Dom MainPage a =>
      has_box (ev_elem a) = true
      /\ (ev_frame a = None -> style_shown (ev_elem a) = true)
  | _ => True
  end.

(** An action of a fill search in the main document itself is on an
    element with a box that is shown and enabled. *)
Definition main_fill_filtered (ev : Event) : Prop :=
  match ev with
  | Dom MainPage a =>
      ev_frame a = None ->
      has_box (ev_elem a) = true /\ style_shown (ev_elem a) = true
      /\ disabled (ev_elem a) = false
  | _ => True
  end.






(** Two node handles at the same position, on elements that differ at
    most in values. *)
Definition same_node (r1 r2 : NodeRef) : Prop :=
  fst r1 = fst r2 /\ erase_values (snd r1) = erase_values (snd r2).

(** An action with the value of its element erased; an action of a run
    likewise. *)
Definition erase_action (a : DomEvent) : DomEvent :=
  mkDomEvent (ev_frame a) (ev_node a) (erase_values (ev_elem a)) (ev_action a).

Definition erase_page_action (a : PageId * DomEvent) : PageId * DomEvent :=
  (fst a, erase_action (snd a)).




(** All the actions are on one node of one document. *)
Definition on_one_node (acts : list (PageId * DomEvent)) : Prop :=
  exists p f i el,
    Forall (fun a => fst a = p /\ ev_frame (snd a) = f
                     /\ ev_node (snd a) = i /\ ev_elem (snd a) = el) acts.

(** What is observed of a run once log lines and the record of the scans
    sent are left out: result, final world, actions on elements. *)
Definition effect {A : Type} (r : Run A) : Outcome A * World * list (PageId * DomEvent) :=
  (outcome r, final r, actions (emitted r)).

End Resolve.
Import Resolve.

(* ================================================================== *)
(** ** More sample pages *)
(* ================================================================== *)

Module MoreSamples.

(** A hidden Save button before two visible ones. *)
Definition save_buttons : Document :=
  [hidden_element "button" [] "Save";
   element "button" [] "Save as";
   element "button" [] "Save"].

Definition save_buttons_world : World := world_of save_buttons.

(** The page of [email_world] with something already typed. *)
Definition typed_email_world : World :=
  world_of [set_value "old@b.c" email_input].

(** A world in which the first call to the browser settles and the
    second rejects. *)
Definition late_failure_world : World :=
  mkWorld (Some (open_page [submit_button])) [] [false; true].


(** Two open popups with a Close button each.  The fourth awaited call,
    the pause after the click in the first popup, fails: the click has
    closed that popup. *)
Definition closing_popups_world : World :=
  mkWorld (Some (open_page []))
          [Some (open_page [element "button" [] "Close"]);
           Some (open_page [element "button" [] "Close"])]
          [false; false; false; true].







End MoreSamples.
Import MoreSamples.

(* ================================================================== *)
(** ** Facts about strings *)
(* ================================================================== *)

Section StringFacts.












End StringFacts.

(* ================================================================== *)
(** ** Facts about the scans *)
(* ================================================================== *)

Section ScanFacts.

Variables sel cond settles : Element -> bool.

Lemma indexed_from_In (doc : Document) (n i : nat) (el : Element) :
  In (i, el) (indexed_from n doc) -> In el doc.
Proof.
  revert n; induction doc as [|x doc IH]; simpl; intros n H; [exact H|].
  destruct H as [H | H]; [left; congruence | right; eauto].
Qed.

Lemma In_indexed_from (doc : Document) (n : nat) (el : Element) :
  In el doc -> exists i, In (i, el) (indexed_from n doc).
Proof.
  revert n; induction doc as [|x doc IH]; simpl; intros n H; [contradiction|].
  destruct H as [-> | H].
  - exists n; now left.
  - destruct (IH (S n) H) as [i Hi]. exists i; now right.
Qed.

Lemma querySelectorAll_In (doc : Document) (r : NodeRef) :
  In r (querySelectorAll sel doc) -> In (snd r) doc /\ sel (snd r) = true.
Proof.
  unfold querySelectorAll. rewrite filter_In. intros [H Hs]; split; [|exact Hs].
  destruct r as [i el]. eapply indexed_from_In; exact H.
Qed.

Lemma In_querySelectorAll (doc : Document) (el : Element) :
  In el doc -> sel el = true -> exists i, In (i, el) (querySelectorAll sel doc).
Proof.
  intros H Hs. destruct (In_indexed_from doc 0 el H) as [i Hi].
  exists i. unfold querySelectorAll. rewrite filter_In. now split.
Qed.

(** The element a loop stops at is in the document, is selected and
    passes the condition of the loop. *)
Lemma first_candidate_Some (doc : Document) (r : NodeRef) :
  first_candidate sel cond doc = Some r ->
  In r (querySelectorAll sel doc) /\ In (snd r) doc
  /\ sel (snd r) = true /\ cond (snd r) = true.
Proof.
  unfold first_candidate. intros H. apply find_some in H as [Hin Hc].
  destruct (querySelectorAll_In doc r Hin) as [Hd Hs]. now repeat split.
Qed.

(** A selected element that passes the condition makes the loop stop. *)
Lemma first_candidate_exists (doc : Document) (el : Element) :
  In el doc -> sel el = true -> cond el = true ->
  exists r, first_candidate sel cond doc = Some r.
Proof.
  intros H Hs Hc. unfold first_candidate.
  destruct (find _ _) as [r|] eqn:E; [now exists r|].
  destruct (In_querySelectorAll doc el H Hs) as [i Hi].
  pose proof (find_none _ _ E _ Hi) as Hn. simpl in Hn. congruence.
Qed.

Lemma first_candidate_None (doc : Document) :
  (forall el, In el doc -> cond el = false) ->
  first_candidate sel cond doc = None.
Proof.
  intros H. destruct (first_candidate sel cond doc) as [r|] eqn:E; [|reflexivity].
  apply first_candidate_Some in E as (_ & Hin & _ & Hc).
  rewrite (H _ Hin) in Hc. discriminate.
Qed.

(** The loop over the iframes stops at the first candidate of a framed
    document, on which the statements complete. *)
Lemma scan_iframes_first (iframes : list NodeRef) (j : nat) (r : NodeRef) :
  scan_iframes sel cond settles iframes = Some (j, r) ->
  exists iframe iframeDoc,
    In (j, iframe) iframes /\ content iframe = SameOrigin iframeDoc
    /\ first_candidate sel cond iframeDoc = Some r /\ settles (snd r) = true.
Proof.
  induction iframes as [|[j' iframe] rest IH]; simpl; [discriminate|].
  intros H.
  destruct (content iframe) as [| | iframeDoc] eqn:Ec;
    try (destruct (IH H) as (f & d & Hin & Hrest); exists f, d; split;
         [now right | exact Hrest]).
  destruct (first_candidate sel cond iframeDoc) as [r'|] eqn:Ef.
  - destruct (settles (snd r')) eqn:Es.
    + injection H as <- <-.
      exists iframe, iframeDoc. split; [now left|]. now repeat split.
    + destruct (IH H) as (f & d & Hin & Hrest); exists f, d; split;
        [now right | exact Hrest].
  - destruct (IH H) as (f & d & Hin & Hrest); exists f, d; split;
      [now right | exact Hrest].
Qed.

Lemma scan_iframes_Some (iframes : list NodeRef) (j : nat) (r : NodeRef) :
  scan_iframes sel cond settles iframes = Some (j, r) ->
  exists iframe iframeDoc,
    In (j, iframe) iframes /\ content iframe = SameOrigin iframeDoc
    /\ In (snd r) iframeDoc /\ sel (snd r) = true /\ cond (snd r) = true.
Proof.
  intros H. apply scan_iframes_first in H as (f & d & Hin & Hc & Hf & _).
  apply first_candidate_Some in Hf as (_ & Hel & Hs & Hcond).
  exists f, d. now repeat split.
Qed.

Lemma scan_iframes_settles (iframes : list NodeRef) (j : nat) (r : NodeRef) :
  scan_iframes sel cond settles iframes = Some (j, r) -> settles (snd r) = true.
Proof.
  intros H. now apply scan_iframes_first in H as (f & d & _ & _ & _ & Hs).
Qed.

(** A framed document whose first candidate lets the statements complete
    makes the loop stop, there or earlier. *)
Lemma scan_iframes_exists (iframes : list NodeRef) (j : nat)
  (iframe : Element) (iframeDoc : Document) (r : NodeRef) :
  In (j, iframe) iframes -> content iframe = SameOrigin iframeDoc ->
  first_candidate sel cond iframeDoc = Some r -> settles (snd r) = true ->
  exists hit, scan_iframes sel cond settles iframes = Some hit.
Proof.
  intros Hin Hc Hf Hs.
  induction iframes as [|[j' iframe'] rest IH]; simpl; [contradiction|].
  destruct Hin as [Heq | Hin].
  - injection Heq as -> ->. rewrite Hc, Hf, Hs. now exists (j, r).
  - destruct (content iframe') as [| | d]; auto.
    destruct (first_candidate sel cond d) as [r'|]; [|auto].
    destruct (settles (snd r')); [now exists (j', r') | auto].
Qed.

Lemma scan_iframes_None (iframes : list NodeRef) :
  (forall j iframe iframeDoc el,
      In (j, iframe) iframes -> content iframe = SameOrigin iframeDoc ->
      In el iframeDoc -> cond el = false) ->
  scan_iframes sel cond settles iframes = None.
Proof.
  intros H. destruct (scan_iframes sel cond settles iframes) as [[j r]|] eqn:E;
    [|reflexivity].
  apply scan_iframes_Some in E as (f & d & Hin & Hc & Hel & _ & Hcond).
  rewrite (H _ _ _ _ Hin Hc Hel) in Hcond. discriminate.
Qed.

End ScanFacts.

(* ================================================================== *)
(** ** Facts about runs *)
(* ================================================================== *)

Section RunFacts.

Lemma same_pages_refl (w : World) : same_pages w w.
Proof. now split. Qed.

Lemma same_pages_trans (w1 w2 w3 : World) :
  same_pages w1 w2 -> same_pages w2 w3 -> same_pages w1 w3.
Proof. intros [H1 H2] [H3 H4]; split; congruence. Qed.

Lemma same_pages_page_of (w w' : World) (p : PageId) :
  same_pages w w' -> page_of p w' = page_of p w.
Proof. intros [H1 H2]. destruct p; simpl; now rewrite ?H1, ?H2. Qed.

Lemma update_at_same {A : Type} (f : A -> A) (l : list A) (k : nat) :
  (forall x, nth_error l k = Some x -> f x = x) -> update_at k f l = l.
Proof.
  revert k; induction l as [|x l IH]; intros [|k] H; simpl; try reflexivity.
  - now rewrite (H x eq_refl).
  - now rewrite (IH k H).
Qed.

(** Writing back the document a page already has changes nothing. *)
Lemma put_document_same (p : PageId) (w : World) (pg : Page) :
  page_of p w = Some pg -> put_document p (document pg) w = w.
Proof.
  destruct w as [sp ap fs]; destruct p as [|k]; simpl; intros H.
  - subst sp. now destruct pg.
  - f_equal. apply update_at_same. intros x Hx. rewrite Hx in H. subst x.
    now destruct pg.
Qed.

Lemma put_document_faults (p : PageId) (doc : Document) (w : World) :
  faults (put_document p doc w) = faults w.
Proof. now destruct p. Qed.

(** A script that returns [false] has neither mutated the document nor
    acted on an element. *)
Lemma run_script_false (s : Script) (doc doc' : Document) (acts : list DomEvent) :
  run_script s doc = (false, doc', acts) -> doc' = doc /\ acts = [].
Proof.
  destruct s; simpl;
    repeat match goal with
           | |- context [match ?x with _ => _ end] => destruct x
           end;
    intros H; inversion H; now split.
Qed.

(** The two ways an awaited browser call settles. *)
Lemma settle_inv (what : string) (w : World) :
  exists w1, same_pages w w1
    /\ (no_faults w -> no_faults w1)
    /\ (settle what w = mkRun (Returned tt) w1 []
        \/ (settle what w = mkRun (Thrown (mkError what)) w1 []
            /\ ~ no_faults w)).
Proof.
  unfold settle. destruct (faults w) as [|[] fs] eqn:E.
  - exists w. split; [apply same_pages_refl|]. split; [auto|now left].
  - exists (mkWorld (state_page w) (allPages w) fs).
    split; [now split|]. split.
    + intros Hn b Hb. apply Hn. rewrite E. now right.
    + right. split; [reflexivity|].
      intros Hn. specialize (Hn true). rewrite E in Hn.
      discriminate Hn. now left.
  - exists (mkWorld (state_page w) (allPages w) fs).
    split; [now split|]. split.
    + intros Hn b Hb. apply Hn. rewrite E. now right.
    + now left.
Qed.

(** The two ways [page.evaluate] ends: it rejects before anything
    happened in the page, or the script ran in the document of the
    page. *)
Lemma evaluate_inv (p : PageId) (s : Script) (w : World) :
  exists w1, same_pages w w1
    /\ (no_faults w -> no_faults w1)
    /\ ((exists e, evaluate p s w = mkRun (Thrown e) w1 [Evaluated p s]
                   /\ (no_faults w -> page_of p w = None))
        \/ (exists pg b doc' acts,
               page_of p w = Some pg
               /\ run_script s (document pg) = (b, doc', acts)
               /\ evaluate p s w =
                  mkRun (Returned b) (put_document p doc' w1)
                        (Evaluated p s :: map (Dom p) acts))).
Proof.
  destruct (settle_inv "page.evaluate: execution context was destroyed" w)
    as (w1 & Hsame & Hnf & [Hs | [Hs Hbad]]);
    exists w1; (split; [exact Hsame|]); (split; [exact Hnf|]).
  - unfold evaluate, bind, emit, gets. simpl. rewrite Hs. simpl.
    rewrite (same_pages_page_of w w1 p Hsame).
    destruct (page_of p w) as [pg|] eqn:Ep.
    + right. destruct (run_script s (document pg)) as [[b doc'] acts] eqn:Er.
      exists pg, b, doc', acts. repeat split; auto.
      unfold set_document, emit_all, ret, bind. simpl.
      now rewrite app_nil_r.
    + left. eexists. split; [reflexivity | auto].
  - left. eexists. unfold evaluate, bind, emit. simpl. rewrite Hs. simpl.
    split; [reflexivity | intros Hn; contradiction].
Qed.

(** An evaluation that finds nothing leaves the pages as they were. *)
Lemma evaluate_miss (p : PageId) (s : Script) (w : World) :
  (forall pg, page_of p w = Some pg ->
              fst (fst (run_script s (document pg))) = false) ->
  exists w1 o, same_pages w w1 /\ (no_faults w -> no_faults w1)
    /\ evaluate p s w = mkRun o w1 [Evaluated p s]
    /\ (o = Returned false \/ exists e, o = Thrown e).
Proof.
  intros H.
  destruct (evaluate_inv p s w)
    as (w1 & Hsame & Hnf & [(e & He & _) | (pg & b & doc' & acts & Hp & Hr & He)]).
  - exists w1, (Thrown e). repeat split; try apply Hsame; auto. right; now exists e.
  - specialize (H pg Hp). rewrite Hr in H. simpl in H. subst b.
    apply run_script_false in Hr as [-> ->].
    rewrite <- (same_pages_page_of w w1 p Hsame) in Hp.
    rewrite (put_document_same p w1 pg Hp) in He.
    exists w1, (Returned false). repeat split; try apply Hsame; auto.
Qed.

Lemma try_catch_outcome {A : Type} (m : M A) (h : JsError -> M A) (w : World) :
  outcome (try_catch m h w) =
  match outcome (m w) with
  | Returned a => Returned a
  | Thrown e => outcome (h e (final (m w)))
  end.
Proof.
  unfold try_catch. destruct (outcome (m w)) eqn:E; simpl; auto.
Qed.

End RunFacts.

(* ================================================================== *)
(** ** The two functions are instances of the shared shape *)
(* ================================================================== *)

Section ShapeFacts.

Lemma bind_ext {A B : Type} (m m' : M A) (k k' : A -> M B) (w : World) :
  (forall w0, m w0 = m' w0) -> (forall a w0, k a w0 = k' a w0) ->
  bind m k w = bind m' k' w.
Proof.
  intros Hm Hk. unfold bind. rewrite Hm.
  destruct (outcome (m' w)); [now rewrite Hk | reflexivity].
Qed.

Lemma try_catch_ext {A : Type} (m m' : M A) (h h' : JsError -> M A) (w : World) :
  (forall w0, m w0 = m' w0) -> (forall e w0, h e w0 = h' e w0) ->
  try_catch m h w = try_catch m' h' w.
Proof.
  intros Hm Hh. unfold try_catch. rewrite Hm.
  destruct (outcome (m' w)); [reflexivity | now rewrite Hh].
Qed.

Lemma click_popups_shape (target : string) (remaining k : nat) (w : World) :
  click_popups target k remaining w = sweep_popups (click_pass target) k remaining w.
Proof.
  revert k w; induction remaining as [|n IH]; intros k w; [reflexivity|].
  cbn [click_popups sweep_popups].
  apply bind_ext; [reflexivity|]. intros [|] w0; [reflexivity | apply IH].
Qed.

Lemma fill_popups_shape (target value : string) (remaining k : nat) (w : World) :
  fill_popups target value k remaining w
  = sweep_popups (fill_pass target value) k remaining w.
Proof.
  revert k w; induction remaining as [|n IH]; intros k w; [reflexivity|].
  cbn [fill_popups sweep_popups].
  apply bind_ext; [reflexivity|]. intros [|] w0; [reflexivity | apply IH].
Qed.

Lemma click_body_shape (target : string) (w : World) :
  click_body target w = sweep (click_pass target) w.
Proof.
  unfold click_body, sweep, after_main.
  apply bind_ext; [reflexivity|]. intros [|] w1; [reflexivity|].
  apply bind_ext; [reflexivity|]. intros [|] w2; [reflexivity|].
  apply bind_ext; [reflexivity|]. intros n w3.
  apply bind_ext; [apply click_popups_shape | reflexivity].
Qed.

Lemma fill_body_shape (target value : string) (w : World) :
  fill_body target value w = sweep (fill_pass target value) w.
Proof.
  unfold fill_body, sweep, after_main.
  apply bind_ext; [reflexivity|]. intros [|] w1; [reflexivity|].
  apply bind_ext; [reflexivity|]. intros [|] w2; [reflexivity|].
  apply bind_ext; [reflexivity|]. intros n w3.
  apply bind_ext; [apply fill_popups_shape | reflexivity].
Qed.

Lemma clickWithRetry_shape (target : string) (maxRetries : Z) (w : World) :
  clickWithRetry target maxRetries w = search (click_pass target) w.
Proof.
  unfold clickWithRetry, search.
  apply bind_ext; [reflexivity|]. intros [|] w1; [reflexivity|].
  apply bind_ext; [reflexivity|]. intros _ w2.
  apply try_catch_ext; [apply click_body_shape | reflexivity].
Qed.

Lemma fillWithRetry_shape (target value : string) (maxRetries : Z) (w : World) :
  fillWithRetry target value maxRetries w = search (fill_pass target value) w.
Proof.
  unfold fillWithRetry, search.
  apply bind_ext; [reflexivity|]. intros [|] w1; [reflexivity|].
  apply bind_ext; [reflexivity|]. intros _ w2.
  apply try_catch_ext; [apply fill_body_shape | reflexivity].
Qed.

Lemma search_unfold (c : Pass) (w : World) :
  search c w =
  if page_unavailable w then mkRun (Returned false) w []
  else
    let r := try_catch (sweep c) (on_error c) w in
    mkRun (outcome r) (final r) (Log (looking_for c) :: emitted r).
Proof.
  unfold search, bind, gets, log, emit, ret. simpl.
  now destruct (page_unavailable w).
Qed.



End ShapeFacts.

(* ================================================================== *)
(** ** What a search can emit *)
(* ================================================================== *)

Section EmitsOnly.

Variable P : Event -> Prop.

Lemma emits_only_ret {A : Type} (a : A) : emits_only P (ret a).
Proof. intros w; constructor. Qed.

Lemma emits_only_throw {A : Type} (e : JsError) : emits_only P (@throw A e).
Proof. intros w; constructor. Qed.

Lemma emits_only_gets {A : Type} (f : World -> A) : emits_only P (gets f).
Proof. intros w; constructor. Qed.

Lemma emits_only_log (msg : string) : P (Log msg) -> emits_only P (log msg).
Proof. intros H w; repeat constructor; exact H. Qed.

Lemma emits_only_bind {A B : Type} (m : M A) (k : A -> M B) :
  emits_only P m -> (forall a, emits_only P (k a)) -> emits_only P (bind m k).
Proof.
  intros Hm Hk w. unfold bind. specialize (Hm w).
  destruct (outcome (m w)); simpl; [|exact Hm].
  apply Forall_app; split; [exact Hm | apply Hk].
Qed.

Lemma emits_only_try_catch {A : Type} (m : M A) (h : JsError -> M A) :
  emits_only P m -> (forall e, emits_only P (h e)) ->
  emits_only P (try_catch m h).
Proof.
  intros Hm Hh w. unfold try_catch. specialize (Hm w).
  destruct (outcome (m w)); simpl; [exact Hm|].
  apply Forall_app; split; [exact Hm | apply Hh].
Qed.

Lemma emits_only_wait (p : PageId) (ms : Z) :
  P (Waited p ms) -> emits_only P (waitForTimeout p ms).
Proof.
  intros H w. unfold waitForTimeout, bind, emit, settle. simpl.
  destruct (faults w) as [|[] fs]; simpl; repeat constructor; exact H.
Qed.

(** The actions of a script are on elements of the list it runs over
    that pass the condition of its loop. *)
Lemma run_script_acts (s : Script) (doc doc' : Document) (b : bool)
  (acts : list DomEvent) :
  run_script s doc = (b, doc', acts) -> Forall (script_action_ok s) acts.
Proof.
  unfold script_action_ok.
  destruct s; simpl;
    repeat match goal with
      | |- context [match first_candidate ?s ?c ?d with _ => _ end] =>
          let E := fresh "E" in
          destruct (first_candidate s c d) as [?r|] eqn:E;
          [apply first_candidate_Some in E as (_ & _ & ? & ?)|]
      | |- context [match scan_iframes ?s ?c ?t ?d with _ => _ end] =>
          let E := fresh "E" in
          destruct (scan_iframes s c t d) as [[?j ?r]|] eqn:E;
          [apply scan_iframes_Some in E as (? & ? & _ & _ & _ & ? & ?)|]
      end;
    intros Hrun; inversion Hrun; subst; repeat constructor; simpl; auto;
    apply String.eqb_refl.
Qed.

Lemma emits_only_evaluate (p : PageId) (s : Script) :
  P (Evaluated p s) ->
  (forall a, script_action_ok s a -> P (Dom p a)) ->
  emits_only P (evaluate p s).
Proof.
  intros He Ha w.
  destruct (evaluate_inv p s w)
    as (w1 & _ & _ & [(e & -> & _) | (pg & b & doc' & acts & _ & Hr & ->)]);
    simpl; constructor; auto.
  apply run_script_acts in Hr. apply Forall_map.
  eapply Forall_impl; [|exact Hr]. exact Ha.
Qed.

(** The events of a whole search, given what [P] admits. *)
Variable c : Pass.
Hypothesis P_log : forall msg, P (Log msg).
Hypothesis P_wait : forall p ms, P (Waited p ms).
Hypothesis P_iframes : P (Evaluated MainPage (iframe_script c)).
Hypothesis P_popups : forall k, P (Evaluated (Popup k) (popup_script c)).
Hypothesis P_iframes_dom :
  forall a, script_action_ok (iframe_script c) a -> P (Dom MainPage a).
Hypothesis P_popups_dom :
  forall k a, script_action_ok (popup_script c) a -> P (Dom (Popup k) a).

Lemma sweep_popup_emits (k : nat) : emits_only P (sweep_popup c k).
Proof.
  unfold sweep_popup.
  apply emits_only_bind; [apply emits_only_gets|]. intros [pg|];
    [|apply emits_only_ret].
  destruct (negb (isClosed pg)); [|apply emits_only_ret].
  apply emits_only_try_catch; [|intros; apply emits_only_ret].
  apply emits_only_bind; [apply emits_only_evaluate; auto|].
  intros [|]; [|apply emits_only_ret].
  apply emits_only_bind; [apply emits_only_log; auto|]. intros _.
  apply emits_only_bind; [apply emits_only_wait; auto|]. intros _.
  apply emits_only_ret.
Qed.

Lemma sweep_popups_emits (remaining k : nat) :
  emits_only P (sweep_popups c k remaining).
Proof.
  revert k; induction remaining as [|n IH]; intros k; simpl;
    [apply emits_only_ret|].
  apply emits_only_bind; [apply sweep_popup_emits|].
  intros [|]; [apply emits_only_ret | apply IH].
Qed.

Lemma after_main_emits (hit : bool) : emits_only P (after_main c hit).
Proof.
  unfold after_main. destruct hit.
  - apply emits_only_bind; [apply emits_only_log; auto|]. intros _.
    apply emits_only_bind; [apply emits_only_wait; auto|]. intros _.
    apply emits_only_ret.
  - apply emits_only_bind; [apply emits_only_evaluate; auto|]. intros [|].
    + apply emits_only_bind; [apply emits_only_log; auto|]. intros _.
      apply emits_only_bind; [apply emits_only_wait; auto|]. intros _.
      apply emits_only_ret.
    + apply emits_only_bind; [apply emits_only_gets|]. intros n.
      apply emits_only_bind; [apply sweep_popups_emits|]. intros [|];
        [apply emits_only_ret|].
      apply emits_only_bind; [apply emits_only_log; auto|]. intros _.
      apply emits_only_ret.
Qed.

Hypothesis P_main : P (Evaluated MainPage (main_script c)).
Hypothesis P_main_dom :
  forall a, script_action_ok (main_script c) a -> P (Dom MainPage a).

Lemma search_emits : emits_only P (search c).
Proof.
  unfold search.
  apply emits_only_bind; [apply emits_only_gets|]. intros [|];
    [apply emits_only_ret|].
  apply emits_only_bind; [apply emits_only_log; auto|]. intros _.
  apply emits_only_try_catch.
  - unfold sweep. apply emits_only_bind; [apply emits_only_evaluate; auto|].
    apply after_main_emits.
  - intros e. unfold on_error.
    apply emits_only_bind; [apply emits_only_log; auto|]. intros _.
    apply emits_only_ret.
Qed.

End EmitsOnly.

(* ================================================================== *)
(** ** The actions of a search *)
(* ================================================================== *)

Section ActionFacts.

Lemma actions_Forall (P : Event -> Prop) (Q : PageId * DomEvent -> Prop)
  (evs : list Event) :
  (forall p a, P (Dom p a) -> Q (p, a)) ->
  Forall P evs -> Forall Q (actions evs).
Proof.
  intros HPQ H. induction H as [|ev evs Hev _ IH]; simpl; [constructor|].
  destruct ev; auto.
Qed.

Lemma click_script_ok (target : string) (s : Script) (a : DomEvent) :
  In s [ClickMain target; ClickIframes target; ClickPopup target] ->
  script_action_ok s a -> click_event_ok target (Dom MainPage a).
Proof.
  unfold script_action_ok, click_event_ok, click_action.
  intros Hin (Hs & Hc & Ha).
  assert (Hm : click_matches (toLowerCase target) (ev_elem a) = true).
  { destruct Hin as [<- | [<- | [<- | []]]]; simpl in Hc.
    - unfold click_main_cond in Hc. now apply andb_prop in Hc.
    - unfold click_iframe_cond in Hc. now apply andb_prop in Hc.
    - unfold click_popup_cond, click_matches_popup in Hc.
      unfold click_matches. now rewrite Hc. }
  destruct Hin as [<- | [<- | [<- | []]]]; simpl in Hs, Ha;
    (split; [exact Hs|]); (split; [exact Hm|]);
    destruct (ev_action a); try discriminate; auto.
Qed.

Lemma fill_script_ok (target value : string) (s : Script) (a : DomEvent) :
  In s [FillMain target value; FillIframes target value; FillPopup target value] ->
  script_action_ok s a -> fill_event_ok target value (Dom MainPage a).
Proof.
  unfold script_action_ok, fill_event_ok, plain_fill_action.
  assert (Hact : forall x, match x with
                           | ScrollIntoView => true
                           | Click => false
                           | SetValue v => String.eqb v value
                           | DispatchEvent name =>
                               String.eqb name "input" || String.eqb name "change"
                           end = true ->
                           x = ScrollIntoView \/ x = SetValue value
                           \/ x = DispatchEvent "input"
                           \/ x = DispatchEvent "change").
  { intros [| |v|name] H; try discriminate; auto.
    - apply String.eqb_eq in H. subst; auto.
    - apply orb_prop in H as [H | H]; apply String.eqb_eq in H; subst; auto. }
  intros Hin (Hs & Hc & Ha).
  assert (Hm : fill_matches (toLowerCase target) (ev_elem a) = true).
  { destruct Hin as [<- | [<- | [<- | []]]]; simpl in Hc.
    - unfold fill_main_cond in Hc. now apply andb_prop in Hc.
    - exact Hc.
    - unfold fill_popup_cond, fill_matches_popup in Hc.
      unfold fill_matches. now rewrite Hc. }
  destruct Hin as [<- | [<- | [<- | []]]]; simpl in Hs, Ha;
    (split; [exact Hs|]); (split; [exact Hm|]); now apply Hact.
Qed.

(** Everything a click search does to the pages. *)
Lemma click_events (target : string) (maxRetries : Z) (w : World) :
  Forall (click_event_ok target) (emitted (clickWithRetry target maxRetries w)).
Proof.
  rewrite clickWithRetry_shape.
  apply search_emits; try exact (fun _ => I); try exact (fun _ _ => I);
    try exact I; simpl; intros; eapply click_script_ok; eauto; simpl; auto.
Qed.

(** Everything a fill search does to the pages. *)
Lemma fill_events (target value : string) (maxRetries : Z) (w : World) :
  Forall (fill_event_ok target value)
         (emitted (fillWithRetry target value maxRetries w)).
Proof.
  rewrite fillWithRetry_shape.
  apply search_emits; try exact (fun _ => I); try exact (fun _ _ => I);
    try exact I; simpl; intros; eapply fill_script_ok; eauto; simpl; auto.
Qed.


End ActionFacts.

(* ================================================================== *)
(** ** Counting scans; searches that find nothing; searches that find *)
(* ================================================================== *)

Arguments evaluate : simpl never.
Arguments waitForTimeout : simpl never.
Arguments settle : simpl never.

Section SweepFacts.

Lemma count_app (f : Event -> bool) (l1 l2 : list Event) :
  count f (l1 ++ l2) = count f l1 + count f l2.
Proof. unfold count. now rewrite filter_app, length_app. Qed.

Lemma count_cons (f : Event -> bool) (ev : Event) (l : list Event) :
  count f (ev :: l) = (if f ev then 1 else 0) + count f l.
Proof. unfold count. simpl. now destruct (f ev). Qed.

Lemma count_none (f : Event -> bool) (evs : list Event) :
  Forall (fun ev => f ev = false) evs -> count f evs = 0.
Proof.
  unfold count. induction 1 as [|ev evs Hev _ IH]; simpl; [reflexivity|].
  now rewrite Hev.
Qed.

Lemma count_dom (f : Event -> bool) (p : PageId) (acts : list DomEvent) :
  (forall a, f (Dom p a) = false) -> count f (map (Dom p) acts) = 0.
Proof.
  intros H. apply count_none. apply Forall_map. now apply Forall_forall.
Qed.

Lemma wait_ok (p : PageId) (ms : Z) (w : World) :
  no_faults w ->
  exists w1, same_pages w w1 /\ no_faults w1
             /\ waitForTimeout p ms w = mkRun (Returned tt) w1 [Waited p ms].
Proof.
  intros Hn. unfold waitForTimeout, bind, emit. simpl.
  destruct (settle_inv "waitForTimeout: target closed" w)
    as (w1 & Hsame & Hnf & [Hs | [_ Hbad]]); [|contradiction].
  exists w1. rewrite Hs. simpl. auto.
Qed.

Variable c : Pass.

(** *** The chain is started once *)

Hypothesis main_starts : is_chain_start (Evaluated MainPage (main_script c)) = true.
Hypothesis iframes_follow :
  is_chain_start (Evaluated MainPage (iframe_script c)) = false.

Lemma sweep_chain_start (w : World) :
  count is_chain_start (emitted (sweep c w)) = 1.
Proof.
  unfold sweep, bind.
  destruct (evaluate_inv MainPage (main_script c) w)
    as (w1 & _ & _ & [(e & -> & _) | (pg & b & doc' & acts & _ & _ & ->)]);
    cbn [outcome emitted final app].
  - now rewrite count_cons, main_starts.
  - rewrite count_cons, main_starts, count_app, count_dom by reflexivity.
    rewrite (count_none is_chain_start (emitted (after_main c b _)));
      [reflexivity|].
    apply after_main_emits; auto.
Qed.

Lemma search_chain_attempts (w : World) :
  chain_attempts (search c w) = if page_unavailable w then 0 else 1.
Proof.
  unfold chain_attempts. rewrite search_unfold.
  destruct (page_unavailable w); [reflexivity|].
  cbn [emitted]. rewrite count_cons. cbn [is_chain_start]. unfold try_catch.
  pose proof (sweep_chain_start w) as H.
  destruct (outcome (sweep c w)); cbn [emitted]; [exact H|].
  rewrite count_app, H. reflexivity.
Qed.

End SweepFacts.

Section MissAndHit.

Variable c : Pass.

(** *** A search that finds nothing *)

Lemma sweep_popup_miss (k : nat) (w : World) :
  (forall pg, page_of (Popup k) w = Some pg -> isClosed pg = false ->
              misses (popup_script c) (document pg)) ->
  outcome (sweep_popup c k w) = Returned false
  /\ same_pages w (final (sweep_popup c k w))
  /\ count is_scan (emitted (sweep_popup c k w)) <= 1.
Proof.
  intros H. unfold sweep_popup, bind, gets. cbn [outcome final emitted app].
  destruct (page_of (Popup k) w) as [pg|] eqn:Ep;
    [|repeat split; auto using same_pages_refl].
  destruct (isClosed pg) eqn:Ec; cbn [negb];
    [repeat split; auto using same_pages_refl|].
  destruct (evaluate_miss (Popup k) (popup_script c) w)
    as (w1 & o & Hsame & _ & He & Ho).
  { intros pg' Hpg'. rewrite Ep in Hpg'. injection Hpg' as <-. now apply H. }
  unfold try_catch. rewrite He. cbn [outcome final emitted].
  destruct Ho as [-> | [e ->]]; cbn [outcome final emitted app ret];
    repeat split; auto; apply Hsame.
Qed.

Lemma sweep_popups_miss (remaining k : nat) (w : World) :
  (forall j pg, page_of (Popup j) w = Some pg -> isClosed pg = false ->
                misses (popup_script c) (document pg)) ->
  outcome (sweep_popups c k remaining w) = Returned false
  /\ same_pages w (final (sweep_popups c k remaining w))
  /\ count is_scan (emitted (sweep_popups c k remaining w)) <= remaining.
Proof.
  revert k w; induction remaining as [|n IH]; intros k w H.
  - repeat split; auto using same_pages_refl.
  - cbn [sweep_popups]. unfold bind.
    destruct (sweep_popup_miss k w (H k)) as (Ho & Hsame & Hc).
    rewrite Ho. cbn [outcome final emitted].
    destruct (IH (S k) (final (sweep_popup c k w))) as (Ho' & Hsame' & Hc').
    { intros j pg Hp. rewrite (same_pages_page_of _ _ _ Hsame) in Hp.
      now apply (H j). }
    split; [exact Ho'|]. split; [eapply same_pages_trans; eauto|].
    rewrite count_app. lia.
Qed.

Lemma after_main_miss (w : World) :
  (forall pg, page_of MainPage w = Some pg ->
              misses (iframe_script c) (document pg)) ->
  (forall j pg, page_of (Popup j) w = Some pg -> isClosed pg = false ->
                misses (popup_script c) (document pg)) ->
  (outcome (after_main c false w) = Returned false
   \/ exists e, outcome (after_main c false w) = Thrown e)
  /\ count is_scan (emitted (after_main c false w)) <= 1 + length (allPages w).
Proof.
  intros Hi Hp. unfold after_main, bind.
  destruct (evaluate_miss MainPage (iframe_script c) w Hi)
    as (w1 & o & Hsame & _ & He & Ho).
  rewrite He. cbn [outcome final emitted].
  destruct Ho as [-> | [e ->]]; [|split; [right; now exists e | cbn; lia]].
  unfold gets. cbn [outcome final emitted app].
  destruct (sweep_popups_miss (length (allPages w1)) 0 w1) as (Ho & _ & Hc).
  { intros j pg Hpg. rewrite (same_pages_page_of _ _ _ Hsame) in Hpg.
    now apply (Hp j). }
  rewrite Ho. cbn [outcome final emitted app log emit ret].
  split; [now left|].
  rewrite count_cons, count_app, count_cons. cbn [is_scan count filter length].
  destruct Hsame as [_ Hall]. rewrite <- Hall. lia.
Qed.

Lemma sweep_miss (w : World) :
  (forall pg, page_of MainPage w = Some pg ->
              misses (main_script c) (document pg)
              /\ misses (iframe_script c) (document pg)) ->
  (forall j pg, page_of (Popup j) w = Some pg -> isClosed pg = false ->
                misses (popup_script c) (document pg)) ->
  (outcome (sweep c w) = Returned false
   \/ exists e, outcome (sweep c w) = Thrown e)
  /\ count is_scan (emitted (sweep c w)) <= 2 + length (allPages w).
Proof.
  intros Hm Hp. unfold sweep, bind.
  destruct (evaluate_miss MainPage (main_script c) w)
    as (w1 & o & Hsame & _ & He & Ho); [intros pg Hpg; now apply Hm|].
  rewrite He. cbn [outcome final emitted].
  destruct Ho as [-> | [e ->]]; [|split; [right; now exists e | cbn; lia]].
  cbn [outcome final emitted app].
  destruct (after_main_miss w1) as (Ho & Hc).
  { intros pg Hpg. rewrite (same_pages_page_of _ _ _ Hsame) in Hpg.
    now apply Hm. }
  { intros j pg Hpg. rewrite (same_pages_page_of _ _ _ Hsame) in Hpg.
    now apply (Hp j). }
  split; [exact Ho|].
  rewrite count_cons. cbn [is_scan].
  destruct Hsame as [_ Hall]. rewrite <- Hall. lia.
Qed.

Lemma search_miss (w : World) :
  (forall pg, page_of MainPage w = Some pg -> isClosed pg = false ->
              misses (main_script c) (document pg)
              /\ misses (iframe_script c) (document pg)) ->
  (forall j pg, page_of (Popup j) w = Some pg -> isClosed pg = false ->
                misses (popup_script c) (document pg)) ->
  outcome (search c w) = Returned false
  /\ scans (search c w) <= 2 + length (allPages w).
Proof.
  intros Hm Hp. unfold scans. rewrite search_unfold.
  destruct (page_unavailable w) eqn:Eu; [split; [reflexivity | cbn; lia]|].
  destruct (sweep_miss w) as (Ho & Hc); [|exact Hp|].
  { intros pg Hpg. apply Hm; [exact Hpg|].
    unfold page_unavailable in Eu. simpl in Hpg. now rewrite Hpg in Eu. }
  cbn [outcome emitted]. rewrite try_catch_outcome, count_cons.
  cbn [is_scan]. unfold try_catch.
  destruct Ho as [Ho | [e Ho]]; rewrite Ho; cbn [emitted];
    [split; [reflexivity | lia]|].
  split; [reflexivity|]. rewrite count_app. cbn. lia.
Qed.

(** *** A search that finds *)

Lemma found_returns_true (msg : string) (w : World) :
  no_faults w ->
  outcome (bind (log msg)
             (fun _ => bind (waitForTimeout MainPage (pause c))
                            (fun _ => ret true)) w) = Returned true.
Proof.
  intros Hn. unfold bind, log, emit. cbn [outcome final emitted].
  destruct (wait_ok MainPage (pause c) w Hn) as (w1 & _ & _ & ->).
  reflexivity.
Qed.

Lemma sweep_hit (w : World) (pg : Page) :
  no_faults w -> page_of MainPage w = Some pg ->
  hits (main_script c) (document pg) \/ hits (iframe_script c) (document pg) ->
  outcome (sweep c w) = Returned true.
Proof.
  intros Hn Hpg Hhit. unfold sweep, bind.
  destruct (evaluate_inv MainPage (main_script c) w)
    as (w1 & Hsame & Hnf & [(e & _ & Hnone) | (pg' & b & doc' & acts & Hp & Hr & ->)]).
  { rewrite (Hnone Hn) in Hpg. discriminate. }
  rewrite Hpg in Hp. injection Hp as <-. specialize (Hnf Hn).
  cbn [outcome final emitted].
  assert (Hn' : no_faults (put_document MainPage doc' w1)).
  { unfold no_faults. now rewrite put_document_faults. }
  destruct b.
  - unfold after_main. now apply found_returns_true.
  - apply run_script_false in Hr as Hsame'. destruct Hsame' as [-> _].
    destruct Hhit as [Hhit | Hhit];
      [unfold hits in Hhit; rewrite Hr in Hhit; discriminate|].
    rewrite <- (same_pages_page_of w w1 MainPage Hsame) in Hpg.
    rewrite (put_document_same MainPage w1 pg Hpg).
    unfold after_main, bind at 1.
    destruct (evaluate_inv MainPage (iframe_script c) w1)
      as (w2 & _ & Hnf2 & [(e & _ & Hnone) | (pg' & b & doc2 & acts2 & Hp & Hr2 & ->)]).
    { rewrite (Hnone Hnf) in Hpg. discriminate. }
    rewrite Hpg in Hp. injection Hp as <-.
    unfold hits in Hhit. rewrite Hr2 in Hhit. simpl in Hhit. subst b.
    cbn [outcome final emitted].
    apply found_returns_true.
    unfold no_faults. rewrite put_document_faults. now apply Hnf2.
Qed.

Lemma search_hit (w : World) (pg : Page) :
  no_faults w -> state_page w = Some pg -> isClosed pg = false ->
  hits (main_script c) (document pg) \/ hits (iframe_script c) (document pg) ->
  outcome (search c w) = Returned true.
Proof.
  intros Hn Hpg Hopen Hhit. rewrite search_unfold.
  unfold page_unavailable. rewrite Hpg, Hopen. cbn [outcome].
  rewrite try_catch_outcome. now rewrite (sweep_hit w pg Hn Hpg Hhit).
Qed.

End MissAndHit.

(* ================================================================== *)
(** ** Contexts, and what the scans find in them *)
(* ================================================================== *)

Section ContextFacts.

Lemma main_document_context (w : World) (pg : Page) :
  state_page w = Some pg -> isClosed pg = false ->
  In (document pg) (all_contexts w).
Proof.
  intros Hp Ho. unfold all_contexts. apply in_or_app. left.
  rewrite Hp. simpl. rewrite Ho. now left.
Qed.

Lemma framed_document_context (w : World) (pg : Page) (iframe : Element)
  (iframeDoc : Document) :
  state_page w = Some pg -> isClosed pg = false ->
  In iframe (document pg) -> content iframe = SameOrigin iframeDoc ->
  In iframeDoc (all_contexts w).
Proof.
  intros Hp Ho Hin Hc. unfold all_contexts. apply in_or_app. left.
  rewrite Hp. simpl. rewrite Ho. right.
  apply in_flat_map. exists iframe. split; [exact Hin|].
  destruct iframe; simpl in *. rewrite Hc. now left.
Qed.

Lemma popup_document_context (w : World) (k : nat) (pg : Page) :
  page_of (Popup k) w = Some pg -> isClosed pg = false ->
  In (document pg) (all_contexts w).
Proof.
  simpl. intros Hp Ho. unfold all_contexts. apply in_or_app. right.
  destruct (nth_error (allPages w) k) as [popup|] eqn:E; [|discriminate].
  subst popup. apply in_flat_map. exists (Some pg).
  split; [eapply nth_error_In; eauto|]. simpl. rewrite Ho. now left.
Qed.

Lemma misses_document (s : Script) (doc : Document) :
  script_in_frames s = false ->
  (forall el, In el doc -> script_cond s el = false) -> misses s doc.
Proof.
  intros Hs H. unfold misses.
  destruct s; try discriminate; simpl in *;
    now rewrite first_candidate_None.
Qed.

Lemma misses_frames (s : Script) (doc : Document) :
  script_in_frames s = true ->
  (forall iframe iframeDoc el,
      In iframe doc -> content iframe = SameOrigin iframeDoc ->
      In el iframeDoc -> script_cond s el = false) ->
  misses s doc.
Proof.
  intros Hs H. unfold misses.
  destruct s; try discriminate; simpl in *;
    rewrite scan_iframes_None; auto;
    intros j iframe iframeDoc el Hin; apply querySelectorAll_In in Hin as [Hin _];
    now apply H.
Qed.

Lemma hits_document (s : Script) (doc : Document) (el : Element) :
  script_in_frames s = false ->
  In el doc -> script_selects s el = true -> script_cond s el = true ->
  hits s doc.
Proof.
  intros Hs Hin Hsel Hc. unfold hits.
  destruct s; try discriminate; simpl in *;
    now destruct (first_candidate_exists _ _ doc el Hin Hsel Hc) as [r ->].
Qed.

Lemma hits_frames (s : Script) (doc : Document) (iframe : Element)
  (iframeDoc : Document) (r : NodeRef) :
  script_in_frames s = true ->
  In iframe doc -> sel_iframe iframe = true ->
  content iframe = SameOrigin iframeDoc ->
  first_candidate (script_selects s) (script_cond s) iframeDoc = Some r ->
  script_settles s (snd r) = true ->
  hits s doc.
Proof.
  intros Hs Hin Hf Hc Hfirst Hset. unfold hits.
  destruct (In_querySelectorAll sel_iframe doc iframe Hin Hf) as [j Hj].
  destruct (scan_iframes_exists (script_selects s) (script_cond s)
              (script_settles s) _ j iframe iframeDoc r Hj Hc Hfirst Hset)
    as [[j' r'] Hx].
  destruct s; try discriminate; simpl in *; now rewrite Hx.
Qed.

(** A candidate in a framed document, when the statements of the script
    complete on every element of that document. *)
Lemma hits_frames_candidate (s : Script) (doc : Document) (iframe : Element)
  (iframeDoc : Document) (el : Element) :
  script_in_frames s = true ->
  In iframe doc -> sel_iframe iframe = true ->
  content iframe = SameOrigin iframeDoc -> In el iframeDoc ->
  script_selects s el = true -> script_cond s el = true ->
  (forall e, In e iframeDoc -> script_settles s e = true) ->
  hits s doc.
Proof.
  intros Hs Hin Hf Hc Hel Hsel Hcond Hall.
  destruct (first_candidate_exists _ _ iframeDoc el Hel Hsel Hcond) as [r Hr].
  apply (hits_frames s doc iframe iframeDoc r); auto.
  apply Hall. now apply first_candidate_Some in Hr as (_ & Hr & _).
Qed.

Lemma assoc_put_other (k name v : string) (l : list (string * string)) :
  String.eqb name k = false -> assoc k (put name v l) = assoc k l.
Proof.
  intros H. induction l as [|[k' v'] l IH]; simpl.
  - now rewrite H.
  - destruct (String.eqb k' name) eqn:E; simpl.
    + apply String.eqb_eq in E. subst k'. now rewrite H.
    + now rewrite IH.
Qed.

Lemma getAttribute_setAttribute_other (k name v : string) (el : Element) :
  String.eqb name k = false ->
  getAttribute (setAttribute name v el) k = getAttribute el k.
Proof.
  intros H. destruct el. unfold getAttribute. simpl.
  now apply assoc_put_other.
Qed.

Lemma has_box_setAttribute (name v : string) (el : Element) :
  has_box (setAttribute name v el) = has_box el.
Proof. now destruct el. Qed.

Lemma style_shown_setAttribute (name v : string) (el : Element) :
  style_shown (setAttribute name v el) = style_shown el.
Proof. now destruct el. Qed.

(** The click scan reads the text, [aria-label] and [title]; the fill
    scan reads [placeholder], [aria-label], [id] and [name]. *)
Lemma click_matches_unread (target name v : string) (el : Element) :
  In name ["placeholder"; "id"; "name"] ->
  click_matches (toLowerCase target) (setAttribute name v el)
  = click_matches (toLowerCase target) el.
Proof.
  intros Hname. unfold click_matches.
  assert (Ht : textContent (setAttribute name v el) = textContent el)
    by now destruct el.
  rewrite Ht.
  destruct Hname as [<- | [<- | [<- | []]]];
    now rewrite !getAttribute_setAttribute_other.
Qed.

Lemma sel_clickable_unread (name v : string) (el : Element) :
  In name ["placeholder"; "id"; "name"] ->
  sel_clickable (setAttribute name v el) = sel_clickable el.
Proof.
  intros Hname. unfold sel_clickable, attr_is, type_is, has_tag.
  assert (Ht : tagName (setAttribute name v el) = tagName el)
    by now destruct el.
  rewrite Ht.
  destruct Hname as [<- | [<- | [<- | []]]];
    now rewrite !getAttribute_setAttribute_other.
Qed.

Lemma fill_matches_unread (target v x : string) (el : Element) :
  fill_matches (toLowerCase target)
    (setAttribute "title" v (set_textContent x el))
  = fill_matches (toLowerCase target) el.
Proof.
  unfold fill_matches, placeholder.
  rewrite !getAttribute_setAttribute_other by reflexivity.
  now destruct el.
Qed.

Lemma click_label_matches (target : string) (el : Element) :
  click_label_match target el -> click_matches (toLowerCase target) el = true.
Proof.
  unfold click_label_match, click_matches.
  intros [H | [H | H]]; rewrite H; now rewrite ?orb_true_r.
Qed.

Lemma fill_label_matches (target : string) (el : Element) :
  fill_label_match target el -> fill_matches (toLowerCase target) el = true.
Proof.
  unfold fill_label_match, fill_matches.
  intros [H | [H | [H | H]]]; rewrite H; now rewrite ?orb_true_r.
Qed.

Lemma click_popup_weaker (s : string) (el : Element) :
  click_matches s el = false -> click_matches_popup s el = false.
Proof.
  unfold click_matches, click_matches_popup. intros H.
  now apply orb_false_elim in H as [H _].
Qed.

Lemma fill_popup_weaker (s : string) (el : Element) :
  fill_matches s el = false -> fill_matches_popup s el = false.
Proof.
  unfold fill_matches, fill_matches_popup. intros H.
  apply orb_false_elim in H as [H _]. now apply orb_false_elim in H as [H _].
Qed.

(** With no matching element in any context, every script of a click
    search comes back empty-handed. *)
Lemma no_click_match_search (target : string) (maxRetries : Z) (w : World) :
  no_click_match target w ->
  outcome (clickWithRetry target maxRetries w) = Returned false
  /\ scans (clickWithRetry target maxRetries w) <= 2 + length (allPages w).
Proof.
  intros H. rewrite clickWithRetry_shape. apply search_miss.
  - intros pg Hp Ho. simpl in Hp. split.
    + apply misses_document; [reflexivity|]. intros el Hel. simpl.
      unfold click_main_cond.
      now rewrite (H _ el (main_document_context w pg Hp Ho) Hel).
    + apply misses_frames; [reflexivity|]. intros iframe iframeDoc el Hin Hc Hel.
      simpl. unfold click_iframe_cond.
      now rewrite (H _ el (framed_document_context w pg _ _ Hp Ho Hin Hc) Hel).
  - intros j pg Hp Ho. apply misses_document; [reflexivity|]. intros el Hel.
    simpl. unfold click_popup_cond. apply click_popup_weaker.
    exact (H _ el (popup_document_context w j pg Hp Ho) Hel).
Qed.

Lemma no_fill_match_search (target value : string) (maxRetries : Z) (w : World) :
  no_fill_match target w ->
  outcome (fillWithRetry target value maxRetries w) = Returned false
  /\ scans (fillWithRetry target value maxRetries w) <= 2 + length (allPages w).
Proof.
  intros H. rewrite fillWithRetry_shape. apply search_miss.
  - intros pg Hp Ho. simpl in Hp. split.
    + apply misses_document; [reflexivity|]. intros el Hel. simpl.
      unfold fill_main_cond.
      now rewrite (H _ el (main_document_context w pg Hp Ho) Hel).
    + apply misses_frames; [reflexivity|]. intros iframe iframeDoc el Hin Hc Hel.
      simpl. unfold fill_iframe_cond.
      exact (H _ el (framed_document_context w pg _ _ Hp Ho Hin Hc) Hel).
  - intros j pg Hp Ho. apply misses_document; [reflexivity|]. intros el Hel.
    simpl. unfold fill_popup_cond. apply fill_popup_weaker.
    exact (H _ el (popup_document_context w j pg Hp Ho) Hel).
Qed.

End ContextFacts.

(* ================================================================== *)
(** ** Runs on the sample pages *)
(* ================================================================== *)

Section SampleRuns.

Example click_in_level_one_iframe :
  outcome (clickWithRetry "submit" 1 framed_world) = Returned true.
Proof. reflexivity. Qed.

Example fill_by_lower_case_label :
  final (fillWithRetry "function id" "F-17" 1 (world_of [function_id_input]))
  = world_of [set_value "F-17" function_id_input].
Proof. reflexivity. Qed.

Example rejected_evaluation_is_logged :
  clickWithRetry "Submit" 1 failing_world
  = mkRun (Returned false)
          (mkWorld (Some (open_page [submit_button])) [] [])
          [Log ("[CLICK SEARCH] Looking for: " ++ quoted "Submit");
           Evaluated MainPage (ClickMain "Submit");
           Log "[CLICK ERROR] page.evaluate: execution context was destroyed"].
Proof. reflexivity. Qed.

Example try_block_can_throw :
  outcome (click_body "Submit" failing_world)
  = Thrown (mkError "page.evaluate: execution context was destroyed").
Proof. reflexivity. Qed.

Lemma quiet_world_no_click_match :
  no_click_match "Nonexistent Field" quiet_world.
Proof.
  intros doc el Hd He. simpl in Hd.
  repeat (destruct Hd as [<- | Hd];
          [simpl in He;
           repeat (destruct He as [<- | He]; [reflexivity|]); contradiction|]).
  contradiction.
Qed.

Lemma quiet_world_no_fill_match :
  no_fill_match "Nonexistent Field" quiet_world.
Proof.
  intros doc el Hd He. simpl in Hd.
  repeat (destruct Hd as [<- | Hd];
          [simpl in He;
           repeat (destruct He as [<- | He]; [reflexivity|]); contradiction|]).
  contradiction.
Qed.

End SampleRuns.

(* ================================================================== *)
(** ** The properties of the specification *)
(* ================================================================== *)



(** C2, as the code has it.  When no element of any context matches the
    target, the call returns [false]; it has started the chain of passes
    once (not at all when the page is unavailable), whatever [maxRetries]
    is, and has sent at most two scans to the main page and one to each
    entry of [allPages]. *)
Theorem no_match_returns_false (target value : string) (maxRetries : Z) (w : World) :
  (no_click_match target w ->
   outcome (clickWithRetry target maxRetries w) = Returned false
   /\ chain_attempts (clickWithRetry target maxRetries w)
      = (if page_unavailable w then 0 else 1)
   /\ scans (clickWithRetry target maxRetries w) <= 2 + length (allPages w))
  /\ (no_fill_match target w ->
      outcome (fillWithRetry target value maxRetries w) = Returned false
      /\ chain_attempts (fillWithRetry target value maxRetries w)
         = (if page_unavailable w then 0 else 1)
      /\ scans (fillWithRetry target value maxRetries w) <= 2 + length (allPages w)).
Proof.
  split; intros H.
  - destruct (no_click_match_search target maxRetries w H) as [Ho Hs].
    repeat split; auto.
    rewrite clickWithRetry_shape. now apply search_chain_attempts.
  - destruct (no_fill_match_search target value maxRetries w H) as [Ho Hs].
    repeat split; auto.
    rewrite fillWithRetry_shape. now apply search_chain_attempts.
Qed.

Lemma no_match_returns_false_witness :
  outcome (clickWithRetry "Nonexistent Field" 2 quiet_world) = Returned false
  /\ chain_attempts (clickWithRetry "Nonexistent Field" 2 quiet_world) = 1
  /\ scans (clickWithRetry "Nonexistent Field" 2 quiet_world) <= 3.
Proof.
  exact (proj1 (no_match_returns_false "Nonexistent Field" "" 2 quiet_world)
           quiet_world_no_click_match).
Defined.

(** C2 as stated fails: with [maxRetries = 0] and nothing to find, the
    chain is still started once, which is more than [maxRetries] times. *)
Lemma zero_retries_still_one_attempt :
  no_click_match "Nonexistent Field" quiet_world
  /\ outcome (clickWithRetry "Nonexistent Field" 0 quiet_world) = Returned false
  /\ ~ (Z.of_nat (chain_attempts (clickWithRetry "Nonexistent Field" 0 quiet_world))
        <= 0)%Z.
Proof.
  split; [exact quiet_world_no_click_match|]. split; [reflexivity|].
  vm_compute. intros H. now apply H.
Qed.

(** C3, where the code departs from it.  A button that the click scan
    accepts, two iframes deep with same-origin access at both levels, is in
    a context of the page and is not found: the call returns [false] and
    acts on nothing, while the same button one iframe deep is clicked. *)
Theorem nested_iframe_not_searched :
  In [submit_button] (all_contexts nested_world)
  /\ sel_clickable submit_button = true
  /\ click_main_cond (toLowerCase "Submit") submit_button = true
  /\ outcome (clickWithRetry "Submit" 1 nested_world) = Returned false
  /\ acted_on (clickWithRetry "Submit" 1 nested_world) = []
  /\ outcome (clickWithRetry "Submit" 1 framed_world) = Returned true.
Proof.
  split; [simpl; auto|]. repeat split.
Qed.

(** C5, as the code has it.  For every target, beginning like a selector
    or not, resolution is by the case-folded substring scan: each element a
    click search acts on is in the clickable list and has the lower-cased
    target in its text, aria-label or title, and each element a fill search
    acts on is in the fillable list and has it in its placeholder,
    aria-label, id or name. *)
Theorem resolution_is_by_substring_scan
  (target value : string) (maxRetries : Z) (w : World) :
  Forall (fun el => sel_clickable el = true
                    /\ click_matches (toLowerCase target) el = true)
         (acted_on (clickWithRetry target maxRetries w))
  /\ Forall (fun el => sel_fillable el = true
                       /\ fill_matches (toLowerCase target) el = true)
            (acted_on (fillWithRetry target value maxRetries w)).
Proof.
  unfold acted_on. split; apply Forall_map.
  - eapply actions_Forall; [|apply click_events].
    intros p a (Hs & Hm & _). now split.
  - eapply actions_Forall; [|apply fill_events].
    intros p a (Hs & Hm & _). now split.
Qed.

(** C5 as stated fails.  The target [#email] begins like a selector and
    the page has a visible, enabled input whose id is email; the call scans
    for the substring [#email], finds nothing and returns [false], while
    the label [email] finds that input. *)
Lemma selector_target_not_looked_up :
  begins_like_selector "#email" = true
  /\ getAttribute email_input "id" = Some "email"
  /\ fill_main_cond (toLowerCase "email") email_input = true
  /\ outcome (fillWithRetry "#email" "a@b.c" 1 email_world) = Returned false
  /\ acted_on (fillWithRetry "#email" "a@b.c" 1 email_world) = []
  /\ outcome (fillWithRetry "email" "a@b.c" 1 email_world) = Returned true.
Proof. repeat split. Qed.

(** C6, as the code has it.  In the main document and in the documents
    of its same-origin iframes, a rendered, shown and enabled element of
    the clickable list whose lower-cased text, aria-label or title includes
    the lower-cased target is a candidate of the click scan, and the click
    search succeeds; one of the fillable list whose lower-cased
    placeholder, aria-label, id or name includes it is a candidate of the
    fill scan, and the fill search succeeds when the assignment completes
    on the elements of these documents (no failure injected).  The click
    scan does not depend on placeholder, id or name, nor the fill scan on
    title or text content. *)
Theorem scanned_attributes_make_candidates
  (target value : string) (maxRetries : Z) (w : World) (pg : Page) (el : Element) :
  no_faults w -> state_page w = Some pg -> isClosed pg = false ->
  In el (document pg) \/ in_framed_document pg el ->
  has_box el = true -> style_shown el = true -> disabled el = false ->
  (sel_clickable el = true -> click_label_match target el ->
   click_main_cond (toLowerCase target) el = true
   /\ click_iframe_cond (toLowerCase target) el = true
   /\ outcome (clickWithRetry target maxRetries w) = Returned true)
  /\ (sel_fillable el = true -> fill_label_match target el ->
      fill_main_cond (toLowerCase target) el = true
      /\ fill_iframe_cond (toLowerCase target) el = true
      /\ (assignments_complete value pg ->
          outcome (fillWithRetry target value maxRetries w) = Returned true))
  /\ (forall name v, In name ["placeholder"; "id"; "name"] ->
        sel_clickable (setAttribute name v el) = sel_clickable el
        /\ click_main_cond (toLowerCase target) (setAttribute name v el)
           = click_main_cond (toLowerCase target) el
        /\ click_iframe_cond (toLowerCase target) (setAttribute name v el)
           = click_iframe_cond (toLowerCase target) el)
  /\ (forall v x,
        sel_fillable (setAttribute "title" v (set_textContent x el))
        = sel_fillable el
        /\ fill_main_cond (toLowerCase target)
             (setAttribute "title" v (set_textContent x el))
           = fill_main_cond (toLowerCase target) el
        /\ fill_iframe_cond (toLowerCase target)
             (setAttribute "title" v (set_textContent x el))
           = fill_iframe_cond (toLowerCase target) el).
Proof.
  intros Hn Hp Ho Hwhere Hbox Hshown Hen.
  split; [|split; [|split]].
  - intros Hsel Hm. apply click_label_matches in Hm.
    assert (Hmain : click_main_cond (toLowerCase target) el = true)
      by (unfold click_main_cond; now rewrite Hm, Hbox, Hshown).
    assert (Hframe : click_iframe_cond (toLowerCase target) el = true)
      by (unfold click_iframe_cond; now rewrite Hm, Hbox).
    split; [exact Hmain|]. split; [exact Hframe|].
    rewrite clickWithRetry_shape. apply (search_hit _ w pg Hn Hp Ho).
    destruct Hwhere as [Hin | (iframe & iframeDoc & Hin & Hf & Hc & Hel)].
    + left. now apply (hits_document _ _ el).
    + right. now apply (hits_frames_candidate _ _ iframe iframeDoc el).
  - intros Hsel Hm. apply fill_label_matches in Hm.
    assert (Hmain : fill_main_cond (toLowerCase target) el = true)
      by (unfold fill_main_cond; now rewrite Hm, Hbox, Hshown, Hen).
    split; [exact Hmain|]. split; [exact Hm|]. intros Hall.
    rewrite fillWithRetry_shape. apply (search_hit _ w pg Hn Hp Ho).
    destruct Hwhere as [Hin | (iframe & iframeDoc & Hin & Hf & Hc & Hel)].
    + left. now apply (hits_document _ _ el).
    + right. apply (hits_frames_candidate _ _ iframe iframeDoc el); auto.
      intros e He. apply Hall. right. now exists iframe, iframeDoc.
  - intros name v Hname. split; [now apply sel_clickable_unread|].
    unfold click_main_cond, click_iframe_cond.
    rewrite (click_matches_unread target name v el Hname).
    now rewrite has_box_setAttribute, style_shown_setAttribute.
  - intros v x. split; [now destruct el|].
    unfold fill_main_cond, fill_iframe_cond.
    rewrite (fill_matches_unread target v x el).
    rewrite has_box_setAttribute, style_shown_setAttribute.
    now destruct el.
Qed.

Lemma scanned_attributes_make_candidates_witness :
  outcome (clickWithRetry "submit" 1 framed_world) = Returned true.
Proof.
  refine (proj2 (proj2 (proj1 (scanned_attributes_make_candidates
                   "submit" "" 1 framed_world
                   (open_page [element "div" [] "Page"; iframe [submit_button]])
                   submit_button _ eq_refl eq_refl _ eq_refl eq_refl eq_refl)
            eq_refl _))).
  - intros b Hb. destruct Hb.
  - right. exists (iframe [submit_button]), [submit_button].
    simpl. auto.
  - left. reflexivity.
Defined.

(** C6 as stated fails.  A visible button whose id includes the target,
    and whose text, aria-label and title do not, is not a candidate of the
    click scan: the call returns [false] and acts on nothing. *)
Lemma id_is_not_scanned_for_clicks :
  sel_clickable save_button = true
  /\ has_box save_button = true /\ style_shown save_button = true
  /\ includes (lower_or_empty (getAttribute save_button "id")) (toLowerCase "save")
     = true
  /\ outcome (clickWithRetry "save" 1 save_world) = Returned false
  /\ acted_on (clickWithRetry "save" 1 save_world) = [].
Proof. repeat split. Qed.

(** C7, where the code departs from it.  An input inside an iframe that
    has no box, is not shown and is disabled is filled all the same; and a
    button of a popup that has no box and is not shown is clicked. *)
Theorem hidden_elements_acted_on :
  has_box hidden_input = false /\ style_shown hidden_input = false
  /\ disabled hidden_input = true
  /\ outcome (fillWithRetry "email" "a@b.c" 1 hidden_frame_world) = Returned true
  /\ In (MainPage, mkDomEvent (Some 0) 0 hidden_input (SetValue "a@b.c"))
        (actions (emitted (fillWithRetry "email" "a@b.c" 1 hidden_frame_world)))
  /\ has_box hidden_button = false /\ style_shown hidden_button = false
  /\ outcome (clickWithRetry "delete" 1 hidden_popup_world) = Returned true
  /\ In (Popup 0, mkDomEvent None 0 hidden_button Click)
        (actions (emitted (clickWithRetry "delete" 1 hidden_popup_world))).
Proof.
  repeat split; try (simpl; auto; fail).
Qed.




(** C9.  When [state.page] is unset or the page is closed, both
    functions return [false] at once: the world is as it was and nothing
    has been logged, evaluated or acted on. *)
Theorem unavailable_page_returns_false
  (target value : string) (maxRetries : Z) (w : World) :
  state_page w = None \/ (exists pg, state_page w = Some pg /\ isClosed pg = true) ->
  clickWithRetry target maxRetries w = mkRun (Returned false) w []
  /\ fillWithRetry target value maxRetries w = mkRun (Returned false) w [].
Proof.
  intros H.
  assert (Hu : page_unavailable w = true).
  { unfold page_unavailable. destruct H as [-> | (pg & -> & Hc)]; auto. }
  rewrite clickWithRetry_shape, fillWithRetry_shape, !search_unfold, Hu.
  now split.
Qed.

Lemma unavailable_page_returns_false_witness :
  clickWithRetry "Submit" 1 closed_world = mkRun (Returned false) closed_world []
  /\ fillWithRetry "Submit" "x" 1 closed_world
     = mkRun (Returned false) closed_world [].
Proof.
  apply (unavailable_page_returns_false "Submit" "x" 1 closed_world).
  right. exists (mkPage true [submit_button]). split; reflexivity.
Defined.

(** C10.  [maxRetries] is never read: two calls that differ only in it
    are the same run (same result, same final world, same events), and a
    call starts the chain of passes once when the page is available. *)
Theorem maxRetries_is_ignored (target value : string) (m1 m2 : Z) (w : World) :
  clickWithRetry target m1 w = clickWithRetry target m2 w
  /\ fillWithRetry target value m1 w = fillWithRetry target value m2 w
  /\ chain_attempts (clickWithRetry target m1 w)
     = (if page_unavailable w then 0 else 1)
  /\ chain_attempts (fillWithRetry target value m1 w)
     = (if page_unavailable w then 0 else 1).
Proof.
  split; [reflexivity|]. split; [reflexivity|].
  rewrite clickWithRetry_shape, fillWithRetry_shape.
  split; now apply search_chain_attempts.
Qed.

(* ================================================================== *)
(** ** Further properties of the two functions *)
(* ================================================================== *)

(** *** Runs in which the browser never fails *)

Section NoFaultRuns.

Lemma actions_app (l1 l2 : list Event) :
  actions (l1 ++ l2) = (actions l1 ++ actions l2)%list.
Proof.
  induction l1 as [|ev l1 IH]; simpl; [reflexivity|].
  destruct ev; simpl; now rewrite IH.
Qed.

Lemma actions_dom (p : PageId) (acts : list DomEvent) :
  actions (map (Dom p) acts) = map (pair p) acts.
Proof. induction acts as [|a acts IH]; simpl; [reflexivity | now rewrite IH]. Qed.

Lemma same_pages_sym (w w' : World) : same_pages w w' -> same_pages w' w.
Proof. intros [H1 H2]; split; congruence. Qed.

Lemma put_document_same_pages (p : PageId) (d : Document) (w w1 : World) :
  same_pages w w1 -> same_pages (put_document p d w) (put_document p d w1).
Proof. intros [H1 H2]. destruct p; split; simpl; congruence. Qed.

Lemma applied_same_pages (p : PageId) (s : Script) (w w1 : World) :
  same_pages w w1 -> same_pages (applied p s w) (applied p s w1).
Proof.
  intros H. unfold applied. rewrite (same_pages_page_of w w1 p H).
  destruct (page_of p w); [now apply put_document_same_pages | exact H].
Qed.

Lemma applied_actions_same_pages (p : PageId) (s : Script) (w w1 : World) :
  same_pages w w1 -> applied_actions p s w1 = applied_actions p s w.
Proof.
  intros H. unfold applied_actions. now rewrite (same_pages_page_of w w1 p H).
Qed.

Lemma first_popup_same_pages (s : Script) (w w1 : World) (remaining k : nat) :
  same_pages w w1 -> first_popup s w1 k remaining = first_popup s w k remaining.
Proof.
  intros H. revert k; induction remaining as [|n IH]; intros k;
    cbn [first_popup]; [reflexivity|].
  rewrite (same_pages_page_of w w1 (Popup k) H).
  destruct (page_of (Popup k) w) as [pg|]; rewrite ?IH; reflexivity.
Qed.

Lemma runs_to_same_pages {A : Type} (r : Run A) (a : A) (w' w'' : World)
  (acts : list (PageId * DomEvent)) :
  same_pages w' w'' -> runs_to r a w'' acts -> runs_to r a w' acts.
Proof.
  intros H (Ho & Hs & Hn & Ha).
  split; [exact Ho|]. split; [eapply same_pages_trans; eauto|]. now split.
Qed.

Lemma runs_to_bind {A B : Type} (m : M A) (k : A -> M B) (w : World) (a : A)
  (b : B) (w' : World) (acts : list (PageId * DomEvent)) :
  outcome (m w) = Returned a ->
  runs_to (k a (final (m w))) b w' acts ->
  runs_to (bind m k w) b w' (actions (emitted (m w)) ++ acts)%list.
Proof.
  intros Ho (Ho' & Hs & Hn & Ha). unfold runs_to, bind. rewrite Ho.
  cbn [outcome final emitted].
  split; [exact Ho'|]. split; [exact Hs|]. split; [exact Hn|].
  now rewrite actions_app, Ha.
Qed.

(** Without a failure, an evaluation runs the script in the page. *)
Lemma evaluate_ok (p : PageId) (s : Script) (w : World) (pg : Page) :
  no_faults w -> page_of p w = Some pg ->
  runs_to (evaluate p s w) (script_hits s (document pg)) (applied p s w)
          (applied_actions p s w).
Proof.
  intros Hn Hp.
  destruct (evaluate_inv p s w)
    as (w1 & Hsame & Hnf & [(e & _ & Hnone) | (pg' & b & doc' & acts & Hp' & Hr & ->)]).
  { rewrite (Hnone Hn) in Hp. discriminate. }
  rewrite Hp in Hp'. injection Hp' as <-.
  unfold runs_to, applied, applied_actions, script_hits, script_document,
    script_actions. rewrite Hp, Hr. cbn [outcome final emitted fst snd].
  split; [reflexivity|]. split; [now apply put_document_same_pages|].
  split.
  - unfold no_faults. rewrite put_document_faults. now apply Hnf.
  - simpl. now rewrite actions_dom.
Qed.

(** A script that finds nothing leaves the world as it is. *)
Lemma applied_miss (p : PageId) (s : Script) (w : World) (pg : Page) :
  page_of p w = Some pg -> script_hits s (document pg) = false ->
  applied p s w = w /\ applied_actions p s w = [].
Proof.
  intros Hp Hh. unfold applied, applied_actions, script_document, script_actions.
  rewrite Hp. unfold script_hits in Hh.
  destruct (run_script s (document pg)) as [[b doc'] acts] eqn:Hr.
  simpl in Hh. subst b. apply run_script_false in Hr as [-> ->]. simpl.
  split; [now apply put_document_same | reflexivity].
Qed.

(** What follows a hit: the line is logged, the pause passes, the
    function returns [true]. *)
Lemma found_tail (msg : string) (p : PageId) (ms : Z) (w : World) :
  no_faults w ->
  runs_to (bind (log msg)
             (fun _ => bind (waitForTimeout p ms) (fun _ => ret true)) w)
          true w [].
Proof.
  intros Hn. unfold runs_to, bind, log, emit. cbn [outcome final emitted].
  destruct (wait_ok p ms w Hn) as (w1 & Hsame & Hn1 & ->).
  cbn [outcome final emitted ret]. now repeat split; try apply Hsame.
Qed.

Variable c : Pass.

Lemma sweep_popup_ok (k : nat) (w : World) :
  no_faults w ->
  if open_at (Popup k) w
  then match page_of (Popup k) w with
       | Some pg =>
           if script_hits (popup_script c) (document pg)
           then runs_to (sweep_popup c k w) true
                        (applied (Popup k) (popup_script c) w)
                        (applied_actions (Popup k) (popup_script c) w)
           else runs_to (sweep_popup c k w) false w []
       | None => True
       end
  else runs_to (sweep_popup c k w) false w [].
Proof.
  intros Hn. unfold runs_to, open_at, sweep_popup, bind, gets.
  cbn [outcome final emitted app].
  destruct (page_of (Popup k) w) as [pg|] eqn:Ep;
    [|now repeat split].
  destruct (isClosed pg) eqn:Ec; cbn [negb]; [now repeat split|].
  destruct (evaluate_ok (Popup k) (popup_script c) w pg Hn Ep)
    as (Ho & Hs & Hn1 & Ha).
  unfold try_catch. rewrite Ho. cbn [outcome].
  destruct (script_hits (popup_script c) (document pg)) eqn:Eh.
  - destruct (found_tail (found_popup c) (Popup k) (pause c) _ Hn1)
      as (Ho2 & Hs2 & Hn2 & Ha2).
    match goal with
    | |- context [outcome ?r] => change r with
        (bind (log (found_popup c))
           (fun _ => bind (waitForTimeout (Popup k) (pause c)) (fun _ => ret true))
           (final (evaluate (Popup k) (popup_script c) w))) end.
    rewrite Ho2. cbn [outcome final emitted].
    split; [reflexivity|]. split; [eapply same_pages_trans; eauto|].
    split; [exact Hn2|]. now rewrite actions_app, Ha, Ha2, app_nil_r.
  - destruct (applied_miss _ _ _ _ Ep Eh) as [Hw Hacts].
    rewrite Hw in Hs. rewrite Hacts in Ha.
    cbn [outcome final emitted ret]. repeat split; auto; try apply Hs.
    now rewrite app_nil_r.
Qed.

Lemma runs_to_bind_acts {A B : Type} (m : M A) (k : A -> M B) (w : World)
  (a : A) (w1 : World) (acts1 : list (PageId * DomEvent))
  (b : B) (w' : World) (acts : list (PageId * DomEvent)) :
  runs_to (m w) a w1 acts1 ->
  runs_to (k a (final (m w))) b w' acts ->
  runs_to (bind m k w) b w' (acts1 ++ acts)%list.
Proof.
  intros (Ho & _ & _ & <-) H. now apply (runs_to_bind m k w a).
Qed.

Lemma runs_to_bind_first {A B : Type} (m : M A) (k : A -> M B) (w : World)
  (a : A) (w1 : World) (b : B) (w' : World) (acts : list (PageId * DomEvent)) :
  runs_to (m w) a w1 [] ->
  runs_to (k a (final (m w))) b w' acts ->
  runs_to (bind m k w) b w' acts.
Proof. intros H1 H2. exact (runs_to_bind_acts m k w a w1 [] b w' acts H1 H2). Qed.

Lemma runs_to_bind_last {A B : Type} (m : M A) (k : A -> M B) (w : World)
  (a : A) (w1 : World) (b : B) (w' : World) (acts : list (PageId * DomEvent)) :
  runs_to (m w) a w1 acts ->
  runs_to (k a (final (m w))) b w' [] ->
  runs_to (bind m k w) b w' acts.
Proof.
  intros H1 H2. rewrite <- (app_nil_r acts).
  exact (runs_to_bind_acts m k w a w1 acts b w' [] H1 H2).
Qed.

Lemma runs_to_gets {A B : Type} (f : World -> A) (k : A -> M B) (w : World)
  (b : B) (w' : World) (acts : list (PageId * DomEvent)) :
  runs_to (k (f w) w) b w' acts -> runs_to (bind (gets f) k w) b w' acts.
Proof. unfold runs_to, bind, gets. cbn [outcome final emitted app]. auto. Qed.

Lemma runs_to_ret {A : Type} (a : A) (w w' : World) :
  no_faults w -> same_pages w' w -> runs_to (ret a w) a w' [].
Proof. intros Hn Hs. now repeat split; try apply Hs. Qed.

Lemma sweep_popups_ok (remaining k : nat) (w : World) :
  no_faults w ->
  match first_popup (popup_script c) w k remaining with
  | Some j =>
      runs_to (sweep_popups c k remaining w) true
              (applied (Popup j) (popup_script c) w)
              (applied_actions (Popup j) (popup_script c) w)
  | None => runs_to (sweep_popups c k remaining w) false w []
  end.
Proof.
  revert k w; induction remaining as [|n IH]; intros k w Hn;
    cbn [first_popup sweep_popups].
  - apply runs_to_ret; [exact Hn | apply same_pages_refl].
  - pose proof (sweep_popup_ok k w Hn) as H. unfold open_at in H.
    assert (Hmiss : runs_to (sweep_popup c k w) false w [] ->
                    match first_popup (popup_script c) w (S k) n with
                    | Some j =>
                        runs_to (bind (sweep_popup c k)
                                   (fun r => if r then ret true
                                             else sweep_popups c (S k) n) w)
                                true (applied (Popup j) (popup_script c) w)
                                (applied_actions (Popup j) (popup_script c) w)
                    | None =>
                        runs_to (bind (sweep_popup c k)
                                   (fun r => if r then ret true
                                             else sweep_popups c (S k) n) w)
                                false w []
                    end).
    { intros Hr. pose proof Hr as (_ & Hs & Hn1 & _).
      specialize (IH (S k) _ Hn1).
      rewrite (first_popup_same_pages _ w _ n (S k) Hs) in IH.
      destruct (first_popup (popup_script c) w (S k) n) as [j|].
      - rewrite (applied_actions_same_pages _ _ w _ Hs) in IH.
        apply (runs_to_same_pages _ _ _ _ _ (applied_same_pages _ _ _ _ Hs)) in IH.
        exact (runs_to_bind_first _ _ _ _ _ _ _ _ Hr IH).
      - apply (runs_to_same_pages _ _ _ _ _ Hs) in IH.
        exact (runs_to_bind_first _ _ _ _ _ _ _ _ Hr IH). }
    destruct (page_of (Popup k) w) as [pg|]; [|now apply Hmiss].
    destruct (isClosed pg); cbn [negb andb] in *; [now apply Hmiss|].
    destruct (script_hits (popup_script c) (document pg)); [|now apply Hmiss].
    apply (runs_to_bind_last _ _ _ _ _ _ _ _ H).
    pose proof H as (_ & Hs & Hn1 & _). now apply runs_to_ret.
Qed.

Lemma after_main_ok (w : World) (pg : Page) :
  no_faults w -> page_of MainPage w = Some pg ->
  if script_hits (iframe_script c) (document pg)
  then runs_to (after_main c false w) true
               (applied MainPage (iframe_script c) w)
               (applied_actions MainPage (iframe_script c) w)
  else match first_popup (popup_script c) w 0 (length (allPages w)) with
       | Some j =>
           runs_to (after_main c false w) true
                   (applied (Popup j) (popup_script c) w)
                   (applied_actions (Popup j) (popup_script c) w)
       | None => runs_to (after_main c false w) false w []
       end.
Proof.
  intros Hn Hp. unfold after_main.
  pose proof (evaluate_ok MainPage (iframe_script c) w pg Hn Hp) as He.
  pose proof He as (_ & Hs & Hn1 & _).
  destruct (script_hits (iframe_script c) (document pg)) eqn:Eh.
  - apply (runs_to_bind_last _ _ _ _ _ _ _ _ He).
    apply (runs_to_same_pages _ _ _ _ _ Hs). now apply found_tail.
  - destruct (applied_miss _ _ _ _ Hp Eh) as [Hw Hacts].
    rewrite Hw, Hacts in He. rewrite Hw in Hs.
    set (w1 := final (evaluate MainPage (iframe_script c) w)) in *.
    pose proof (sweep_popups_ok (length (allPages w1)) 0 w1 Hn1) as Hl.
    assert (Hfp : first_popup (popup_script c) w1 0 (length (allPages w1))
                  = first_popup (popup_script c) w 0 (length (allPages w))).
    { rewrite (first_popup_same_pages _ w w1 _ 0 Hs).
      destruct Hs as [_ ->]. reflexivity. }
    rewrite Hfp in Hl. clear Hfp.
    destruct (first_popup (popup_script c) w 0 (length (allPages w))) as [j|].
    + rewrite (applied_actions_same_pages _ _ w _ Hs) in Hl.
      apply (runs_to_same_pages _ _ _ _ _ (applied_same_pages _ _ _ _ Hs)) in Hl.
      apply (runs_to_bind_first _ _ _ _ _ _ _ _ He). fold w1.
      apply runs_to_gets.
      apply (runs_to_bind_last _ _ _ _ _ _ _ _ Hl).
      pose proof Hl as (_ & Hs2 & Hn2 & _). now apply runs_to_ret.
    + apply (runs_to_same_pages _ _ _ _ _ Hs) in Hl.
      apply (runs_to_bind_first _ _ _ _ _ _ _ _ He). fold w1.
      apply runs_to_gets.
      apply (runs_to_bind_first _ _ _ _ _ _ _ _ Hl).
      pose proof Hl as (_ & Hs2 & Hn2 & _).
      unfold runs_to, bind, log, emit, ret. cbn [outcome final emitted].
      now repeat split; try apply Hs2.
Qed.

Lemma sweep_ok (w : World) (pg : Page) :
  no_faults w -> state_page w = Some pg -> isClosed pg = false ->
  runs_to (sweep c w) (is_some (resolve c w)) (resolved_world c w)
          (resolved_actions c w).
Proof.
  intros Hn Hp Ho. unfold resolved_world, resolved_actions, resolve, sweep.
  rewrite Hp, Ho.
  pose proof (evaluate_ok MainPage (main_script c) w pg Hn Hp) as He.
  pose proof He as (_ & Hs & Hn1 & _).
  destruct (script_hits (main_script c) (document pg)) eqn:Eh.
  - apply (runs_to_bind_last _ _ _ _ _ _ _ _ He).
    apply (runs_to_same_pages _ _ _ _ _ Hs). now apply found_tail.
  - destruct (applied_miss MainPage _ w pg Hp Eh) as [Hw Hacts].
    rewrite Hw, Hacts in He. rewrite Hw in Hs.
    set (w1 := final (evaluate MainPage (main_script c) w)) in *.
    assert (Hp1 : page_of MainPage w1 = Some pg)
      by (rewrite (same_pages_page_of w w1 MainPage Hs); exact Hp).
    pose proof (after_main_ok w1 pg Hn1 Hp1) as Ha.
    rewrite (first_popup_same_pages _ w w1 _ 0 Hs) in Ha.
    assert (Hlen : length (allPages w1) = length (allPages w))
      by (destruct Hs as [_ ->]; reflexivity).
    rewrite Hlen in Ha.
    destruct (script_hits (iframe_script c) (document pg)).
    + rewrite (applied_actions_same_pages _ _ w _ Hs) in Ha.
      apply (runs_to_same_pages _ _ _ _ _ (applied_same_pages _ _ _ _ Hs)) in Ha.
      exact (runs_to_bind_first _ _ _ _ _ _ _ _ He Ha).
    + destruct (first_popup (popup_script c) w 0 (length (allPages w))) as [j|].
      * rewrite (applied_actions_same_pages _ _ w _ Hs) in Ha.
        apply (runs_to_same_pages _ _ _ _ _ (applied_same_pages _ _ _ _ Hs)) in Ha.
        exact (runs_to_bind_first _ _ _ _ _ _ _ _ He Ha).
      * apply (runs_to_same_pages _ _ _ _ _ Hs) in Ha.
        exact (runs_to_bind_first _ _ _ _ _ _ _ _ He Ha).
Qed.

(** Without a failure of the browser, a search does what [resolve] says:
    it returns whether a pass finds a candidate, leaves the pages as that
    one pass left them, and has taken the actions of that pass only. *)
Lemma search_ok (w : World) :
  no_faults w ->
  runs_to (search c w) (is_some (resolve c w)) (resolved_world c w)
          (resolved_actions c w).
Proof.
  intros Hn. rewrite search_unfold.
  unfold page_unavailable, resolved_world, resolved_actions, resolve.
  destruct (state_page w) as [pg|] eqn:Hp;
    [|now repeat split].
  destruct (isClosed pg) eqn:Ho; [now repeat split|].
  destruct (sweep_ok w pg Hn Hp Ho) as (Hout & Hs & Hn1 & Ha).
  unfold resolved_world, resolved_actions, resolve in Hs, Ha, Hout.
  rewrite Hp, Ho in Hs, Ha, Hout.
  unfold runs_to. cbn [outcome final emitted]. unfold try_catch. rewrite Hout.
  cbn [actions]. now repeat split; try apply Hs.
Qed.

End NoFaultRuns.

(** *** What every run keeps, failures included *)

Section Keeps.

Variable R : World -> World -> Prop.
Variable P : World -> Event -> Prop.

Hypothesis R_refl : forall w, R w w.
Hypothesis R_trans : forall w1 w2 w3, R w1 w2 -> R w2 w3 -> R w1 w3.
Hypothesis R_pages : forall w w1, same_pages w w1 -> R w w1.
Hypothesis P_mono : forall w w1 ev, R w w1 -> P w1 ev -> P w ev.
Hypothesis P_log : forall w msg, P w (Log msg).
Hypothesis P_wait : forall w p ms, P w (Waited p ms).

Lemma keeps_ret {A : Type} (a : A) (w : World) : keeps R P (ret a) w.
Proof. split; [apply R_refl | constructor]. Qed.

Lemma keeps_gets {A : Type} (f : World -> A) (w : World) : keeps R P (gets f) w.
Proof. split; [apply R_refl | constructor]. Qed.

Lemma keeps_log (msg : string) (w : World) : keeps R P (log msg) w.
Proof. split; [apply R_refl | repeat constructor; apply P_log]. Qed.

Lemma keeps_wait (p : PageId) (ms : Z) (w : World) :
  keeps R P (waitForTimeout p ms) w.
Proof.
  unfold keeps, waitForTimeout, bind, emit. cbn [outcome final emitted].
  destruct (settle_inv "waitForTimeout: target closed" w)
    as (w1 & Hs & _ & [-> | [-> _]]); cbn [outcome final emitted app];
    (split; [now apply R_pages | repeat constructor; apply P_wait]).
Qed.

Lemma keeps_bind {A B : Type} (m : M A) (k : A -> M B) (w : World) :
  keeps R P m w -> (forall a, keeps R P (k a) (final (m w))) ->
  keeps R P (bind m k) w.
Proof.
  intros [Hr He] Hk. unfold keeps, bind.
  destruct (outcome (m w)) as [a|e]; cbn [final emitted]; [|now split].
  destruct (Hk a) as [Hr' He']. split; [eapply R_trans; eauto|].
  apply Forall_app. split; [exact He|].
  eapply Forall_impl; [|exact He']. intros ev. now apply P_mono.
Qed.

Lemma keeps_try_catch {A : Type} (m : M A) (h : JsError -> M A) (w : World) :
  keeps R P m w -> (forall e, keeps R P (h e) (final (m w))) ->
  keeps R P (try_catch m h) w.
Proof.
  intros [Hr He] Hh. unfold keeps, try_catch.
  destruct (outcome (m w)) as [a|e]; cbn [final emitted]; [now split|].
  destruct (Hh e) as [Hr' He']. split; [eapply R_trans; eauto|].
  apply Forall_app. split; [exact He|].
  eapply Forall_impl; [|exact He']. intros ev. now apply P_mono.
Qed.

(** An evaluation keeps what the run of its script keeps. *)
Lemma keeps_evaluate (p : PageId) (s : Script) (w : World) :
  P w (Evaluated p s) ->
  (forall w1 pg b doc' acts,
      same_pages w w1 -> page_of p w1 = Some pg ->
      run_script s (document pg) = (b, doc', acts) ->
      R w1 (put_document p doc' w1) /\ Forall (fun a => P w1 (Dom p a)) acts) ->
  keeps R P (evaluate p s) w.
Proof.
  intros He Hs. unfold keeps.
  destruct (evaluate_inv p s w)
    as (w1 & Hsame & _ & [(e & -> & _) | (pg & b & doc' & acts & Hp & Hr & ->)]);
    cbn [final emitted].
  - split; [now apply R_pages | now repeat constructor].
  - rewrite <- (same_pages_page_of w w1 p Hsame) in Hp.
    destruct (Hs w1 pg b doc' acts Hsame Hp Hr) as [HR HP].
    split; [eapply R_trans; [apply R_pages|]; eauto|].
    constructor; [exact He|]. apply Forall_map.
    eapply Forall_impl; [|exact HP]. intros a. apply P_mono. now apply R_pages.
Qed.

Variable c : Pass.

Hypothesis P_main : forall w, P w (Evaluated MainPage (main_script c)).
Hypothesis P_iframes : forall w, P w (Evaluated MainPage (iframe_script c)).
Hypothesis P_popup :
  forall w k pg, page_of (Popup k) w = Some pg -> isClosed pg = false ->
                 P w (Evaluated (Popup k) (popup_script c)).
Hypothesis main_scripts_keep :
  forall s w pg b doc' acts,
    In s [main_script c; iframe_script c] ->
    page_of MainPage w = Some pg ->
    run_script s (document pg) = (b, doc', acts) ->
    R w (put_document MainPage doc' w)
    /\ Forall (fun a => P w (Dom MainPage a)) acts.
Hypothesis popup_script_keeps :
  forall k w pg b doc' acts,
    page_of (Popup k) w = Some pg -> isClosed pg = false ->
    run_script (popup_script c) (document pg) = (b, doc', acts) ->
    R w (put_document (Popup k) doc' w)
    /\ Forall (fun a => P w (Dom (Popup k) a)) acts.

Lemma keeps_found (msg : string) (p : PageId) (w : World) :
  keeps R P (bind (log msg)
               (fun _ => bind (waitForTimeout p (pause c)) (fun _ => ret true))) w.
Proof.
  apply keeps_bind; [apply keeps_log|]. intros _.
  apply keeps_bind; [apply keeps_wait|]. intros _. apply keeps_ret.
Qed.

Lemma keeps_gets_bind {A B : Type} (f : World -> A) (k : A -> M B) (w : World) :
  keeps R P (k (f w)) w -> keeps R P (bind (gets f) k) w.
Proof.
  unfold keeps, bind, gets. cbn [outcome final emitted app]. auto.
Qed.

Lemma keeps_sweep_popup (k : nat) (w : World) : keeps R P (sweep_popup c k) w.
Proof.
  unfold sweep_popup. apply keeps_gets_bind.
  destruct (page_of (Popup k) w) as [pg|] eqn:Ep; [|apply keeps_ret].
  destruct (isClosed pg) eqn:Ec; cbn [negb]; [apply keeps_ret|].
  apply keeps_try_catch; [|intros; apply keeps_ret].
  apply keeps_bind.
  - apply keeps_evaluate; [now apply (P_popup w k pg)|].
    intros w1 pg1 b doc' acts Hs Hp Hr.
    apply (popup_script_keeps k w1 pg1 b doc' acts); auto.
    rewrite (same_pages_page_of w w1 (Popup k) Hs), Ep in Hp.
    now injection Hp as <-.
  - intros [|]; [apply keeps_found | apply keeps_ret].
Qed.

Lemma keeps_sweep_popups (remaining k : nat) (w : World) :
  keeps R P (sweep_popups c k remaining) w.
Proof.
  revert k w; induction remaining as [|n IH]; intros k w; cbn [sweep_popups];
    [apply keeps_ret|].
  apply keeps_bind; [apply keeps_sweep_popup|].
  intros [|]; [apply keeps_ret | apply IH].
Qed.

Lemma keeps_after_main (hit : bool) (w : World) : keeps R P (after_main c hit) w.
Proof.
  unfold after_main. destruct hit; [apply keeps_found|].
  apply keeps_bind.
  - apply keeps_evaluate; [apply P_iframes|].
    intros w1 pg1 b doc' acts _ Hp Hr.
    apply (main_scripts_keep (iframe_script c) w1 pg1 b doc' acts);
      simpl; auto.
  - intros [|]; [apply keeps_found|].
    apply keeps_gets_bind. apply keeps_bind; [apply keeps_sweep_popups|].
    intros [|]; [apply keeps_ret|].
    apply keeps_bind; [apply keeps_log | intros _; apply keeps_ret].
Qed.

(** What the scripts keep, a whole search keeps. *)
Lemma keeps_search (w : World) : keeps R P (search c) w.
Proof.
  unfold search. apply keeps_gets_bind.
  destruct (page_unavailable w); [apply keeps_ret|].
  apply keeps_bind; [apply keeps_log|]. intros _.
  apply keeps_try_catch.
  - unfold sweep. apply keeps_bind; [|intros hit; apply keeps_after_main].
    apply keeps_evaluate; [apply P_main|].
    intros w1 pg1 b doc' acts _ Hp Hr.
    apply (main_scripts_keep (main_script c) w1 pg1 b doc' acts);
      simpl; auto.
  - intros e. unfold on_error.
    apply keeps_bind; [apply keeps_log | intros _; apply keeps_ret].
Qed.

End Keeps.

(** *** What the scripts do to a document *)

Section ScriptEffects.

(** A click script does not mutate the document. *)
Lemma click_script_document (s : Script) (doc doc' : Document) (b : bool)
  (acts : list DomEvent) :
  is_click_script s = true -> run_script s doc = (b, doc', acts) -> doc' = doc.
Proof.
  destruct s; try discriminate; intros _; simpl;
    repeat match goal with
      | |- context [match ?x with _ => _ end] => destruct x
      end;
    intros H; now inversion H.
Qed.

Lemma erase_set_value (v : string) (el : Element) :
  erase_values (set_value v el) = erase_values el.
Proof. now destruct el. Qed.

Lemma map_update_at {A B : Type} (g : A -> B) (f : A -> A) (l : list A) (i : nat) :
  (forall x, nth_error l i = Some x -> g (f x) = g x) ->
  map g (update_at i f l) = map g l.
Proof.
  revert i; induction l as [|x l IH]; intros [|i] H; simpl; try reflexivity.
  - now rewrite (H x eq_refl).
  - now rewrite (IH i H).
Qed.

Lemma erase_assign (r : NodeRef) (v : string) (doc : Document) :
  map erase_values (assign r v doc) = map erase_values doc.
Proof.
  unfold assign. apply map_update_at. intros x _. apply erase_set_value.
Qed.

Lemma erase_assign_in_frame (j : nat) (r : NodeRef) (v : string) (doc : Document) :
  map erase_values (assign_in_frame j r v doc) = map erase_values doc.
Proof.
  unfold assign_in_frame. apply map_update_at. intros x _.
  destruct x as [t a x w h d vis dis val o [| |d']]; simpl; try reflexivity.
  now rewrite erase_assign.
Qed.

(** A script changes nothing in a document but values. *)
Lemma run_script_erased (s : Script) (doc doc' : Document) (b : bool)
  (acts : list DomEvent) :
  run_script s doc = (b, doc', acts) ->
  map erase_values doc' = map erase_values doc.
Proof.
  destruct s; simpl;
    repeat match goal with
      | |- context [match ?x with _ => _ end] => destruct x
      end;
    intros H; inversion H; subst;
    auto using erase_assign, erase_assign_in_frame.
Qed.

(** The actions of a script are on one node: of the document itself for
    the scripts of the main and the popup pass, of a framed document for
    the scripts of the iframe pass. *)
Lemma run_script_one_node (s : Script) (doc doc' : Document) (b : bool)
  (acts : list DomEvent) :
  run_script s doc = (b, doc', acts) ->
  exists f i el,
    (if script_in_frames s then f <> None else f = None)
    /\ Forall (fun a => ev_frame a = f /\ ev_node a = i /\ ev_elem a = el) acts.
Proof.
  destruct s; simpl;
    repeat match goal with
      | |- context [match ?x with _ => _ end] => destruct x as [?r|]
      | p : (nat * NodeRef)%type |- _ => destruct p as [?j ?r]
      end;
    intros H; inversion H; subst;
    try (exists None, (fst r), (snd r); split; [reflexivity|];
         repeat constructor);
    try (exists (Some j), (fst r), (snd r); split; [discriminate|];
         repeat constructor);
    try (exists None, 0, (mkElement "" [] "" 0 0 "" "" false "" [] NoDocument);
         split; [reflexivity | constructor]);
    try (exists (Some 0), 0, (mkElement "" [] "" 0 0 "" "" false "" [] NoDocument);
         split; [discriminate | constructor]).
Qed.

(** A script that returns [true] has acted. *)
Lemma run_script_hit_acts (s : Script) (doc doc' : Document)
  (acts : list DomEvent) :
  run_script s doc = (true, doc', acts) -> acts <> [].
Proof.
  destruct s; simpl;
    repeat match goal with
      | |- context [match ?x with _ => _ end] => destruct x
      end;
    intros H; inversion H; discriminate.
Qed.

End ScriptEffects.

(** *** Invariants of every call *)

Section CallInvariants.

Lemma Forall_True {A : Type} (l : list A) : Forall (fun _ => True) l.
Proof. now apply Forall_forall. Qed.

Lemma erased_same_pages (w w1 : World) :
  same_pages w w1 -> erased w1 = erased w.
Proof. intros [H1 H2]. unfold erased. now rewrite H1, H2. Qed.

Lemma erased_put_document (p : PageId) (doc' : Document) (w : World) (pg : Page) :
  page_of p w = Some pg ->
  map erase_values doc' = map erase_values (document pg) ->
  erased (put_document p doc' w) = erased w.
Proof.
  intros Hp Hd. unfold erased. destruct p as [|k]; simpl in *.
  - rewrite Hp. simpl. unfold erase_page, set_page_document. simpl.
    now rewrite Hd.
  - f_equal. apply map_update_at. intros x Hx. rewrite Hx in Hp. subst x.
    simpl. unfold erase_page, set_page_document. simpl. now rewrite Hd.
Qed.

Lemma nth_error_update_at {A : Type} (f : A -> A) (l : list A) (k j : nat) :
  nth_error (update_at k f l) j
  = if Nat.eqb k j then option_map f (nth_error l j) else nth_error l j.
Proof.
  revert k j; induction l as [|x l IH]; intros k j.
  - destruct k, j; simpl; try reflexivity. now destruct (Nat.eqb k j).
  - destruct k, j; simpl; try reflexivity. apply IH.
Qed.

Lemma open_at_put_document (p q : PageId) (doc : Document) (w : World) :
  open_at q (put_document p doc w) = open_at q w.
Proof.
  unfold open_at. destruct p as [|k], q as [|j]; simpl; try reflexivity.
  - now destruct (state_page w).
  - rewrite nth_error_update_at.
    destruct (Nat.eqb k j); [|reflexivity].
    now destruct (nth_error (allPages w) j) as [[pg|]|].
Qed.

(** A click search leaves every page as it is. *)
Lemma click_keeps_pages (target : string) (w : World) :
  same_pages w (final (search (click_pass target) w)).
Proof.
  apply (keeps_search same_pages (fun _ _ => True)); auto using same_pages_refl.
  - apply same_pages_trans.
  - intros s w0 pg b doc' acts Hin Hp Hr. split; [|apply Forall_True].
    apply click_script_document in Hr as ->;
      [rewrite (put_document_same _ _ _ Hp); apply same_pages_refl|].
    destruct Hin as [<- | [<- | []]]; reflexivity.
  - intros k w0 pg b doc' acts Hp _ Hr. split; [|apply Forall_True].
    apply click_script_document in Hr as ->; [|reflexivity].
    rewrite (put_document_same _ _ _ Hp). apply same_pages_refl.
Qed.

(** A search changes nothing in a world but values. *)
Lemma search_keeps_erased (c : Pass) (w : World) :
  erased (final (search c w)) = erased w.
Proof.
  apply (keeps_search (fun w w' => erased w' = erased w) (fun _ _ => True));
    auto using erased_same_pages.
  - intros w1 w2 w3 H1 H2. congruence.
  - intros s w0 pg b doc' acts _ Hp Hr. split; [|apply Forall_True].
    apply (erased_put_document _ _ _ pg Hp). now apply run_script_erased in Hr.
  - intros k w0 pg b doc' acts Hp _ Hr. split; [|apply Forall_True].
    apply (erased_put_document _ _ _ pg Hp). now apply run_script_erased in Hr.
Qed.

(** A search sends nothing to a popup that is closed or null. *)
Lemma search_on_open_popups (c : Pass) (w : World) :
  Forall (on_open_popup w) (emitted (search c w)).
Proof.
  apply (keeps_search same_openness on_open_popup); try (intros; exact I).
  - intros w0 p. reflexivity.
  - intros w1 w2 w3 H1 H2 p. now rewrite H2, H1.
  - intros w0 w1 Hs p. unfold open_at. now rewrite (same_pages_page_of w0 w1 p Hs).
  - intros w0 w1 ev HR. destruct ev as [| [|k] | [|k] |]; simpl; auto;
      now rewrite (HR (Popup k)).
  - intros w0 k pg Hp Ho. simpl. unfold open_at. cbn [page_of].
    simpl in Hp. rewrite Hp. now rewrite Ho.
  - intros s w0 pg b doc' acts _ _ _. split.
    + intros p. apply open_at_put_document.
    + apply Forall_forall. intros a _. exact I.
  - intros k w0 pg b doc' acts Hp Ho _. split.
    + intros p. apply open_at_put_document.
    + apply Forall_forall. intros a _. simpl. unfold open_at. cbn [page_of].
      simpl in Hp. rewrite Hp. now rewrite Ho.
Qed.

End CallInvariants.

Section MainPageFilters.

Lemma Forall_and {A : Type} (P Q : A -> Prop) (l : list A) :
  Forall P l -> Forall Q l -> Forall (fun x => P x /\ Q x) l.
Proof.
  intros HP HQ. apply Forall_forall. intros x Hx.
  rewrite Forall_forall in HP, HQ. split; auto.
Qed.

Lemma click_main_filtered (target : string) (w : World) :
  Forall main_click_filtered (emitted (search (click_pass target) w)).
Proof.
  apply (keeps_search (fun _ _ => True) (fun _ => main_click_filtered));
    try (intros; exact I); auto.
  - intros s w0 pg b doc' acts Hin _ Hr. split; [exact I|].
    pose proof (run_script_acts s _ _ _ _ Hr) as Hok.
    destruct (run_script_one_node s _ _ _ _ Hr) as (f & i & el & Hf & Hone).
    pose proof (Forall_and _ _ _ Hok Hone) as H.
    eapply Forall_impl; [|exact H].
    intros a [(_ & Hc & _) (Hfa & _ & _)]. simpl.
    destruct Hin as [<- | [<- | []]]; simpl in Hc, Hf.
    + unfold click_main_cond in Hc.
      apply andb_prop in Hc as [_ Hc]. apply andb_prop in Hc as [Hb Hs].
      now split.
    + unfold click_iframe_cond in Hc. apply andb_prop in Hc as [_ Hb].
      split; [exact Hb|]. intros Hn. congruence.
  - intros k w0 pg b doc' acts _ _ _. split; [exact I|].
    apply Forall_forall. intros a _. exact I.
Qed.

Lemma fill_main_filtered (target value : string) (w : World) :
  Forall main_fill_filtered (emitted (search (fill_pass target value) w)).
Proof.
  apply (keeps_search (fun _ _ => True) (fun _ => main_fill_filtered));
    try (intros; exact I); auto.
  - intros s w0 pg b doc' acts Hin _ Hr. split; [exact I|].
    pose proof (run_script_acts s _ _ _ _ Hr) as Hok.
    destruct (run_script_one_node s _ _ _ _ Hr) as (f & i & el & Hf & Hone).
    pose proof (Forall_and _ _ _ Hok Hone) as H.
    eapply Forall_impl; [|exact H].
    intros a [(_ & Hc & _) (Hfa & _ & _)]. simpl. intros Hn.
    destruct Hin as [<- | [<- | []]]; simpl in Hc, Hf.
    + unfold fill_main_cond in Hc.
      apply andb_prop in Hc as [_ Hc]. apply andb_prop in Hc as [Hc Hd].
      apply andb_prop in Hc as [Hb Hs].
      repeat split; auto. now destruct (disabled (ev_elem a)).
    + congruence.
  - intros k w0 pg b doc' acts _ _ _. split; [exact I|].
    apply Forall_forall. intros a _. exact I.
Qed.

End MainPageFilters.

Section TrueMeansActed.

Lemma evaluate_true_acted (p : PageId) (s : Script) (w : World) :
  outcome (evaluate p s w) = Returned true ->
  actions (emitted (evaluate p s w)) <> [].
Proof.
  destruct (evaluate_inv p s w)
    as (w1 & _ & _ & [(e & -> & _) | (pg & b & doc' & acts & _ & Hr & ->)]);
    cbn [outcome emitted]; [discriminate|].
  intros H. injection H as ->. apply run_script_hit_acts in Hr.
  cbn [actions]. rewrite actions_dom. now destruct acts.
Qed.

Lemma acted_app_l (l1 l2 : list Event) :
  actions l1 <> [] -> actions (l1 ++ l2) <> [].
Proof.
  rewrite actions_app. destruct (actions l1); [congruence | discriminate].
Qed.

Lemma acted_app_r (l1 l2 : list Event) :
  actions l2 <> [] -> actions (l1 ++ l2) <> [].
Proof.
  rewrite actions_app. intros H E. apply app_eq_nil in E as [_ E]. congruence.
Qed.

(** A scan followed by "if it found, finish; otherwise go on" returns
    [true] only after an action. *)
Lemma true_after_scan (p : PageId) (s : Script) (tail rest : M bool) (w : World) :
  (forall w1, outcome (rest w1) = Returned true ->
              actions (emitted (rest w1)) <> []) ->
  outcome (bind (evaluate p s) (fun hit => if hit then tail else rest) w)
  = Returned true ->
  actions (emitted (bind (evaluate p s) (fun hit => if hit then tail else rest) w))
  <> [].
Proof.
  intros Hrest. unfold bind.
  pose proof (evaluate_true_acted p s w) as He.
  destruct (outcome (evaluate p s w)) as [[|]|e]; cbn [outcome emitted];
    try discriminate; intros H.
  - apply acted_app_l. now apply He.
  - apply acted_app_r. now apply Hrest.
Qed.

Lemma gets_bind_true_acted {A : Type} (f : World -> A) (k : A -> M bool)
  (w : World) :
  (outcome (k (f w) w) = Returned true -> actions (emitted (k (f w) w)) <> []) ->
  outcome (bind (gets f) k w) = Returned true ->
  actions (emitted (bind (gets f) k w)) <> [].
Proof. intros H. exact H. Qed.

Lemma try_catch_true_acted (m : M bool) (h : JsError -> M bool) (w : World) :
  (outcome (m w) = Returned true -> actions (emitted (m w)) <> []) ->
  (forall e w1, outcome (h e w1) <> Returned true) ->
  outcome (try_catch m h w) = Returned true ->
  actions (emitted (try_catch m h w)) <> [].
Proof.
  intros Hm Hh. unfold try_catch.
  destruct (outcome (m w)) as [b|e] eqn:E; cbn [outcome emitted];
    [now rewrite E|].
  intros H. now apply Hh in H.
Qed.

Lemma false_is_not_true (w : World) : outcome (ret false w) <> Returned true.
Proof. discriminate. Qed.

Variable c : Pass.

Lemma sweep_popup_true_acted (k : nat) (w : World) :
  outcome (sweep_popup c k w) = Returned true ->
  actions (emitted (sweep_popup c k w)) <> [].
Proof.
  unfold sweep_popup. apply gets_bind_true_acted.
  destruct (page_of (Popup k) w) as [pg|];
    [|intros H; now apply false_is_not_true in H].
  destruct (negb (isClosed pg));
    [|intros H; now apply false_is_not_true in H].
  apply try_catch_true_acted; [|intros e w1; apply false_is_not_true].
  apply true_after_scan. intros w1 H. now apply false_is_not_true in H.
Qed.

Lemma sweep_popups_true_acted (remaining k : nat) (w : World) :
  outcome (sweep_popups c k remaining w) = Returned true ->
  actions (emitted (sweep_popups c k remaining w)) <> [].
Proof.
  revert k w; induction remaining as [|n IH]; intros k w; cbn [sweep_popups];
    [intros H; now apply false_is_not_true in H|].
  unfold bind. pose proof (sweep_popup_true_acted k w) as Hk.
  destruct (outcome (sweep_popup c k w)) as [[|]|e]; cbn [outcome emitted];
    try discriminate; intros H.
  - apply acted_app_l. now apply Hk.
  - apply acted_app_r. now apply IH.
Qed.

Lemma after_main_true_acted (w : World) :
  outcome (after_main c false w) = Returned true ->
  actions (emitted (after_main c false w)) <> [].
Proof.
  unfold after_main. apply true_after_scan. intros w1.
  apply gets_bind_true_acted. unfold bind at 1 3.
  pose proof (sweep_popups_true_acted (length (allPages w1)) 0 w1) as Hp.
  destruct (outcome (sweep_popups c 0 (length (allPages w1)) w1)) as [[|]|e];
    cbn [outcome emitted ret]; try discriminate; intros H;
    first [ rewrite app_nil_r; now apply Hp
          | unfold bind, log, emit, ret in H; cbn [outcome] in H; discriminate ].
Qed.

(** A search returns [true] only when it has acted on an element. *)
Lemma search_true_acted (w : World) :
  outcome (search c w) = Returned true ->
  actions (emitted (search c w)) <> [].
Proof.
  rewrite search_unfold. destruct (page_unavailable w); [discriminate|].
  cbn [outcome emitted actions]. apply try_catch_true_acted.
  - unfold sweep, bind.
    pose proof (evaluate_true_acted MainPage (main_script c) w) as He.
    destruct (outcome (evaluate MainPage (main_script c) w)) as [[|]|e];
      cbn [outcome emitted]; try discriminate; intros H.
    + apply acted_app_l. now apply He.
    + apply acted_app_r. now apply after_main_true_acted.
  - intros e w1. unfold on_error, bind, log, emit, ret. cbn [outcome].
    discriminate.
Qed.

End TrueMeansActed.

(** *** Where a search finds its candidate *)

Section Candidates.

Variables sel cond : Element -> bool.

Lemma first_candidate_from (doc : Document) (n i : nat) (el : Element) :
  nth_error doc i = Some el -> sel el = true -> cond el = true ->
  (forall j e, j < i -> nth_error doc j = Some e -> sel e = true ->
               cond e = false) ->
  find (fun r => cond (snd r))
       (filter (fun r => sel (snd r)) (indexed_from n doc))
  = Some (n + i, el).
Proof.
  revert n i; induction doc as [|x doc IH]; intros n [|i] Hn Hs Hc Hfirst;
    simpl in Hn; try discriminate.
  - injection Hn as ->. simpl. rewrite Hs. simpl. rewrite Hc.
    now rewrite Nat.add_0_r.
  - simpl. rewrite Nat.add_succ_r, <- Nat.add_succ_l.
    assert (Hrest : find (fun r => cond (snd r))
                      (filter (fun r => sel (snd r)) (indexed_from (S n) doc))
                    = Some (S n + i, el)).
    { apply IH; auto. intros j e Hj He. apply (Hfirst (S j) e); [lia | exact He]. }
    destruct (sel x) eqn:Ex; [|exact Hrest].
    simpl. rewrite (Hfirst 0 x); [exact Hrest | lia | reflexivity | exact Ex].
Qed.

(** The loop stops at the first element, in document order, that is
    selected and passes the condition. *)
Lemma first_candidate_first (doc : Document) (i : nat) (el : Element) :
  nth_error doc i = Some el -> sel el = true -> cond el = true ->
  (forall j e, j < i -> nth_error doc j = Some e -> sel e = true ->
               cond e = false) ->
  first_candidate sel cond doc = Some (i, el).
Proof.
  intros. unfold first_candidate, querySelectorAll.
  now rewrite (first_candidate_from doc 0 i el).
Qed.

End Candidates.

Section WhereFound.







End WhereFound.

(** *** Runs that differ only in what they log *)

Section SameEffect.

Lemma effect_bind {A B : Type} (m m' : M A) (k k' : A -> M B) (w : World) :
  effect (m w) = effect (m' w) ->
  (forall a w1, effect (k a w1) = effect (k' a w1)) ->
  effect (bind m k w) = effect (bind m' k' w).
Proof.
  unfold effect. intros H Hk. injection H as Ho Hf Ha.
  unfold bind. rewrite <- Ho, <- Hf.
  destruct (outcome (m w)) as [a|e]; cbn [outcome final emitted];
    [|now rewrite Ha].
  specialize (Hk a (final (m w))). injection Hk as Ho' Hf' Ha'.
  now rewrite !actions_app, Ha, Ho', Hf', Ha'.
Qed.

Lemma effect_try_catch {A : Type} (m m' : M A) (h h' : JsError -> M A) (w : World) :
  effect (m w) = effect (m' w) ->
  (forall e w1, effect (h e w1) = effect (h' e w1)) ->
  effect (try_catch m h w) = effect (try_catch m' h' w).
Proof.
  unfold effect at 1 2. intros H Hh. injection H as Ho Hf Ha.
  unfold try_catch. rewrite <- Ho.
  destruct (outcome (m w)) as [a|e] eqn:E.
  - unfold effect. now rewrite E, <- Ho, Hf, Ha.
  - unfold effect. cbn [outcome final emitted]. rewrite <- Hf.
    specialize (Hh e (final (m w))). unfold effect in Hh.
    injection Hh as Ho' Hf' Ha'.
    now rewrite !actions_app, Ha, Ho', Hf', Ha'.
Qed.

(** Two scripts that run alike in every document evaluate alike. *)
Lemma effect_evaluate (p : PageId) (s s' : Script) (w : World) :
  (forall doc, run_script s doc = run_script s' doc) ->
  effect (evaluate p s w) = effect (evaluate p s' w).
Proof.
  intros H. unfold evaluate.
  apply effect_bind; [reflexivity|]. intros _ w1.
  apply effect_bind; [reflexivity|]. intros _ w2.
  apply effect_bind; [reflexivity|]. intros [pg|] w3; [|reflexivity].
  now rewrite H.
Qed.

Variables c c' : Pass.
Hypothesis same_main : forall doc,
    run_script (main_script c) doc = run_script (main_script c') doc.
Hypothesis same_iframes : forall doc,
    run_script (iframe_script c) doc = run_script (iframe_script c') doc.
Hypothesis same_popup : forall doc,
    run_script (popup_script c) doc = run_script (popup_script c') doc.
Hypothesis same_pause : pause c = pause c'.

Lemma effect_found (msg msg' : string) (p : PageId) (w : World) :
  effect (bind (log msg)
            (fun _ => bind (waitForTimeout p (pause c)) (fun _ => ret true)) w)
  = effect (bind (log msg')
              (fun _ => bind (waitForTimeout p (pause c')) (fun _ => ret true)) w).
Proof.
  rewrite same_pause. apply effect_bind; [reflexivity|]. intros _ w1.
  reflexivity.
Qed.

Lemma effect_sweep_popup (k : nat) (w : World) :
  effect (sweep_popup c k w) = effect (sweep_popup c' k w).
Proof.
  unfold sweep_popup. apply effect_bind; [reflexivity|].
  intros [pg|] w1; [|reflexivity].
  destruct (negb (isClosed pg)); [|reflexivity].
  apply effect_try_catch; [|reflexivity].
  apply effect_bind; [now apply effect_evaluate|].
  intros [|] w2; [apply effect_found | reflexivity].
Qed.

Lemma effect_sweep_popups (remaining k : nat) (w : World) :
  effect (sweep_popups c k remaining w) = effect (sweep_popups c' k remaining w).
Proof.
  revert k w; induction remaining as [|n IH]; intros k w; cbn [sweep_popups];
    [reflexivity|].
  apply effect_bind; [apply effect_sweep_popup|].
  intros [|] w1; [reflexivity | apply IH].
Qed.

(** Two passes whose scripts run alike, with the same pause, have the
    same result, final world and actions from every world. *)
Lemma effect_search (w : World) : effect (search c w) = effect (search c' w).
Proof.
  unfold search. apply effect_bind; [reflexivity|].
  intros [|] w1; [reflexivity|].
  apply effect_bind; [reflexivity|]. intros _ w2.
  apply effect_try_catch.
  - unfold sweep. apply effect_bind; [now apply effect_evaluate|].
    intros [|] w3; unfold after_main; [apply effect_found|].
    apply effect_bind; [now apply effect_evaluate|].
    intros [|] w4; [apply effect_found|].
    apply effect_bind; [reflexivity|]. intros n w5.
    apply effect_bind; [apply effect_sweep_popups|].
    intros [|] w6; reflexivity.
  - intros e w3. reflexivity.
Qed.

End SameEffect.

(** *** The scans do not read values *)

Section ValuesUnread.

Lemma erased_eq (f : Element -> bool) (x y : Element) :
  (forall e, f (erase_values e) = f e) ->
  erase_values x = erase_values y -> f x = f y.
Proof. intros Hf H. now rewrite <- (Hf x), <- (Hf y), H. Qed.

Lemma script_selects_erased (s : Script) (e : Element) :
  script_selects s (erase_values e) = script_selects s e.
Proof. destruct s, e; reflexivity. Qed.

Lemma script_cond_erased (s : Script) (e : Element) :
  script_cond s (erase_values e) = script_cond s e.
Proof. destruct s, e; reflexivity. Qed.

Lemma script_settles_erased (s : Script) (e : Element) :
  script_settles s (erase_values e) = script_settles s e.
Proof. destruct s, e; reflexivity. Qed.

Lemma sel_iframe_erased (e : Element) : sel_iframe (erase_values e) = sel_iframe e.
Proof. now destruct e. Qed.

Variables sel cond : Element -> bool.
Hypothesis sel_erased : forall e, sel (erase_values e) = sel e.
Hypothesis cond_erased : forall e, cond (erase_values e) = cond e.
Variable settles : Element -> bool.
Hypothesis settles_erased : forall e, settles (erase_values e) = settles e.

Lemma indexed_from_erased (d1 d2 : Document) (n : nat) :
  map erase_values d1 = map erase_values d2 ->
  Forall2 same_node (indexed_from n d1) (indexed_from n d2).
Proof.
  revert d2 n; induction d1 as [|x d1 IH]; intros [|y d2] n H; simpl in *;
    try discriminate; [constructor|].
  injection H as Hx Hd. constructor; [now split | now apply IH].
Qed.

Lemma filter_same_node (f : Element -> bool) (l1 l2 : list NodeRef) :
  (forall e, f (erase_values e) = f e) ->
  Forall2 same_node l1 l2 ->
  Forall2 same_node (filter (fun r => f (snd r)) l1)
          (filter (fun r => f (snd r)) l2).
Proof.
  intros Hf H. induction H as [|r1 r2 l1 l2 [Hi He] _ IH]; simpl; [constructor|].
  rewrite (erased_eq f _ _ Hf He).
  destruct (f (snd r2)); [constructor; [now split | exact IH] | exact IH].
Qed.

Lemma querySelectorAll_erased (f : Element -> bool) (d1 d2 : Document) :
  (forall e, f (erase_values e) = f e) ->
  map erase_values d1 = map erase_values d2 ->
  Forall2 same_node (querySelectorAll f d1) (querySelectorAll f d2).
Proof.
  intros Hf H. unfold querySelectorAll.
  apply filter_same_node; [exact Hf | now apply indexed_from_erased].
Qed.

Lemma find_same_node (l1 l2 : list NodeRef) :
  Forall2 same_node l1 l2 ->
  match find (fun r => cond (snd r)) l1, find (fun r => cond (snd r)) l2 with
  | Some r1, Some r2 => same_node r1 r2
  | None, None => True
  | _, _ => False
  end.
Proof.
  intros H. induction H as [|r1 r2 l1 l2 [Hi He] _ IH]; simpl; [exact I|].
  rewrite (erased_eq cond _ _ cond_erased He).
  destruct (cond (snd r2)); [now split | exact IH].
Qed.

(** In two documents that differ at most in values, a loop stops at the
    same position, or in neither. *)
Lemma first_candidate_erased (d1 d2 : Document) :
  map erase_values d1 = map erase_values d2 ->
  match first_candidate sel cond d1, first_candidate sel cond d2 with
  | Some r1, Some r2 => same_node r1 r2
  | None, None => True
  | _, _ => False
  end.
Proof.
  intros H. unfold first_candidate. apply find_same_node.
  now apply querySelectorAll_erased.
Qed.

Lemma content_erased (x y : Element) :
  erase_values x = erase_values y ->
  match content x, content y with
  | SameOrigin d1, SameOrigin d2 => map erase_values d1 = map erase_values d2
  | NoDocument, NoDocument => True
  | CrossOrigin, CrossOrigin => True
  | _, _ => False
  end.
Proof.
  destruct x as [? ? ? ? ? ? ? ? ? ? [| |d1]], y as [? ? ? ? ? ? ? ? ? ? [| |d2]];
    simpl; intros H; try exact I; try discriminate.
  now injection H.
Qed.

Lemma scan_iframes_erased (l1 l2 : list NodeRef) :
  Forall2 same_node l1 l2 ->
  match scan_iframes sel cond settles l1, scan_iframes sel cond settles l2 with
  | Some (j1, r1), Some (j2, r2) => j1 = j2 /\ same_node r1 r2
  | None, None => True
  | _, _ => False
  end.
Proof.
  intros H. induction H as [|[j1 x] [j2 y] l1 l2 [Hi He] _ IH]; simpl; [exact I|].
  simpl in Hi, He. subst j2. pose proof (content_erased x y He) as Hc.
  destruct (content x) as [| |d1], (content y) as [| |d2]; try contradiction;
    try exact IH.
  pose proof (first_candidate_erased d1 d2 Hc) as Hf.
  destruct (first_candidate sel cond d1) as [r1|],
           (first_candidate sel cond d2) as [r2|]; try contradiction;
    [|exact IH].
  rewrite (erased_eq settles _ _ settles_erased (proj2 Hf)).
  destruct (settles (snd r2)); [now split | exact IH].
Qed.

End ValuesUnread.

Section ValuesAndScripts.

(** In two documents that differ at most in values, a script finds or
    misses alike and acts on the same node. *)
Lemma run_script_values (s : Script) (d1 d2 : Document) :
  map erase_values d1 = map erase_values d2 ->
  script_hits s d1 = script_hits s d2
  /\ map erase_action (script_actions s d1) = map erase_action (script_actions s d2).
Proof.
  intros H. unfold script_hits, script_actions.
  pose proof (first_candidate_erased (script_selects s) (script_cond s)
                (script_selects_erased s) (script_cond_erased s) d1 d2 H) as Hf.
  pose proof (scan_iframes_erased (script_selects s) (script_cond s)
                (script_selects_erased s) (script_cond_erased s)
                (script_settles s) (script_settles_erased s) _ _
                (querySelectorAll_erased sel_iframe d1 d2 sel_iframe_erased H))
    as Hi.
  destruct s; simpl in *;
    try (destruct (first_candidate _ _ d1) as [r1|],
                  (first_candidate _ _ d2) as [r2|]; try contradiction;
         [destruct Hf as [Hn He]|]; simpl; split; try reflexivity;
         unfold erase_action, act; simpl; now rewrite ?Hn, ?He);
    (destruct (scan_iframes _ _ _ (querySelectorAll sel_iframe d1)) as [[j1 r1]|],
              (scan_iframes _ _ _ (querySelectorAll sel_iframe d2)) as [[j2 r2]|];
     try contradiction;
     [destruct Hi as [-> [Hn He]]|]; simpl; split; try reflexivity;
     unfold erase_action, act; simpl; now rewrite ?Hn, ?He).
Qed.

Lemma update_at_twice {A : Type} (f g : A -> A) (l : list A) (i : nat) :
  update_at i f (update_at i g l) = update_at i (fun x => f (g x)) l.
Proof.
  revert i; induction l as [|x l IH]; intros [|i]; simpl; try reflexivity.
  now rewrite IH.
Qed.

Lemma update_at_ext {A : Type} (f g : A -> A) (l : list A) (i : nat) :
  (forall x, f x = g x) -> update_at i f l = update_at i g l.
Proof.
  intros H. revert i; induction l as [|x l IH]; intros [|i]; simpl;
    try reflexivity; [now rewrite H | now rewrite IH].
Qed.

Lemma assign_twice (r r' : NodeRef) (v : string) (doc : Document) :
  fst r' = fst r -> assign r' v (assign r v doc) = assign r v doc.
Proof.
  intros H. unfold assign. rewrite H, update_at_twice.
  apply update_at_ext. intros x. now destruct x.
Qed.

Lemma assign_in_frame_twice (j : nat) (r r' : NodeRef) (v : string) (doc : Document) :
  fst r' = fst r ->
  assign_in_frame j r' v (assign_in_frame j r v doc) = assign_in_frame j r v doc.
Proof.
  intros H. unfold assign_in_frame. rewrite update_at_twice.
  apply update_at_ext. intros x.
  destruct x as [? ? ? ? ? ? ? ? ? ? [| |d]]; simpl; try reflexivity.
  now rewrite (assign_twice r r' v d H).
Qed.

(** Running a script again in the document it left changes nothing. *)
Lemma script_document_idem (s : Script) (doc : Document) :
  script_document s (script_document s doc) = script_document s doc.
Proof.
  unfold script_document.
  destruct (run_script s doc) as [[b doc'] acts] eqn:Hr. cbn [fst snd].
  pose proof (run_script_erased _ _ _ _ _ Hr) as He.
  pose proof (first_candidate_erased (script_selects s) (script_cond s)
                (script_selects_erased s) (script_cond_erased s) doc' doc He)
    as Hf.
  pose proof (scan_iframes_erased (script_selects s) (script_cond s)
                (script_selects_erased s) (script_cond_erased s)
                (script_settles s) (script_settles_erased s) _ _
                (querySelectorAll_erased sel_iframe doc' doc sel_iframe_erased He))
    as Hi.
  destruct s; simpl in *;
    try (destruct (first_candidate _ _ doc) as [r|];
         destruct (first_candidate _ _ doc') as [r'|];
         try contradiction; inversion Hr; subst; cbn [fst snd];
         try reflexivity;
         now rewrite (assign_twice r r' _ doc (proj1 Hf)));
    (destruct (scan_iframes _ _ _ (querySelectorAll sel_iframe doc)) as [[j r]|];
     destruct (scan_iframes _ _ _ (querySelectorAll sel_iframe doc')) as [[j' r']|];
     try contradiction; inversion Hr; subst; cbn [fst snd];
     try reflexivity; destruct Hi as [-> Hn];
     now rewrite (assign_in_frame_twice j r r' _ doc (proj1 Hn))).
Qed.

End ValuesAndScripts.

Section ValuesAndWorlds.

Lemma page_of_erased (w1 w2 : World) (p : PageId) :
  erased w1 = erased w2 ->
  option_map erase_page (page_of p w1) = option_map erase_page (page_of p w2).
Proof.
  unfold erased. intros H. injection H as Hs Ha. destruct p as [|k]; simpl;
    [exact Hs|].
  assert (Hk : nth_error (map (option_map erase_page) (allPages w1)) k
               = nth_error (map (option_map erase_page) (allPages w2)) k)
    by now rewrite Ha.
  rewrite !nth_error_map in Hk.
  destruct (nth_error (allPages w1) k) as [x|], (nth_error (allPages w2) k) as [y|];
    simpl in Hk; try discriminate; [now injection Hk | reflexivity].
Qed.

Lemma first_popup_erased (s : Script) (w1 w2 : World) (remaining k : nat) :
  erased w1 = erased w2 ->
  first_popup s w1 k remaining = first_popup s w2 k remaining.
Proof.
  intros H. revert k; induction remaining as [|n IH]; intros k;
    cbn [first_popup]; [reflexivity|].
  pose proof (page_of_erased w1 w2 (Popup k) H) as Hp.
  destruct (page_of (Popup k) w1) as [pg1|], (page_of (Popup k) w2) as [pg2|];
    simpl in Hp; try discriminate; [|apply IH].
  injection Hp as Hc Hd. rewrite Hc.
  rewrite (proj1 (run_script_values s _ _ Hd)). now rewrite IH.
Qed.

(** Where a search settles does not depend on the values in the pages. *)
Lemma resolve_erased (c : Pass) (w1 w2 : World) :
  erased w1 = erased w2 -> resolve c w1 = resolve c w2.
Proof.
  intros H. unfold resolve.
  pose proof (page_of_erased w1 w2 MainPage H) as Hp. simpl in Hp.
  assert (Hlen : length (allPages w1) = length (allPages w2)).
  { unfold erased in H. injection H as _ Ha.
    now rewrite <- (length_map (option_map erase_page) (allPages w1)), Ha,
      length_map. }
  destruct (state_page w1) as [pg1|], (state_page w2) as [pg2|];
    simpl in Hp; try discriminate; [|reflexivity].
  injection Hp as Hc Hd. rewrite Hc.
  rewrite (proj1 (run_script_values (main_script c) _ _ Hd)).
  rewrite (proj1 (run_script_values (iframe_script c) _ _ Hd)).
  now rewrite (first_popup_erased _ w1 w2 _ 0 H), Hlen.
Qed.

Lemma applied_actions_erased (p : PageId) (s : Script) (w1 w2 : World) :
  erased w1 = erased w2 ->
  map erase_page_action (applied_actions p s w1)
  = map erase_page_action (applied_actions p s w2).
Proof.
  intros H. unfold applied_actions.
  pose proof (page_of_erased w1 w2 p H) as Hp.
  destruct (page_of p w1) as [pg1|], (page_of p w2) as [pg2|];
    simpl in Hp; try discriminate; [|reflexivity].
  injection Hp as _ Hd.
  rewrite !map_map. unfold erase_page_action. cbn [fst snd].
  rewrite <- !(map_map erase_action (pair p)).
  now rewrite (proj2 (run_script_values s _ _ Hd)).
Qed.

Lemma page_of_put_document (p : PageId) (d : Document) (w : World) :
  page_of p (put_document p d w)
  = option_map (set_page_document d) (page_of p w).
Proof.
  destruct p as [|k]; simpl; [reflexivity|].
  rewrite nth_error_update_at, Nat.eqb_refl.
  now destruct (nth_error (allPages w) k) as [[pg|]|].
Qed.

Lemma put_document_twice (p : PageId) (d : Document) (w : World) :
  put_document p d (put_document p d w) = put_document p d w.
Proof.
  destruct p as [|k]; simpl.
  - now destruct (state_page w).
  - f_equal. rewrite update_at_twice. apply update_at_ext.
    now intros [pg|].
Qed.

(** Running the script of a pass again in the page it ran in changes
    nothing. *)
Lemma applied_twice (p : PageId) (s : Script) (w : World) :
  applied p s (applied p s w) = applied p s w.
Proof.
  unfold applied. destruct (page_of p w) as [pg|] eqn:Ep; [|now rewrite Ep].
  rewrite page_of_put_document, Ep. simpl.
  now rewrite script_document_idem, put_document_twice.
Qed.

Lemma applied_erased (p : PageId) (s : Script) (w : World) :
  erased (applied p s w) = erased w.
Proof.
  unfold applied. destruct (page_of p w) as [pg|] eqn:Ep; [|reflexivity].
  apply (erased_put_document _ _ _ pg Ep). unfold script_document.
  destruct (run_script s (document pg)) as [[b d] acts] eqn:Hr.
  now apply run_script_erased in Hr.
Qed.

Lemma resolved_world_erased (c : Pass) (w : World) :
  erased (resolved_world c w) = erased w.
Proof.
  unfold resolved_world. destruct (resolve c w) as [[p s]|]; [|reflexivity].
  apply applied_erased.
Qed.

End ValuesAndWorlds.

(** *** Order of the contexts, single node, late failures *)

Section OrderFacts.


Lemma applied_actions_one_node (p : PageId) (s : Script) (w : World) :
  exists f i el,
    (if script_in_frames s then f <> None else f = None)
    /\ Forall (fun a => fst a = p /\ ev_frame (snd a) = f
                        /\ ev_node (snd a) = i /\ ev_elem (snd a) = el)
              (applied_actions p s w).
Proof.
  unfold applied_actions, script_actions.
  destruct (page_of p w) as [pg|].
  - destruct (run_script s (document pg)) as [[b d] acts] eqn:Hr.
    destruct (run_script_one_node s _ _ _ _ Hr) as (f & i & el & Hf & Hone).
    exists f, i, el. split; [exact Hf|]. cbn [snd]. apply Forall_map.
    eapply Forall_impl; [|exact Hone]. intros a H. now split.
  - exists (if script_in_frames s then Some 0 else None), 0,
      (mkElement "" [] "" 0 0 "" "" false "" [] NoDocument).
    split; [destruct (script_in_frames s); [discriminate | reflexivity]|].
    constructor.
Qed.

Lemma resolved_actions_one_node (c : Pass) (w : World) :
  on_one_node (resolved_actions c w).
Proof.
  unfold on_one_node, resolved_actions.
  destruct (resolve c w) as [[p s]|].
  - destruct (applied_actions_one_node p s w) as (f & i & el & _ & H).
    now exists p, f, i, el.
  - exists MainPage, None, 0, (mkElement "" [] "" 0 0 "" "" false "" [] NoDocument).
    constructor.
Qed.






(** The popup loop never raises. *)
Lemma sweep_popups_returns (c : Pass) (remaining k : nat) (w : World) :
  exists b, outcome (sweep_popups c k remaining w) = Returned b.
Proof.
  revert k w; induction remaining as [|n IH]; intros k w; cbn [sweep_popups];
    [now exists false|].
  unfold bind.
  assert (Hk : exists b, outcome (sweep_popup c k w) = Returned b).
  { unfold sweep_popup, bind at 1, gets. cbn [outcome final emitted].
    destruct (page_of (Popup k) w) as [pg|]; [|now exists false].
    destruct (negb (isClosed pg)); [|now exists false].
    cbn [outcome]. rewrite try_catch_outcome.
    match goal with
    | |- context [match outcome ?r with _ => _ end] =>
        destruct (outcome r) as [b|e]
    end; [now exists b | now exists false]. }
  destruct Hk as [[|] ->]; cbn [outcome]; [now exists true | apply IH].
Qed.

(** An evaluation that settles, with the failures still pending. *)
Lemma evaluate_settles (p : PageId) (s : Script) (w : World) (pg : Page)
  (fs : list bool) :
  faults w = false :: fs -> page_of p w = Some pg ->
  evaluate p s w
  = mkRun (Returned (script_hits s (document pg)))
          (put_document p (script_document s (document pg))
             (mkWorld (state_page w) (allPages w) fs))
          (Evaluated p s :: map (Dom p) (script_actions s (document pg))).
Proof.
  intros Hf Hp. unfold evaluate, bind, emit, settle, gets.
  cbn [outcome final emitted app]. rewrite Hf. cbn [outcome final emitted app].
  assert (Hp' : page_of p (mkWorld (state_page w) (allPages w) fs) = Some pg)
    by (destruct p; exact Hp).
  rewrite Hp'. unfold script_hits, script_document, script_actions.
  destruct (run_script s (document pg)) as [[b d] acts].
  unfold set_document, emit_all, ret. cbn [outcome final emitted app fst snd].
  now rewrite app_nil_r.
Qed.

Lemma bind_run {A B : Type} (m : M A) (k : A -> M B) (w : World) (a : A)
  (w1 : World) (evs : list Event) :
  m w = mkRun (Returned a) w1 evs ->
  bind m k w
  = mkRun (outcome (k a w1)) (final (k a w1)) (evs ++ emitted (k a w1)).
Proof. intros H. unfold bind. now rewrite H. Qed.

(** When the pause after a hit in the main document rejects, the search
    returns [false] and has acted. *)
Lemma search_late_failure (c : Pass) (w : World) (pg : Page) (fs : list bool) :
  state_page w = Some pg -> isClosed pg = false ->
  hits (main_script c) (document pg) ->
  faults w = false :: true :: fs ->
  outcome (search c w) = Returned false
  /\ actions (emitted (search c w))
     = map (pair MainPage) (script_actions (main_script c) (document pg)).
Proof.
  intros Hp Ho Hh Hf.
  unfold hits in Hh. fold (script_hits (main_script c) (document pg)) in Hh.
  assert (Hs : outcome (sweep c w)
               = Thrown (mkError "waitForTimeout: target closed")
               /\ actions (emitted (sweep c w))
                  = map (pair MainPage)
                        (script_actions (main_script c) (document pg))).
  { unfold sweep.
    rewrite (bind_run _ _ _ _ _ _ (evaluate_settles MainPage _ w pg _ Hf Hp)).
    rewrite Hh. unfold after_main, bind, log, emit, waitForTimeout, settle.
    cbn [outcome final emitted app faults put_document].
    split; [reflexivity|].
    cbn [actions]. rewrite actions_app, actions_dom. cbn [actions].
    now rewrite app_nil_r. }
  destruct Hs as [Hout Hacts].
  rewrite search_unfold. unfold page_unavailable. rewrite Hp, Ho.
  cbn [outcome emitted actions]. unfold try_catch. rewrite Hout.
  unfold on_error, bind, log, emit, ret. cbn [outcome final emitted app].
  split; [reflexivity|]. rewrite actions_app, Hacts. cbn [actions].
  now rewrite app_nil_r.
Qed.

End OrderFacts.

(* ================================================================== *)
(** ** Further properties, stated on the two functions *)
(* ================================================================== *)



Lemma no_pending_faults (sp : option Page) (ap : list (option Page)) :
  no_faults (mkWorld sp ap []).
Proof. intros b Hb. destruct Hb. Qed.




(** X1.  The only thing [fillWithRetry] assigns in any page is the value
    of elements: the world it leaves has the same pages, open or closed as
    before, with the same elements and frames, up to values. *)
Theorem fill_assigns_only_values (target text : string) (maxRetries : Z) (w : World) :
  erased (final (fillWithRetry target text maxRetries w)) = erased w.
Proof. rewrite fillWithRetry_shape. apply search_keeps_erased. Qed.

(** X2.  A popup that is closed, and an entry of [allPages] that is
    null, is passed over: every scan and every action that goes to a popup
    goes to one that is open. *)
Theorem closed_popups_are_skipped (target text : string) (maxRetries : Z) (w : World) :
  Forall (on_open_popup w) (emitted (clickWithRetry target maxRetries w))
  /\ Forall (on_open_popup w) (emitted (fillWithRetry target text maxRetries w)).
Proof.
  rewrite clickWithRetry_shape, fillWithRetry_shape.
  split; apply search_on_open_popups.
Qed.

(** X3.  The filters that the passes over the main page do apply hold of
    every action there, failures or not: an element clicked in the main
    page has a box, and is shown when it is in the main document itself; an
    element filled in the main document itself has a box, is shown and is
    enabled. *)
Theorem main_page_filters_hold (target text : string) (maxRetries : Z) (w : World) :
  Forall main_click_filtered (emitted (clickWithRetry target maxRetries w))
  /\ Forall main_fill_filtered (emitted (fillWithRetry target text maxRetries w)).
Proof.
  rewrite clickWithRetry_shape, fillWithRetry_shape.
  split; [apply click_main_filtered | apply fill_main_filtered].
Qed.

(** X4.  A call returns [true] only when it has acted on an element,
    whatever fails on the way. *)
Theorem true_means_acted (target text : string) (maxRetries : Z) (w : World) :
  (outcome (clickWithRetry target maxRetries w) = Returned true ->
   actions (emitted (clickWithRetry target maxRetries w)) <> [])
  /\ (outcome (fillWithRetry target text maxRetries w) = Returned true ->
      actions (emitted (fillWithRetry target text maxRetries w)) <> []).
Proof.
  rewrite clickWithRetry_shape, fillWithRetry_shape.
  split; apply search_true_acted.
Qed.

Lemma true_means_acted_witness :
  actions (emitted (clickWithRetry "submit" 1 framed_world)) <> [].
Proof.
  exact (proj1 (true_means_acted "submit" "" 1 framed_world) eq_refl).
Defined.



(** X6.  The pause after a hit is inside the [try] block: when the main
    document has a candidate, the scan settles and the pause that follows
    rejects, the call returns [false] although it has clicked (resp.
    filled) that candidate. *)
Theorem false_after_acting (target text : string) (maxRetries : Z) (w : World)
  (pg : Page) (fs : list bool) :
  state_page w = Some pg -> isClosed pg = false ->
  faults w = false :: true :: fs ->
  (hits (ClickMain target) (document pg) ->
   outcome (clickWithRetry target maxRetries w) = Returned false
   /\ actions (emitted (clickWithRetry target maxRetries w))
      = map (pair MainPage) (script_actions (ClickMain target) (document pg)))
  /\ (hits (FillMain target text) (document pg) ->
      outcome (fillWithRetry target text maxRetries w) = Returned false
      /\ actions (emitted (fillWithRetry target text maxRetries w))
         = map (pair MainPage)
               (script_actions (FillMain target text) (document pg))).
Proof.
  intros Hp Ho Hf. rewrite clickWithRetry_shape, fillWithRetry_shape.
  split; intros Hh.
  - exact (search_late_failure (click_pass target) w pg fs Hp Ho Hh Hf).
  - exact (search_late_failure (fill_pass target text) w pg fs Hp Ho Hh Hf).
Qed.

Lemma false_after_acting_witness :
  outcome (clickWithRetry "submit" 1 late_failure_world) = Returned false
  /\ actions (emitted (clickWithRetry "submit" 1 late_failure_world))
     = [(MainPage, act None (0, submit_button) ScrollIntoView);
        (MainPage, act None (0, submit_button) Click)].
Proof.
  exact (proj1 (false_after_acting "submit" "" 1 late_failure_world
                  (open_page [submit_button]) [] eq_refl eq_refl eq_refl)
           eq_refl).
Defined.



Lemma resolve_main (c : Pass) (w : World) (pg : Page) :
  state_page w = Some pg -> isClosed pg = false ->
  script_hits (main_script c) (document pg) = true ->
  resolve c w = Some (MainPage, main_script c).
Proof. intros Hp Ho Hh. unfold resolve. now rewrite Hp, Ho, Hh. Qed.

(** X8.  First match wins, in document order, and the main document
    comes first: when no call to the browser fails and the element at
    position [i] of the main document is the first clickable element that
    the main pass accepts, the call scrolls to and clicks that element and
    nothing else, whatever the iframes and the popups hold. *)
Theorem first_match_wins (target : string) (maxRetries : Z) (w : World)
  (pg : Page) (i : nat) (el : Element) :
  no_faults w -> state_page w = Some pg -> isClosed pg = false ->
  nth_error (document pg) i = Some el ->
  sel_clickable el = true -> click_main_cond (toLowerCase target) el = true ->
  (forall j e, j < i -> nth_error (document pg) j = Some e ->
               sel_clickable e = true ->
               click_main_cond (toLowerCase target) e = false) ->
  outcome (clickWithRetry target maxRetries w) = Returned true
  /\ actions (emitted (clickWithRetry target maxRetries w))
     = [(MainPage, act None (i, el) ScrollIntoView);
        (MainPage, act None (i, el) Click)].
Proof.
  intros Hn Hp Ho Hi Hs Hc Hfirst. rewrite clickWithRetry_shape.
  pose proof (first_candidate_first _ _ _ _ _ Hi Hs Hc Hfirst) as Hf.
  assert (Hh : script_hits (main_script (click_pass target)) (document pg) = true)
    by (unfold script_hits; simpl; now rewrite Hf).
  destruct (search_ok (click_pass target) w Hn) as (-> & _ & _ & ->).
  unfold resolved_actions. rewrite (resolve_main _ w pg Hp Ho Hh).
  split; [reflexivity|].
  unfold applied_actions, script_actions. cbn [page_of]. rewrite Hp.
  simpl. now rewrite Hf.
Qed.

Lemma first_match_wins_witness :
  outcome (clickWithRetry "save" 1 save_buttons_world) = Returned true
  /\ actions (emitted (clickWithRetry "save" 1 save_buttons_world))
     = [(MainPage, act None (1, element "button" [] "Save as") ScrollIntoView);
        (MainPage, act None (1, element "button" [] "Save as") Click)].
Proof.
  apply (first_match_wins "save" 1 save_buttons_world (open_page save_buttons) 1
           (element "button" [] "Save as") (no_pending_faults _ _));
    try reflexivity.
  intros j e Hj He _. destruct j as [|j]; [|lia].
  simpl in He. injection He as <-. reflexivity.
Defined.

(** X9.  Fill, then read: when no call to the browser fails, the
    element at position [i] of the main document is the first fillable
    element that the main pass accepts, and it is a control that stores a
    string as given (a plain text input or a textarea, and no line break in
    the value), the call returns [true] and leaves a main document in which
    that element has the requested value and every other position is as it
    was; when the main page is not itself an entry of [allPages], the
    popups are as they were. *)
Theorem fill_sets_the_value (target text : string) (maxRetries : Z) (w : World)
  (pg : Page) (i : nat) (el : Element) :
  no_faults w -> state_page w = Some pg -> isClosed pg = false ->
  nth_error (document pg) i = Some el ->
  sel_fillable el = true -> fill_main_cond (toLowerCase target) el = true ->
  (forall j e, j < i -> nth_error (document pg) j = Some e ->
               sel_fillable e = true ->
               fill_main_cond (toLowerCase target) e = false) ->
  stores_as_given text el = true ->
  outcome (fillWithRetry target text maxRetries w) = Returned true
  /\ (exists pg',
         state_page (final (fillWithRetry target text maxRetries w)) = Some pg'
         /\ isClosed pg' = false
         /\ nth_error (document pg') i = Some (set_value text el)
         /\ option_map Dom.value (nth_error (document pg') i) = Some text
         /\ (forall j, j <> i ->
                       nth_error (document pg') j = nth_error (document pg) j))
  /\ (~ In (Some pg) (allPages w) ->
      allPages (final (fillWithRetry target text maxRetries w)) = allPages w).
Proof.
  intros Hn Hp Ho Hi Hs Hc Hfirst _. rewrite fillWithRetry_shape.
  pose proof (first_candidate_first _ _ _ _ _ Hi Hs Hc Hfirst) as Hf.
  assert (Hh : script_hits (main_script (fill_pass target text)) (document pg)
               = true)
    by (unfold script_hits; simpl; now rewrite Hf).
  pose proof (search_ok (fill_pass target text) w Hn) as Hok.
  set (r := search (fill_pass target text) w) in *. clearbody r.
  destruct Hok as (-> & [Hsp Hap] & _ & _).
  unfold resolved_world in Hsp, Hap.
  rewrite (resolve_main _ w pg Hp Ho Hh) in Hsp, Hap.
  unfold applied, script_document in Hsp, Hap. cbn [page_of] in Hsp, Hap.
  rewrite Hp in Hsp, Hap. cbn [put_document state_page allPages] in Hsp, Hap.
  rewrite Hp in Hsp. simpl in Hsp. rewrite Hf in Hsp. cbn [fst snd] in Hsp.
  split; [now rewrite (resolve_main _ w pg Hp Ho Hh)|].
  split; [|intros _; exact Hap].
  eexists. split; [exact Hsp|]. unfold set_page_document. cbn [isClosed document].
  unfold assign. cbn [fst].
  assert (Hnth : nth_error (update_at i (set_value text) (document pg)) i
                 = Some (set_value text el))
    by (rewrite nth_error_update_at, Nat.eqb_refl, Hi; reflexivity).
  split; [exact Ho|]. split; [exact Hnth|]. split.
  - rewrite Hnth. simpl. now destruct el.
  - intros j Hj. rewrite nth_error_update_at.
    destruct (Nat.eqb_spec i j); [congruence | reflexivity].
Qed.

Lemma fill_sets_the_value_witness :
  outcome (fillWithRetry "function id" "F-17" 1 (world_of [function_id_input]))
  = Returned true
  /\ (exists pg',
         state_page (final (fillWithRetry "function id" "F-17" 1
                              (world_of [function_id_input]))) = Some pg'
         /\ isClosed pg' = false
         /\ nth_error (document pg') 0 = Some (set_value "F-17" function_id_input)
         /\ option_map Dom.value (nth_error (document pg') 0) = Some "F-17"
         /\ (forall j, j <> 0 ->
                       nth_error (document pg') j
                       = nth_error [function_id_input] j))
  /\ (~ In (Some (open_page [function_id_input])) [] ->
      allPages (final (fillWithRetry "function id" "F-17" 1
                         (world_of [function_id_input]))) = []).
Proof.
  apply (fill_sets_the_value "function id" "F-17" 1 (world_of [function_id_input])
           (open_page [function_id_input]) 0 function_id_input
           (no_pending_faults _ _));
    try reflexivity.
  intros j e Hj. lia.
Defined.

(** X10.  When no call to the browser fails, a call acts on at most one
    element: all its actions are on one node of one document. *)
Theorem one_element_per_call (target text : string) (maxRetries : Z) (w : World) :
  no_faults w ->
  on_one_node (actions (emitted (clickWithRetry target maxRetries w)))
  /\ on_one_node (actions (emitted (fillWithRetry target text maxRetries w))).
Proof.
  intros Hn. rewrite clickWithRetry_shape, fillWithRetry_shape. split.
  - destruct (search_ok (click_pass target) w Hn) as (_ & _ & _ & ->).
    apply resolved_actions_one_node.
  - destruct (search_ok (fill_pass target text) w Hn) as (_ & _ & _ & ->).
    apply resolved_actions_one_node.
Qed.

Lemma one_element_per_call_witness :
  on_one_node (actions (emitted (clickWithRetry "save" 1 save_buttons_world)))
  /\ on_one_node (actions (emitted (fillWithRetry "save" "x" 1 save_buttons_world))).
Proof.
  exact (one_element_per_call "save" "x" 1 save_buttons_world
           (no_pending_faults _ _)).
Defined.



Section PopupFailures.

Variable c : Pass.

Lemma sweep_popup_rejected (k : nat) (w : World) (pg : Page) (fs : list bool) :
  page_of (Popup k) w = Some pg -> isClosed pg = false ->
  faults w = true :: fs ->
  sweep_popup c k w
  = mkRun (Returned false) (mkWorld (state_page w) (allPages w) fs)
          [Evaluated (Popup k) (popup_script c)].
Proof.
  intros Hp Ho Hf. unfold sweep_popup, bind at 1, gets.
  cbn [outcome final emitted app]. rewrite Hp, Ho. cbn [negb].
  unfold try_catch, evaluate, bind, emit, settle, ret.
  cbn [outcome final emitted app]. rewrite Hf. reflexivity.
Qed.

Lemma sweep_popup_pause_rejected_run (k : nat) (w : World) (pg : Page)
  (fs : list bool) :
  page_of (Popup k) w = Some pg -> isClosed pg = false ->
  faults w = false :: true :: fs ->
  script_hits (popup_script c) (document pg) = true ->
  sweep_popup c k w
  = mkRun (Returned false)
      (put_document (Popup k) (script_document (popup_script c) (document pg))
         (mkWorld (state_page w) (allPages w) fs))
      ((Evaluated (Popup k) (popup_script c)
        :: map (Dom (Popup k)) (script_actions (popup_script c) (document pg)))
       ++ [Log (found_popup c); Waited (Popup k) (pause c)])%list.
Proof.
  intros Hp Ho Hf Hh. unfold sweep_popup, bind at 1, gets.
  cbn [outcome final emitted app]. rewrite Hp, Ho. cbn [negb].
  unfold try_catch.
  rewrite (bind_run _ _ _ _ _ _ (evaluate_settles (Popup k) _ w pg _ Hf Hp)).
  rewrite Hh. unfold bind, log, emit, waitForTimeout, settle, ret.
  cbn [outcome final emitted app faults put_document].
  now rewrite !app_nil_r.
Qed.

Lemma sweep_popup_pause_rejected (k : nat) (w : World) (pg : Page)
  (fs : list bool) :
  page_of (Popup k) w = Some pg -> isClosed pg = false ->
  faults w = false :: true :: fs ->
  script_hits (popup_script c) (document pg) = true ->
  outcome (sweep_popup c k w) = Returned false
  /\ final (sweep_popup c k w)
     = put_document (Popup k) (script_document (popup_script c) (document pg))
         (mkWorld (state_page w) (allPages w) fs)
  /\ actions (emitted (sweep_popup c k w))
     = map (pair (Popup k)) (script_actions (popup_script c) (document pg)).
Proof.
  intros Hp Ho Hf Hh.
  rewrite (sweep_popup_pause_rejected_run k w pg fs Hp Ho Hf Hh).
  cbn [outcome final emitted]. repeat split.
  rewrite actions_app. cbn [actions]. rewrite actions_dom.
  now rewrite app_nil_r.
Qed.

Lemma sweep_popups_step (k n : nat) (w : World) :
  outcome (sweep_popup c k w) = Returned false ->
  outcome (sweep_popups c k (S n) w)
  = outcome (sweep_popups c (S k) n (final (sweep_popup c k w)))
  /\ final (sweep_popups c k (S n) w)
     = final (sweep_popups c (S k) n (final (sweep_popup c k w)))
  /\ actions (emitted (sweep_popups c k (S n) w))
     = (actions (emitted (sweep_popup c k w))
        ++ actions (emitted (sweep_popups c (S k) n (final (sweep_popup c k w)))))%list.
Proof.
  intros H.
  assert (E : sweep_popups c k (S n) w
              = mkRun (outcome (sweep_popups c (S k) n (final (sweep_popup c k w))))
                      (final (sweep_popups c (S k) n (final (sweep_popup c k w))))
                      (emitted (sweep_popup c k w)
                       ++ emitted (sweep_popups c (S k) n
                                     (final (sweep_popup c k w)))))
    by (cbn [sweep_popups]; unfold bind at 1; cbv zeta; now rewrite H).
  rewrite E. cbn [outcome final emitted]. now rewrite actions_app.
Qed.

End PopupFailures.

Lemma resolved_actions_erased (c : Pass) (w1 w2 : World) :
  erased w1 = erased w2 ->
  map erase_page_action (resolved_actions c w1)
  = map erase_page_action (resolved_actions c w2).
Proof.
  intros He. unfold resolved_actions. rewrite (resolve_erased c w1 w2 He).
  destruct (resolve c w2) as [[p s]|]; [|reflexivity].
  now apply applied_actions_erased.
Qed.

Lemma resolved_world_twice (c : Pass) (w w1 : World) :
  same_pages (resolved_world c w) w1 ->
  same_pages w1 (resolved_world c w1).
Proof.
  intros Hs.
  assert (He : erased w1 = erased w)
    by (rewrite (erased_same_pages _ _ Hs); apply resolved_world_erased).
  unfold resolved_world in *. rewrite (resolve_erased c w1 w He).
  destruct (resolve c w) as [[p s]|].
  - pose proof (applied_same_pages p s _ _ Hs) as H2.
    rewrite applied_twice in H2. destruct Hs as [Hs1 Hs2], H2 as [H21 H22].
    split; congruence.
  - destruct Hs as [Hs1 Hs2]. now split.
Qed.

(** X12.  The searches never read the value of a field: when no call to
    the browser fails, two worlds that differ only in the values their
    elements hold give the same result, and the same actions on the same
    nodes (the elements named in the actions differ in their values
    only). *)
Theorem result_ignores_values (target text : string) (maxRetries : Z)
  (w1 w2 : World) :
  erased w1 = erased w2 -> no_faults w1 -> no_faults w2 ->
  (outcome (clickWithRetry target maxRetries w1)
   = outcome (clickWithRetry target maxRetries w2)
   /\ map erase_page_action (actions (emitted (clickWithRetry target maxRetries w1)))
      = map erase_page_action
            (actions (emitted (clickWithRetry target maxRetries w2))))
  /\ (outcome (fillWithRetry target text maxRetries w1)
      = outcome (fillWithRetry target text maxRetries w2)
      /\ map erase_page_action
             (actions (emitted (fillWithRetry target text maxRetries w1)))
         = map erase_page_action
               (actions (emitted (fillWithRetry target text maxRetries w2)))).
Proof.
  intros He H1 H2. rewrite !clickWithRetry_shape, !fillWithRetry_shape. split.
  - destruct (search_ok (click_pass target) w1 H1) as (-> & _ & _ & ->).
    destruct (search_ok (click_pass target) w2 H2) as (-> & _ & _ & ->).
    rewrite (resolve_erased _ w1 w2 He). split; [reflexivity|].
    now apply resolved_actions_erased.
  - destruct (search_ok (fill_pass target text) w1 H1) as (-> & _ & _ & ->).
    destruct (search_ok (fill_pass target text) w2 H2) as (-> & _ & _ & ->).
    rewrite (resolve_erased _ w1 w2 He). split; [reflexivity|].
    now apply resolved_actions_erased.
Qed.

Lemma result_ignores_values_witness :
  outcome (fillWithRetry "email" "a@b.c" 1 email_world)
  = outcome (fillWithRetry "email" "a@b.c" 1 typed_email_world).
Proof.
  exact (proj1 (proj2 (result_ignores_values "email" "a@b.c" 1
                         email_world typed_email_world eq_refl
                         (no_pending_faults _ _) (no_pending_faults _ _)))).
Defined.

(** X13.  Filling is idempotent as far as the code's own writes go: when
    no call to the browser fails, a second call with the same target and
    value returns what the first returned and leaves every page as the
    first call left it. *)
Theorem fill_twice (target text : string) (maxRetries : Z) (w : World) :
  no_faults w ->
  outcome (fillWithRetry target text maxRetries
             (final (fillWithRetry target text maxRetries w)))
  = outcome (fillWithRetry target text maxRetries w)
  /\ same_pages (final (fillWithRetry target text maxRetries w))
                (final (fillWithRetry target text maxRetries
                          (final (fillWithRetry target text maxRetries w)))).
Proof.
  intros Hn. rewrite !fillWithRetry_shape.
  pose proof (search_ok (fill_pass target text) w Hn) as H1.
  pose proof (search_keeps_erased (fill_pass target text) w) as He.
  set (w1 := final (search (fill_pass target text) w)) in *.
  destruct H1 as (-> & Hs & Hn1 & _).
  destruct (search_ok (fill_pass target text) w1 Hn1) as (-> & Hs2 & _ & _).
  rewrite (resolve_erased _ w1 w He). split; [reflexivity|].
  pose proof (resolved_world_twice _ _ _ Hs) as Ht.
  destruct Ht as [Ht1 Ht2], Hs2 as [Hs21 Hs22]. subst w1. split; congruence.
Qed.

Lemma fill_twice_witness :
  outcome (fillWithRetry "email" "a@b.c" 1
             (final (fillWithRetry "email" "a@b.c" 1 email_world)))
  = outcome (fillWithRetry "email" "a@b.c" 1 email_world)
  /\ same_pages (final (fillWithRetry "email" "a@b.c" 1 email_world))
                (final (fillWithRetry "email" "a@b.c" 1
                          (final (fillWithRetry "email" "a@b.c" 1 email_world)))).
Proof.
  exact (fill_twice "email" "a@b.c" 1 email_world (no_pending_faults _ _)).
Defined.

(** X14.  The letter case of the target is irrelevant to a whole call:
    two targets with the same lower-case form give the same result, the
    same final world and the same actions, in every world and under every
    pattern of failures (only the log lines, which quote the target,
    differ). *)
Theorem target_case_is_irrelevant (t t' text : string) (m m' : Z) (w : World) :
  toLowerCase t = toLowerCase t' ->
  effect (clickWithRetry t m w) = effect (clickWithRetry t' m' w)
  /\ effect (fillWithRetry t text m w) = effect (fillWithRetry t' text m' w).
Proof.
  intros H. rewrite !clickWithRetry_shape, !fillWithRetry_shape.
  split; apply effect_search; try reflexivity; intros doc;
    cbn [main_script iframe_script popup_script click_pass fill_pass];
    unfold run_script; now rewrite H.
Qed.

Lemma target_case_is_irrelevant_witness :
  effect (clickWithRetry "SAVE" 1 save_world)
  = effect (clickWithRetry "save" 1 save_world).
Proof.
  exact (proj1 (target_case_is_irrelevant "SAVE" "save" "" 1 1 save_world
                  eq_refl)).
Defined.



Section PopupFailuresInACall.

Variable c : Pass.

Lemma evaluate_settles_miss (p : PageId) (s : Script) (w : World) (pg : Page)
  (fs : list bool) :
  faults w = false :: fs -> page_of p w = Some pg ->
  script_hits s (document pg) = false ->
  evaluate p s w
  = mkRun (Returned false) (mkWorld (state_page w) (allPages w) fs)
          [Evaluated p s].
Proof.
  intros Hf Hp Hh. rewrite (evaluate_settles p s w pg fs Hf Hp), Hh.
  unfold script_hits, script_document, script_actions in *.
  destruct (run_script s (document pg)) as [[b d] acts] eqn:E.
  cbn [fst snd] in *. subst b. destruct (run_script_false _ _ _ _ E) as [-> ->].
  rewrite put_document_same; [reflexivity | now destruct p].
Qed.

Lemma sweep_reaches_popups (w : World) (pg : Page) (fs : list bool) :
  state_page w = Some pg ->
  script_hits (main_script c) (document pg) = false ->
  script_hits (iframe_script c) (document pg) = false ->
  faults w = false :: false :: fs ->
  outcome (sweep c w)
  = outcome (sweep_popups c 0 (length (allPages w))
               (mkWorld (state_page w) (allPages w) fs))
  /\ final (sweep c w)
     = final (sweep_popups c 0 (length (allPages w))
                (mkWorld (state_page w) (allPages w) fs))
  /\ actions (emitted (sweep c w))
     = actions (emitted (sweep_popups c 0 (length (allPages w))
                           (mkWorld (state_page w) (allPages w) fs))).
Proof.
  intros Hp Hm Hi Hf.
  set (w1 := mkWorld (state_page w) (allPages w) (false :: fs)).
  set (w2 := mkWorld (state_page w) (allPages w) fs).
  assert (E1 : evaluate MainPage (main_script c) w
               = mkRun (Returned false) w1 [Evaluated MainPage (main_script c)])
    by now apply (evaluate_settles_miss MainPage _ w pg).
  assert (E2 : evaluate MainPage (iframe_script c) w1
               = mkRun (Returned false) w2 [Evaluated MainPage (iframe_script c)])
    by now apply (evaluate_settles_miss MainPage _ w1 pg).
  destruct (sweep_popups_returns c (length (allPages w)) 0 w2) as [b Hb].
  assert (E : sweep c w
              = mkRun (Returned b)
                  (final (sweep_popups c 0 (length (allPages w)) w2))
                  ([Evaluated MainPage (main_script c)]
                   ++ [Evaluated MainPage (iframe_script c)]
                   ++ emitted (sweep_popups c 0 (length (allPages w)) w2)
                   ++ (if b then [] else [Log (not_found c)]))%list).
  { unfold sweep. rewrite (bind_run _ _ _ _ _ _ E1). unfold after_main.
    rewrite (bind_run _ _ _ _ _ _ E2).
    unfold bind, gets, log, emit, ret. cbn [outcome final emitted app].
    change (allPages w2) with (allPages w). rewrite Hb.
    destruct b; cbn [outcome final emitted app]; now rewrite ?app_nil_r. }
  rewrite E, Hb. cbn [outcome final emitted]. repeat split.
  rewrite !actions_app. cbn [actions app]. destruct b; cbn [actions];
    now rewrite app_nil_r.
Qed.

Lemma search_popup_pause_failure (w : World) (pg p0 : Page)
  (rest : list (option Page)) (fs : list bool) :
  state_page w = Some pg -> isClosed pg = false ->
  script_hits (main_script c) (document pg) = false ->
  script_hits (iframe_script c) (document pg) = false ->
  allPages w = Some p0 :: rest -> isClosed p0 = false ->
  script_hits (popup_script c) (document p0) = true ->
  faults w = false :: false :: false :: true :: fs ->
  outcome (search c w)
  = outcome (sweep_popups c 1 (length rest)
               (put_document (Popup 0)
                  (script_document (popup_script c) (document p0))
                  (mkWorld (state_page w) (allPages w) fs)))
  /\ actions (emitted (search c w))
     = (map (pair (Popup 0)) (script_actions (popup_script c) (document p0))
        ++ actions (emitted
                      (sweep_popups c 1 (length rest)
                         (put_document (Popup 0)
                            (script_document (popup_script c) (document p0))
                            (mkWorld (state_page w) (allPages w) fs)))))%list.
Proof.
  intros Hp Ho Hm Hi Hall Ho0 Hh Hf.
  destruct (sweep_reaches_popups w pg _ Hp Hm Hi Hf) as (So & _ & Sa).
  set (w2 := mkWorld (state_page w) (allPages w) (false :: true :: fs)) in *.
  assert (P0 : page_of (Popup 0) w2 = Some p0)
    by (cbn [page_of w2 allPages]; now rewrite Hall).
  destruct (sweep_popup_pause_rejected c 0 w2 p0 fs P0 Ho0 eq_refl Hh)
    as (Po & Pf & Pa).
  destruct (sweep_popups_step c 0 (length rest) w2 Po) as (To & _ & Ta).
  rewrite Pf in To, Ta. rewrite Pa in Ta. cbn [state_page allPages w2] in To, Ta.
  rewrite Hall in So, Sa. cbn [length] in So, Sa.
  rewrite To in So. rewrite Ta in Sa.
  destruct (sweep_popups_returns c (length rest) 1
              (put_document (Popup 0)
                 (script_document (popup_script c) (document p0))
                 (mkWorld (state_page w) (allPages w) fs))) as [b Hb].
  assert (Hu : page_unavailable w = false)
    by (unfold page_unavailable; now rewrite Hp, Ho).
  rewrite search_unfold, Hu.
  cbv zeta. cbn [outcome emitted actions]. unfold try_catch.
  rewrite So, Hb. cbv iota. split; [now rewrite So | exact Sa].
Qed.

End PopupFailuresInACall.

Lemma sweep_popups_skips_rejected (c : Pass) (k n : nat) (w : World) (pg : Page)
  (fs : list bool) :
  page_of (Popup k) w = Some pg -> isClosed pg = false ->
  faults w = true :: fs ->
  effect (sweep_popups c k (S n) w)
  = effect (sweep_popups c (S k) n (mkWorld (state_page w) (allPages w) fs)).
Proof.
  intros Hp Ho Hf.
  pose proof (sweep_popup_rejected c k w pg fs Hp Ho Hf) as E.
  assert (Hout : outcome (sweep_popup c k w) = Returned false) by now rewrite E.
  destruct (sweep_popups_step c k n w Hout) as (H1 & H2 & H3).
  rewrite E in H1, H2, H3. cbn [final emitted actions app] in H1, H2, H3.
  unfold effect. now rewrite H1, H2, H3.
Qed.

Lemma click_popup_document (target : string) (doc : Document) :
  script_document (ClickPopup target) doc = doc.
Proof.
  unfold script_document.
  destruct (run_script (ClickPopup target) doc) as [[b d] acts] eqn:E.
  exact (click_script_document (ClickPopup target) doc d b acts eq_refl E).
Qed.

(** X16.  The loop over the popups never raises: under every pattern of
    failures it returns, starting from any index, because every call to a
    popup sits in a [try] of its own. *)
Theorem popup_loop_never_raises (target text : string) (k remaining : nat)
  (w : World) :
  (exists b, outcome (click_popups target k remaining w) = Returned b)
  /\ (exists b, outcome (fill_popups target text k remaining w) = Returned b).
Proof.
  rewrite click_popups_shape, fill_popups_shape.
  split; apply sweep_popups_returns.
Qed.

(** X17.  A popup whose scan is rejected is skipped: when the call to an
    open popup fails, nothing is done in that popup and the loop goes on
    with the next one, as if it had started there. *)
Theorem rejected_popup_is_skipped (target text : string) (k n : nat) (w : World)
  (pg : Page) (fs : list bool) :
  page_of (Popup k) w = Some pg -> isClosed pg = false ->
  faults w = true :: fs ->
  effect (click_popups target k (S n) w)
  = effect (click_popups target (S k) n
              (mkWorld (state_page w) (allPages w) fs))
  /\ effect (fill_popups target text k (S n) w)
     = effect (fill_popups target text (S k) n
                 (mkWorld (state_page w) (allPages w) fs)).
Proof.
  intros Hp Ho Hf. rewrite !click_popups_shape, !fill_popups_shape.
  split; now apply (sweep_popups_skips_rejected _ k n w pg).
Qed.

Lemma rejected_popup_is_skipped_witness :
  actions (emitted (click_popups "close" 0 2
                      (mkWorld None
                         [Some (open_page [element "button" [] "Close"]);
                          Some (open_page [element "button" [] "Close"])]
                         [true])))
  = [(Popup 1, act None (0, element "button" [] "Close") ScrollIntoView);
     (Popup 1, act None (0, element "button" [] "Close") Click)].
Proof.
  exact (f_equal snd
           (proj1 (rejected_popup_is_skipped "close" "" 0 1
                     (mkWorld None
                        [Some (open_page [element "button" [] "Close"]);
                         Some (open_page [element "button" [] "Close"])]
                        [true])
                     (open_page [element "button" [] "Close"]) []
                     eq_refl eq_refl eq_refl))).
Defined.

(** X18.  A click whose pause fails is not the end of the call: when the
    main document and its iframes have no candidate, the first popup is
    open and has one, and the pause after the click in it is rejected (the
    click has closed the popup, say), the element is clicked, the failure
    is swallowed, and the call goes on with the remaining popups: its
    result is theirs, and their actions follow the click. *)
Theorem click_goes_on_after_failed_pause (target : string) (maxRetries : Z)
  (w : World) (pg p0 : Page) (rest : list (option Page)) (fs : list bool) :
  state_page w = Some pg -> isClosed pg = false ->
  misses (ClickMain target) (document pg) ->
  misses (ClickIframes target) (document pg) ->
  allPages w = Some p0 :: rest -> isClosed p0 = false ->
  hits (ClickPopup target) (document p0) ->
  faults w = false :: false :: false :: true :: fs ->
  outcome (clickWithRetry target maxRetries w)
  = outcome (click_popups target 1 (length rest)
               (mkWorld (state_page w) (allPages w) fs))
  /\ actions (emitted (clickWithRetry target maxRetries w))
     = (map (pair (Popup 0)) (script_actions (ClickPopup target) (document p0))
        ++ actions (emitted (click_popups target 1 (length rest)
                               (mkWorld (state_page w) (allPages w) fs))))%list.
Proof.
  intros Hp Ho Hm Hi Hall Ho0 Hh Hf.
  rewrite clickWithRetry_shape, click_popups_shape.
  pose proof (search_popup_pause_failure (click_pass target) w pg p0 rest fs
                Hp Ho Hm Hi Hall Ho0 Hh Hf) as H.
  cbn [popup_script click_pass] in H. rewrite click_popup_document in H.
  rewrite put_document_same in H; [exact H|].
  cbn [page_of allPages]. now rewrite Hall.
Qed.

Lemma click_goes_on_after_failed_pause_witness :
  outcome (clickWithRetry "close" 1 closing_popups_world) = Returned true
  /\ actions (emitted (clickWithRetry "close" 1 closing_popups_world))
     = [(Popup 0, act None (0, element "button" [] "Close") ScrollIntoView);
        (Popup 0, act None (0, element "button" [] "Close") Click);
        (Popup 1, act None (0, element "button" [] "Close") ScrollIntoView);
        (Popup 1, act None (0, element "button" [] "Close") Click)].
Proof.
  exact (click_goes_on_after_failed_pause "close" 1 closing_popups_world
           (open_page []) (open_page [element "button" [] "Close"])
           [Some (open_page [element "button" [] "Close"])] []
           eq_refl eq_refl eq_refl eq_refl eq_refl eq_refl eq_refl eq_refl).
Defined.

(** X19.  The same for a fill: when the pause after the assignment in
    the first popup is rejected, the value has been assigned there, the
    failure is swallowed, and the call goes on with the remaining popups,
    in the world the assignment left. *)
Theorem fill_goes_on_after_failed_pause (target text : string) (maxRetries : Z)
  (w : World) (pg p0 : Page) (rest : list (option Page)) (fs : list bool) :
  state_page w = Some pg -> isClosed pg = false ->
  misses (FillMain target text) (document pg) ->
  misses (FillIframes target text) (document pg) ->
  allPages w = Some p0 :: rest -> isClosed p0 = false ->
  hits (FillPopup target text) (document p0) ->
  faults w = false :: false :: false :: true :: fs ->
  outcome (fillWithRetry target text maxRetries w)
  = outcome (fill_popups target text 1 (length rest)
               (put_document (Popup 0)
                  (script_document (FillPopup target text) (document p0))
                  (mkWorld (state_page w) (allPages w) fs)))
  /\ actions (emitted (fillWithRetry target text maxRetries w))
     = (map (pair (Popup 0))
            (script_actions (FillPopup target text) (document p0))
        ++ actions (emitted (fill_popups target text 1 (length rest)
                               (put_document (Popup 0)
                                  (script_document (FillPopup target text)
                                     (document p0))
                                  (mkWorld (state_page w) (allPages w) fs)))))%list.
Proof.
  intros Hp Ho Hm Hi Hall Ho0 Hh Hf.
  rewrite fillWithRetry_shape, fill_popups_shape.
  exact (search_popup_pause_failure (fill_pass target text) w pg p0 rest fs
           Hp Ho Hm Hi Hall Ho0 Hh Hf).
Qed.

Lemma fill_goes_on_after_failed_pause_witness :
  outcome (fillWithRetry "function id" "F-17" 1
             (mkWorld (Some (open_page []))
                      [Some (open_page [function_id_input]);
                       Some (open_page [function_id_input])]
                      [false; false; false; true]))
  = Returned true
  /\ map fst (actions (emitted
                (fillWithRetry "function id" "F-17" 1
                   (mkWorld (Some (open_page []))
                            [Some (open_page [function_id_input]);
                             Some (open_page [function_id_input])]
                            [false; false; false; true]))))
     = [Popup 0; Popup 0; Popup 0; Popup 1; Popup 1; Popup 1].
Proof.
  pose proof (fill_goes_on_after_failed_pause "function id" "F-17" 1
                (mkWorld (Some (open_page []))
                         [Some (open_page [function_id_input]);
                          Some (open_page [function_id_input])]
                         [false; false; false; true])
                (open_page []) (open_page [function_id_input])
                [Some (open_page [function_id_input])] []
                eq_refl eq_refl eq_refl eq_refl eq_refl eq_refl eq_refl eq_refl)
    as [H1 H2].
  split; [exact H1 | exact (f_equal (map fst) H2)].
Defined.

(* ================================================================== *)
(** ** The fill search and the elements that are not text fields *)
(* ================================================================== *)

Section FieldsOnly.












Section Selected.

Variables sel cond settles : Element -> bool.



End Selected.




End FieldsOnly.



